(** * Lightcycle simulation core: collision engine, motion math, decision
      policy and round state machine

    A shallow embedding of the TypeScript engine under
    [src/games/lightcycle]: [constants.ts], [types.ts],
    [engine/GridSystem.ts], [engine/CollisionSystem.ts],
    [engine/AIController.ts], and the initial state and the [KILL_CYCLE]
    transition of the game reducer ([gameReducer], imported by the game
    loop from [state/GameContext]).

    Numbers.  A JavaScript [number] is modelled as an exact real ([R]);
    the one non-finite value the engine manipulates on purpose, [Infinity]
    (the initial "no hit yet" distance of a raycast), is the extra element
    of [xnum].  Comparisons are the decidable order of [R], read as
    booleans through [bool_decide].  Score tallies are integer counters
    ([Z]).  Strings (agent ids) are [string]; the two JavaScript maps keyed
    by agent id ([GameState.scores] and the controller's
    [lastDecisionTime]) are [gmap string _]. *)

From Stdlib Require Import Reals Lra Lia ZArith Sorted.
From Stdlib Require PrimFloat.
From stdpp Require Import base decidable option list strings pretty gmap.

#[local] Open Scope R_scope.

(** ** Numbers *)

#[global] Instance Rlt_decision (a b : R) : Decision (a < b) := Rlt_dec a b.
#[global] Instance Rle_decision (a b : R) : Decision (a <= b) := Rle_dec a b.
#[global] Instance Rgt_decision (a b : R) : Decision (a > b) := Rgt_dec a b.
#[global] Instance Rge_decision (a b : R) : Decision (a >= b) := Rge_dec a b.
#[global] Instance Req_decision : EqDecision R := Req_dec_T.
#[global] Instance nat_gt_decision (a b : nat) : Decision (a > b)%nat :=
  decide (b < a)%nat.

(** A [number] that may be [Infinity]. *)
Inductive xnum : Type :=
  | Fin (r : R)
  | Infinity.

(** [Math.min(a, b)] where [a] may be [Infinity]. *)
Definition xmin (a : xnum) (b : R) : R :=
  match a with
  | Fin r => Rmin r b
  | Infinity => b
  end.

(** [d < m] where [m] may be [Infinity]. *)
Definition lt_xnum (d : R) (m : xnum) : bool :=
  match m with
  | Fin r => bool_decide (d < r)
  | Infinity => true
  end.

(** [a < b] where both may be [Infinity]. *)
Definition xnum_lt (a b : xnum) : bool :=
  match a with
  | Fin r => lt_xnum r b
  | Infinity => false
  end.

(** Case analysis on every boolean comparison in the goal, closing the
    branches whose arithmetic is contradictory. *)
Ltac rcases :=
  repeat (case_bool_decide; try lra); simpl; try reflexivity; try lra.

(** Unfolds [Math.min] and [Math.max] and decides every comparison. *)
Ltac rsolve :=
  unfold Rmin, Rmax;
  repeat match goal with
         | |- context [Rle_dec ?a ?b] => destruct (Rle_dec a b); try lra
         end;
  rcases.

(** ** types.ts *)

Inductive GamePhase := menu | countdown | playing | paused | gameOver.
Inductive CameraMode := firstPerson | thirdPerson | topDown.
Inductive GridDirection := north | east | south | west.

#[global] Instance GridDirection_eq_dec : EqDecision GridDirection.
Proof. solve_decision. Defined.

(** [{ x: number; z: number }], also used for direction vectors. *)
Record GridPosition := mkPos { pos_x : R; pos_z : R }.

Record TrailSegment := mkSeg {
  seg_start : GridPosition;
  seg_end : GridPosition;
  seg_direction : GridDirection
}.

Record CycleState := mkCycle {
  c_id : string;
  c_gridPosition : GridPosition;
  c_direction : GridDirection;
  c_angle : R;
  c_targetAngle : R;
  c_isTurning : bool;
  c_color : Z;
  c_isAlive : bool;
  c_trail : list TrailSegment;
  c_isPlayer : bool;
  c_speed : R;
  c_trailActive : bool;
  c_isJumping : bool;
  c_jumpStartTime : R;
  c_lastJumpTime : R
}.

Record GameState := mkGame {
  g_phase : GamePhase;
  g_cycles : list CycleState;
  g_cameraMode : CameraMode;
  g_countdown : Z;
  g_winner : option string;
  g_round : Z;
  g_scores : gmap string Z;
  g_isNPCMode : bool
}.

(** [CollisionResult.type] and the [type] of a raycast hit. *)
Inductive HitType := wall | trail | cycle.

#[global] Instance HitType_eq_dec : EqDecision HitType.
Proof. solve_decision. Defined.

Record CollisionResult := mkResult {
  collided : bool;
  res_type : option HitType;
  res_cycleId : option string
}.

(** ** constants.ts *)

Definition ARENA_SIZE : R := 128.
Definition ARENA_HALF : R := ARENA_SIZE / 2.
Definition CELL_SIZE : R := 1.
Definition BASE_SPEED : R := 12.
Definition TRAIL_WIDTH : R := 0.15.

Module AI_CONFIG.
Definition lookAheadDistance : R := 25.
Definition minTurnDistance : R := 4.
Definition randomFactor : R := 0.15.
Definition decisionInterval : R := 60.
End AI_CONFIG.

Definition DIRECTION_VECTORS (d : GridDirection) : GridPosition :=
  match d with
  | north => mkPos 0 (-1)
  | south => mkPos 0 1
  | east => mkPos 1 0
  | west => mkPos (-1) 0
  end.

Definition TURN_LEFT (d : GridDirection) : GridDirection :=
  match d with
  | north => west
  | west => south
  | south => east
  | east => north
  end.

Definition TURN_RIGHT (d : GridDirection) : GridDirection :=
  match d with
  | north => east
  | east => south
  | south => west
  | west => north
  end.

Definition DIRECTION_TO_ANGLE (d : GridDirection) : R :=
  match d with
  | north => 0
  | east => PI / 2
  | south => PI
  | west => - PI / 2
  end.

#[global] Instance GamePhase_eq_dec : EqDecision GamePhase.
Proof. solve_decision. Defined.

#[global] Instance CameraMode_eq_dec : EqDecision CameraMode.
Proof. solve_decision. Defined.

(** [Math.floor(x)]: the integer [n] with [n <= x < n + 1]. *)
Definition jsFloor (x : R) : R := IZR (Int_part x).

(** [Math.round(x)]: the nearest integer, a half rounded towards
    [+Infinity], which is [floor(x + 0.5)]. *)
Definition jsRound (x : R) : R := jsFloor (x + 0.5).

(** The integer part of [x], rounded towards zero. *)
Definition jsTrunc (x : R) : R :=
  if bool_decide (x >= 0) then jsFloor x else - jsFloor (- x).

(** [a % m] on numbers: the remainder has the sign of the dividend. *)
Definition jsRem (a m : R) : R := a - m * jsTrunc (a / m).

Definition PHYSICS_TIMESTEP : R := 1000 / 60.
Definition MAX_DELTA : R := 250.
Definition COUNTDOWN_DURATION : Z := 3.
Definition JUMP_HEIGHT : R := 4.
Definition JUMP_DURATION : R := 900.
Definition JUMP_COOLDOWN : R := 800.

Inductive InputAction :=
  | turnLeft | turnRight | jump | toggleCamera | pause | confirm.

Definition KEY_MAPPINGS : list (string * InputAction) :=
  [ ("KeyA", turnLeft); ("ArrowLeft", turnLeft);
    ("KeyD", turnRight); ("ArrowRight", turnRight);
    ("KeyW", jump); ("ArrowUp", jump);
    ("KeyV", toggleCamera); ("Escape", pause);
    ("Space", confirm); ("Enter", confirm) ].

Definition BASE_SPAWN_CONFIGS : list (GridPosition * GridDirection) :=
  [ (mkPos 0 (ARENA_HALF - 10), north);
    (mkPos 0 (- ARENA_HALF + 10), south);
    (mkPos (- ARENA_HALF + 10) 0, east);
    (mkPos (ARENA_HALF - 10) 0, west) ].

(** The function [generateSpawnPositions] maps over the shuffled base
    spawns; [random] is the value [Math.random()] returned for this
    spawn. *)
Definition varySpawn (spawn : GridPosition * GridDirection) (random : R)
    : GridPosition * GridDirection :=
  let variance := (random - 0.5) * 40 in
  let newX := pos_x (fst spawn) in
  let newZ := pos_z (fst spawn) in
  let northSouth :=
    bool_decide (snd spawn = north) || bool_decide (snd spawn = south) in
  let newX := if northSouth then newX + variance else newX in
  let newZ := if northSouth then newZ else newZ + variance in
  let margin := 15 in
  let newX :=
    Rmax (- ARENA_HALF + margin) (Rmin (ARENA_HALF - margin) newX) in
  let newZ :=
    Rmax (- ARENA_HALF + margin) (Rmin (ARENA_HALF - margin) newZ) in
  (mkPos newX newZ, snd spawn).

(** [generateSpawnPositions()].  [shuffled] is what
    [[...BASE_SPAWN_CONFIGS].sort(() => Math.random() - 0.5)] produced,
    some permutation of the base spawns; [randoms] are the values
    [Math.random()] returned afterwards, one per spawn. *)
Definition generateSpawnPositions
    (shuffled : list (GridPosition * GridDirection)) (randoms : list R)
    : list (GridPosition * GridDirection) :=
  zip_with varySpawn shuffled randoms.

(** [angleToDirection] *)
Definition angleToDirection (angle : R) : GridDirection :=
  let normalized := jsRem (jsRem angle (PI * 2) + PI * 2) (PI * 2) in
  if bool_decide (normalized > PI * 1.75)
     || bool_decide (normalized <= PI * 0.25) then north
  else if bool_decide (normalized > PI * 0.25)
          && bool_decide (normalized <= PI * 0.75) then east
  else if bool_decide (normalized > PI * 0.75)
          && bool_decide (normalized <= PI * 1.25) then south
  else west.

(** [while (angle > Math.PI) angle -= Math.PI * 2], with a bound on the
    number of iterations. *)
Fixpoint wrapDown (fuel : nat) (angle : R) : R :=
  match fuel with
  | O => angle
  | S fuel' =>
      if bool_decide (angle > PI) then wrapDown fuel' (angle - PI * 2)
      else angle
  end.

(** [while (angle < -Math.PI) angle += Math.PI * 2], with a bound on the
    number of iterations. *)
Fixpoint wrapUp (fuel : nat) (angle : R) : R :=
  match fuel with
  | O => angle
  | S fuel' =>
      if bool_decide (angle < - PI) then wrapUp fuel' (angle + PI * 2)
      else angle
  end.

(** Iterations that always suffice to remove an [excess] in steps of
    [2 * PI] over exact reals.  (In binary64 the loops of the source
    make no progress on an angle beyond about 5.6e16, where
    [angle - Math.PI * 2] rounds back to [angle].) *)
Definition wrapFuel (excess : R) : nat := Z.to_nat (up (excess / (PI * 2))).

(** [normalizeAngle] *)
Definition normalizeAngle (angle : R) : R :=
  let angle := wrapDown (wrapFuel (angle - PI)) angle in
  wrapUp (wrapFuel (- PI - angle)) angle.

(** ** engine/GridSystem.ts *)

Module GridSystem.

Definition moveForward (position : GridPosition) (direction : GridDirection)
    (distance : R) : GridPosition :=
  let vector := DIRECTION_VECTORS direction in
  mkPos (pos_x position + pos_x vector * distance)
        (pos_z position + pos_z vector * distance).

Definition moveForwardAngle (position : GridPosition) (angle distance : R)
    : GridPosition :=
  mkPos (pos_x position + sin angle * distance)
        (pos_z position - cos angle * distance).

Definition calculateMovement (deltaTime speedMultiplier : R) : R :=
  BASE_SPEED * speedMultiplier * (deltaTime / 1000).

(** [distance(a, b)]: the Euclidean distance between two positions. *)
Definition distance (a b : GridPosition) : R :=
  let dx := pos_x b - pos_x a in
  let dz := pos_z b - pos_z a in
  sqrt (dx * dx + dz * dz).

Definition isInBounds (position : GridPosition) (margin : R) : bool :=
  let maxCoord := ARENA_HALF - margin in
  bool_decide (pos_x position >= - maxCoord) &&
  bool_decide (pos_x position <= maxCoord) &&
  bool_decide (pos_z position >= - maxCoord) &&
  bool_decide (pos_z position <= maxCoord).

Definition snapToGrid (position : GridPosition) : GridPosition :=
  mkPos (jsRound (pos_x position / CELL_SIZE) * CELL_SIZE)
        (jsRound (pos_z position / CELL_SIZE) * CELL_SIZE).

Definition getGridCell (position : GridPosition) : GridPosition :=
  mkPos (jsFloor (pos_x position / CELL_SIZE))
        (jsFloor (pos_z position / CELL_SIZE)).

Definition sameCell (a b : GridPosition) : bool :=
  let cellA := getGridCell a in
  let cellB := getGridCell b in
  bool_decide (pos_x cellA = pos_x cellB)
  && bool_decide (pos_z cellA = pos_z cellB).

Definition distanceToWall (position : GridPosition)
    (direction : GridDirection) : R :=
  match direction with
  | north => pos_z position + ARENA_HALF
  | south => ARENA_HALF - pos_z position
  | east => ARENA_HALF - pos_x position
  | west => pos_x position + ARENA_HALF
  end.

(** [for (let d = ...; d <= length; d += step) positions.push(...)],
    entered at [d], with a bound on the number of iterations. *)
Fixpoint lineLoop (fuel : nat) (start vector : GridPosition)
    (length step d : R) : list GridPosition :=
  match fuel with
  | O => []
  | S fuel' =>
      if bool_decide (d <= length) then
        mkPos (pos_x start + pos_x vector * d)
              (pos_z start + pos_z vector * d)
        :: lineLoop fuel' start vector length step (d + step)
      else []
  end.

(** [getLinePositions].  With a step that is not positive the loop
    variable never grows: the loop body either never runs (the result is
    empty) or runs forever, which [None] stands for.  The loop variable
    is summed over exact reals; in the source [d += step] rounds, which
    matters when [length] is (nearly) a multiple of [step]
    ([Binary64.lineDistances]). *)
Definition getLinePositions (start : GridPosition)
    (direction : GridDirection) (length step : R)
    : option (list GridPosition) :=
  let vector := DIRECTION_VECTORS direction in
  if bool_decide (step <= 0) then
    if bool_decide (step <= length) then None else Some []
  else
    Some (lineLoop (Z.to_nat (up (length / step))) start vector length step
            step).

Definition clampToBounds (position : GridPosition) (margin : R)
    : GridPosition :=
  let maxCoord := ARENA_HALF - margin in
  mkPos (Rmax (- maxCoord) (Rmin maxCoord (pos_x position)))
        (Rmax (- maxCoord) (Rmin maxCoord (pos_z position))).

End GridSystem.

(** ** engine/CollisionSystem.ts *)

Module CollisionSystem.

Definition CYCLE_RADIUS : R := 0.4.

Definition checkWallCollision (position : GridPosition) : bool :=
  let margin := CYCLE_RADIUS in
  let limit := ARENA_HALF - margin in
  bool_decide (pos_x position < - limit) ||
  bool_decide (pos_x position > limit) ||
  bool_decide (pos_z position < - limit) ||
  bool_decide (pos_z position > limit).

Definition pointIntersectsSegment (point : GridPosition)
    (segment : TrailSegment) : bool :=
  let start := seg_start segment in
  let end_ := seg_end segment in
  let halfWidth := TRAIL_WIDTH / 2 + CYCLE_RADIUS in
  let minX := Rmin (pos_x start) (pos_x end_) - halfWidth in
  let maxX := Rmax (pos_x start) (pos_x end_) + halfWidth in
  let minZ := Rmin (pos_z start) (pos_z end_) - halfWidth in
  let maxZ := Rmax (pos_z start) (pos_z end_) + halfWidth in
  bool_decide (pos_x point >= minX) &&
  bool_decide (pos_x point <= maxX) &&
  bool_decide (pos_z point >= minZ) &&
  bool_decide (pos_z point <= maxZ).

(** [trail.slice(0, Math.max(0, trail.length - n))]: [length - n] is
    the truncated subtraction of [nat], which is [Math.max(0, _)]. *)
Definition dropRecent (n : nat) (trail : list TrailSegment)
    : list TrailSegment :=
  take (length trail - n) trail.

Definition checkTrailCollision (position : GridPosition)
    (trail : list TrailSegment) (isSelf : bool) : bool :=
  let segmentsToCheck := if isSelf then dropRecent 2 trail else trail in
  existsb (pointIntersectsSegment position) segmentsToCheck.

Definition checkCycleCollision (a b : GridPosition) : bool :=
  let dx := pos_x a - pos_x b in
  let dz := pos_z a - pos_z b in
  let distanceSquared := dx * dx + dz * dz in
  let minDistance := CYCLE_RADIUS * 2 in
  bool_decide (distanceSquared < minDistance * minDistance).

(** First loop of [checkCollision]: the first living cycle whose trail
    the position touches. *)
Fixpoint trailLoop (position : GridPosition) (cycleId : string)
    (allCycles : list CycleState) : option CycleState :=
  match allCycles with
  | [] => None
  | c :: rest =>
      if negb (c_isAlive c) then trailLoop position cycleId rest
      else if checkTrailCollision position (c_trail c)
                (bool_decide (cycleId = c_id c))
      then Some c
      else trailLoop position cycleId rest
  end.

(** Second loop of [checkCollision]: the first other living cycle whose
    body the position touches. *)
Fixpoint cycleLoop (position : GridPosition) (cycleId : string)
    (allCycles : list CycleState) : option CycleState :=
  match allCycles with
  | [] => None
  | c :: rest =>
      if bool_decide (c_id c = cycleId) || negb (c_isAlive c)
      then cycleLoop position cycleId rest
      else if checkCycleCollision position (c_gridPosition c)
      then Some c
      else cycleLoop position cycleId rest
  end.

Definition checkCollision (position : GridPosition) (cycleId : string)
    (allCycles : list CycleState) : CollisionResult :=
  if checkWallCollision position then mkResult true (Some wall) None
  else match trailLoop position cycleId allCycles with
  | Some c => mkResult true (Some trail) (Some (c_id c))
  | None =>
      match cycleLoop position cycleId allCycles with
      | Some c => mkResult true (Some cycle) (Some (c_id c))
      | None => mkResult false None None
      end
  end.

(** [raycastWall]: the distance, along the ray, to the inset wall. *)
Definition raycastWall (position direction : GridPosition) : xnum :=
  let margin := CYCLE_RADIUS in
  let minDist := Infinity in
  let minDist :=
    if bool_decide (pos_x direction > 0) then
      Fin (xmin minDist
             ((ARENA_HALF - margin - pos_x position) / pos_x direction))
    else if bool_decide (pos_x direction < 0) then
      Fin (xmin minDist
             ((- ARENA_HALF + margin - pos_x position) / pos_x direction))
    else minDist in
  let minDist :=
    if bool_decide (pos_z direction > 0) then
      Fin (xmin minDist
             ((ARENA_HALF - margin - pos_z position) / pos_z direction))
    else if bool_decide (pos_z direction < 0) then
      Fin (xmin minDist
             ((- ARENA_HALF + margin - pos_z position) / pos_z direction))
    else minDist in
  minDist.

(** The result of [raycast]. *)
Record RayHit := mkHit {
  distance : R;
  hit_type : option HitType
}.

(** The two variables [raycast] updates while it marches:
    [minHitDistance] and [hitType]. *)
Record RayState := mkRay {
  minHitDistance : xnum;
  hitType : option HitType
}.

Definition step : R := 0.5.

(** [if (d < minHitDistance) { minHitDistance = d; hitType = ty }] *)
Definition recordHit (d : R) (ty : HitType) (st : RayState) : RayState :=
  if lt_xnum d (minHitDistance st) then mkRay (Fin d) (Some ty) else st.

(** The trail of [c] that a ray cast by [selfId] tests: the caster's own
    most recent segments are skipped. *)
Definition rayTrail (selfId : string) (c : CycleState) : list TrailSegment :=
  if bool_decide (c_id c = selfId) then dropRecent 3 (c_trail c)
  else c_trail c.

(** [for (const segment of trail) ...] at one sample point. *)
Definition segmentLoop (testPos : GridPosition) (d : R)
    (segments : list TrailSegment) (st : RayState) : RayState :=
  fold_left
    (fun st segment =>
       if pointIntersectsSegment testPos segment then recordHit d trail st
       else st)
    segments st.

(** Body of [for (const cycle of allCycles)] at one sample point. *)
Definition cycleBody (testPos : GridPosition) (d : R) (selfId : string)
    (st : RayState) (c : CycleState) : RayState :=
  if negb (c_isAlive c) then st
  else
    let st := segmentLoop testPos d (rayTrail selfId c) st in
    if bool_decide (c_id c <> selfId) then
      let dx := pos_x testPos - pos_x (c_gridPosition c) in
      let dz := pos_z testPos - pos_z (c_gridPosition c) in
      if bool_decide (dx * dx + dz * dz < CYCLE_RADIUS * CYCLE_RADIUS * 4)
      then recordHit d cycle st
      else st
    else st.

(** Body of the marching loop at distance [d]. *)
Definition stepBody (position direction : GridPosition)
    (allCycles : list CycleState) (selfId : string) (d : R)
    (st : RayState) : RayState :=
  let testPos := mkPos (pos_x position + pos_x direction * d)
                       (pos_z position + pos_z direction * d) in
  fold_left (cycleBody testPos d selfId) allCycles st.

(** [for (let d = ...; d <= maxDistance && d < minHitDistance; d += step)],
    entered at [d], with a bound on the number of iterations. *)
Fixpoint marchLoop (fuel : nat) (position direction : GridPosition)
    (maxDistance : R) (allCycles : list CycleState) (selfId : string)
    (d : R) (st : RayState) : RayState :=
  match fuel with
  | O => st
  | S fuel' =>
      if bool_decide (d <= maxDistance) && lt_xnum d (minHitDistance st)
      then marchLoop fuel' position direction maxDistance allCycles selfId
             (d + step) (stepBody position direction allCycles selfId d st)
      else st
  end.

(** Iterations that always suffice: the loop variable exceeds
    [maxDistance] after at most [maxDistance / step] steps
    ([marchLoop_fuel] below shows that more fuel changes nothing). *)
Definition marchFuel (maxDistance : R) : nat :=
  Z.to_nat (up (maxDistance / step)).

Definition raycast (position direction : GridPosition) (maxDistance : R)
    (allCycles : list CycleState) (selfId : string) : RayHit :=
  let st := mkRay Infinity None in
  let wallDist := raycastWall position direction in
  let st :=
    if xnum_lt wallDist (minHitDistance st) then mkRay wallDist (Some wall)
    else st in
  let st := marchLoop (marchFuel maxDistance) position direction maxDistance
              allCycles selfId step st in
  mkHit (xmin (minHitDistance st) maxDistance) (hitType st).

End CollisionSystem.

(** ** engine/AIController.ts *)

Module AIController.
Import CollisionSystem.

Inductive Turn := turn_left | turn_right | turn_none.

#[global] Instance Turn_eq_dec : EqDecision Turn.
Proof. solve_decision. Defined.

Record AIDecision := mkDecision {
  d_turn : Turn;
  d_urgency : R;
  d_jump : bool
}.

Record DirectionScore := mkScore {
  s_direction : GridDirection;
  s_turn : Turn;
  forwardDistance : R;
  escapePaths : nat;
  selfTrailDanger : R;
  totalScore : R
}.

(** What one call of [getDecision] reads from its environment: the clock
    ([performance.now()]) and the value [Math.random()] returns at each of
    its three call sites (each is reached at most once per call). *)
Record Env := mkEnv {
  now : R;
  random_emergency : R;
  random_desperate : R;
  random_strategic : R
}.

Definition countEscapePaths (cycle : CycleState) (primaryDir : GridDirection)
    (allCycles : list CycleState) : nat :=
  let vector := DIRECTION_VECTORS primaryDir in
  let futurePos :=
    mkPos (pos_x (c_gridPosition cycle) + pos_x vector * 8)
          (pos_z (c_gridPosition cycle) + pos_z vector * 8) in
  let allDirs := [north; east; south; west] in
  fold_left
    (fun openPaths dir =>
       let checkVector := DIRECTION_VECTORS dir in
       let hit := raycast futurePos checkVector 15 allCycles (c_id cycle) in
       if bool_decide (distance hit >= 8) then S openPaths else openPaths)
    allDirs 0%nat.

Definition distanceToSegment (point : GridPosition) (segment : TrailSegment)
    : R :=
  let start := seg_start segment in
  let end_ := seg_end segment in
  let dx := pos_x end_ - pos_x start in
  let dz := pos_z end_ - pos_z start in
  let lenSq := dx * dx + dz * dz in
  if bool_decide (lenSq = 0) then
    sqrt ((pos_x point - pos_x start) ^ 2 + (pos_z point - pos_z start) ^ 2)
  else
    let t :=
      Rmax 0 (Rmin 1
        (((pos_x point - pos_x start) * dx + (pos_z point - pos_z start) * dz)
         / lenSq)) in
    let closestX := pos_x start + t * dx in
    let closestZ := pos_z start + t * dz in
    sqrt ((pos_x point - closestX) ^ 2 + (pos_z point - closestZ) ^ 2).

Definition evaluateSelfTrailDanger (cycle : CycleState)
    (direction : GridDirection) (allCycles : list CycleState) : R :=
  if bool_decide (length (c_trail cycle) < 3)%nat then 0
  else
    let vector := DIRECTION_VECTORS direction in
    let danger := 0 in
    let checkDistances := [5; 10; 15; 20] in
    let danger :=
      fold_left
        (fun danger dist =>
           let checkPos :=
             mkPos (pos_x (c_gridPosition cycle) + pos_x vector * dist)
                   (pos_z (c_gridPosition cycle) + pos_z vector * dist) in
           let oldTrail := dropRecent 4 (c_trail cycle) in
           fold_left
             (fun danger segment =>
                let distToSegment := distanceToSegment checkPos segment in
                if bool_decide (distToSegment < 3)
                then danger - (10 - distToSegment * 2)
                else danger)
             oldTrail danger)
        checkDistances danger in
    let leftDir := TURN_LEFT direction in
    let rightDir := TURN_RIGHT direction in
    fold_left
      (fun danger sideDir =>
         let sideVector := DIRECTION_VECTORS sideDir in
         let sideHit :=
           raycast (c_gridPosition cycle) sideVector 10 allCycles
             (c_id cycle) in
         if bool_decide (distance sideHit < 5)
            && bool_decide (hit_type sideHit = Some trail)
         then danger - 5
         else danger)
      [leftDir; rightDir] danger.

(** One element of the array [evaluateAllDirections] maps over. *)
Definition evaluateDirection (cycle : CycleState)
    (allCycles : list CycleState) (dir : GridDirection) (turn : Turn)
    : DirectionScore :=
  let vector := DIRECTION_VECTORS dir in
  let forwardHit :=
    raycast (c_gridPosition cycle) vector (AI_CONFIG.lookAheadDistance * 2)
      allCycles (c_id cycle) in
  let escapePaths := countEscapePaths cycle dir allCycles in
  let selfTrailDanger := evaluateSelfTrailDanger cycle dir allCycles in
  let totalScore :=
    distance forwardHit * 2.0 + INR escapePaths * 8.0 + selfTrailDanger * 1.0 in
  mkScore dir turn (distance forwardHit) escapePaths selfTrailDanger
    totalScore.

Definition evaluateAllDirections (cycle : CycleState)
    (allCycles : list CycleState) : list DirectionScore :=
  let directions :=
    [ (c_direction cycle, turn_none);
      (TURN_LEFT (c_direction cycle), turn_left);
      (TURN_RIGHT (c_direction cycle), turn_right) ] in
  map (fun '(dir, turn) => evaluateDirection cycle allCycles dir turn)
    directions.

(** [scores.sort((a, b) => b.totalScore - a.totalScore)]: the stable sort
    by decreasing [totalScore] ([Array.prototype.sort] is stable), written
    as an insertion sort: an element goes before the first one that is
    strictly smaller. *)
Fixpoint insertScore (s : DirectionScore) (sorted : list DirectionScore)
    : list DirectionScore :=
  match sorted with
  | [] => [s]
  | y :: rest =>
      if bool_decide (totalScore y < totalScore s) then s :: y :: rest
      else y :: insertScore s rest
  end.

Definition sortScores (scores : list DirectionScore) : list DirectionScore :=
  fold_left (fun sorted s => insertScore s sorted) scores [].

Definition shouldJump (env : Env) (cycle : CycleState)
    (allCycles : list CycleState) (forwardDistance : R) : bool :=
  if c_isJumping cycle then false
  else if bool_decide (now env - c_lastJumpTime cycle < 2000) then false
  else
    let forwardVector := DIRECTION_VECTORS (c_direction cycle) in
    let jumpable :=
      bool_decide (forwardDistance > 3) && bool_decide (forwardDistance < 12)
      && (let hit :=
            raycast (c_gridPosition cycle) forwardVector 12 allCycles
              (c_id cycle) in
          bool_decide (hit_type hit = Some trail)
          && bool_decide (distance hit > 3)
          && bool_decide (distance hit < 10)) in
    if jumpable then true
    else if bool_decide (forwardDistance < 4)
    then bool_decide (random_emergency env < 0.4)
    else false.

Definition noDecision : AIDecision := mkDecision turn_none 0 false.

(** [getDecision], with the controller's [lastDecisionTime] map passed in
    and out.  [None] stands for the [TypeError] JavaScript would raise if
    [scores[0]] or the forward option did not exist
    ([getDecision_defined] below: it never happens). *)
Definition getDecision (env : Env) (lastDecisionTime : gmap string R)
    (cycle : CycleState) (allCycles : list CycleState) (currentTime : R)
    : option (AIDecision * gmap string R) :=
  let lastDecision := default 0 (lastDecisionTime !! c_id cycle) in
  if bool_decide (currentTime - lastDecision < AI_CONFIG.decisionInterval)
  then Some (noDecision, lastDecisionTime)
  else
    let scores := sortScores (evaluateAllDirections cycle allCycles) in
    match scores,
          List.find (fun s => bool_decide (s_turn s = turn_none)) scores with
    | bestOption :: _, Some forwardOption =>
        let commit := <[c_id cycle := currentTime]> lastDecisionTime in
        let shouldJump :=
          shouldJump env cycle allCycles (forwardDistance forwardOption) in
        if bool_decide
             (forwardDistance forwardOption < AI_CONFIG.minTurnDistance)
        then
          if shouldJump && negb (c_isJumping cycle)
          then Some (mkDecision turn_none 1 true, commit)
          else
            let turnOptions :=
              List.filter (fun s => bool_decide (s_turn s <> turn_none))
                scores in
            match turnOptions with
            | t :: _ => Some (mkDecision (s_turn t) 1 false, commit)
            | [] =>
                Some (mkDecision
                        (if bool_decide (random_desperate env < 0.5)
                         then turn_left else turn_right) 1 false, commit)
            end
        else
          let scoreDiff := totalScore bestOption - totalScore forwardOption in
          if bool_decide (s_turn bestOption <> turn_none)
             && bool_decide (scoreDiff > 8)
          then Some (mkDecision (s_turn bestOption) 0.7 false, commit)
          else
            let betterOption :=
              if bool_decide (escapePaths forwardOption < 2)%nat
                 && bool_decide (forwardDistance forwardOption < 20)
              then
                List.find
                  (fun s =>
                     bool_decide (s_turn s <> turn_none)
                     && bool_decide
                          (escapePaths s > escapePaths forwardOption)%nat)
                  scores
              else None in
            match betterOption with
            | Some b => Some (mkDecision (s_turn b) 0.6 false, commit)
            | None =>
                if bool_decide
                     (forwardDistance forwardOption
                      < AI_CONFIG.lookAheadDistance * 0.5)
                   && bool_decide (s_turn bestOption <> turn_none)
                   && bool_decide (scoreDiff > 3)
                then Some (mkDecision (s_turn bestOption) 0.5 false, commit)
                else if shouldJump && negb (c_isJumping cycle)
                        && bool_decide (random_strategic env < 0.2)
                then Some (mkDecision turn_none 0.3 true, commit)
                else Some (noDecision, lastDecisionTime)
            end
    | _, _ => None
    end.

(** [reset()] *)
Definition reset (lastDecisionTime : gmap string R) : gmap string R := ∅.

End AIController.

(** ** state/GameContext.tsx: the [KILL_CYCLE] transition *)

Module GameContext.

Definition CYCLE_COLORS : list Z :=
  [0xff3333; 0x00ffff; 0xff00ff; 0x00ff00]%Z.

(** [createInitialCycles()], given the list that
    [generateSpawnPositions()] returned (a random permutation of the four
    base spawns, each moved along its edge).  [colors[index]] past the
    fourth colour, which four spawns never reach, is read as 0. *)
Definition createInitialCycles
    (spawnPositions : list (GridPosition * GridDirection))
    : list CycleState :=
  imap
    (fun index spawn =>
       mkCycle
         (if bool_decide (index = 0%nat) then "player"
          else "ai-" +:+ pretty index)
         (fst spawn) (snd spawn) (DIRECTION_TO_ANGLE (snd spawn)) (-1) false
         (default 0%Z (CYCLE_COLORS !! index)) true [] (bool_decide (index = 0%nat))
         1.0 false false 0 0)
    spawnPositions.

Definition createInitialState
    (spawnPositions : list (GridPosition * GridDirection)) : GameState :=
  mkGame countdown (createInitialCycles spawnPositions) thirdPerson 3 None 1
    (<["player" := 0%Z]> (<["ai-1" := 0%Z]> (<["ai-2" := 0%Z]>
       (<["ai-3" := 0%Z]> ∅))))
    true.

(** [{ ...cycle, isAlive: false }] *)
Definition markDead (c : CycleState) : CycleState :=
  mkCycle (c_id c) (c_gridPosition c) (c_direction c) (c_angle c)
    (c_targetAngle c) (c_isTurning c) (c_color c) false (c_trail c)
    (c_isPlayer c) (c_speed c) (c_trailActive c) (c_isJumping c)
    (c_jumpStartTime c) (c_lastJumpTime c).

(** [if (winnerId && newScores[winnerId] !== undefined)
      newScores[winnerId]++]: a [null] or empty id is falsy, and an id
    without a tally entry is left without one. *)
Definition creditWinner (winnerId : option string) (scores : gmap string Z)
    : gmap string Z :=
  match winnerId with
  | Some w =>
      if bool_decide (w <> "")
      then match scores !! w with
           | Some n => <[w := (n + 1)%Z]> scores
           | None => scores
           end
      else scores
  | None => scores
  end.

(** [gameReducer(state, { type: 'KILL_CYCLE', cycleId })].  The source
    also computes [playerAlive] and [aiAlive], which it never reads. *)
Definition killCycle (state : GameState) (cycleId : string) : GameState :=
  let updatedCycles :=
    map (fun c => if bool_decide (c_id c = cycleId) then markDead c else c)
      (g_cycles state) in
  let aliveCycles := List.filter c_isAlive updatedCycles in
  if bool_decide (length aliveCycles <= 1)%nat then
    let winnerId :=
      if bool_decide (length aliveCycles = 1%nat)
      then c_id <$> head aliveCycles
      else None in
    let newScores := creditWinner winnerId (g_scores state) in
    mkGame gameOver updatedCycles (g_cameraMode state) (g_countdown state)
      winnerId (g_round state) newScores (g_isNPCMode state)
  else
    mkGame (g_phase state) updatedCycles (g_cameraMode state)
      (g_countdown state) (g_winner state) (g_round state) (g_scores state)
      (g_isNPCMode state).

(** The ['left' | 'right'] of a turn action. *)
Inductive TurnSide := side_left | side_right.

Inductive GameAction :=
  | START_GAME
  | PAUSE_GAME
  | RESUME_GAME
  | RESTART_GAME
  | END_GAME (winnerId : option string)
  | TURN_CYCLE (cycleId : string) (direction : TurnSide)
  | START_TURN (cycleId : string) (direction : TurnSide)
  | UPDATE_ANGLE (cycleId : string) (angle : R)
  | END_TURN (cycleId : string)
  | MOVE_CYCLE (cycleId : string)
  | KILL_CYCLE (cycleId : string)
  | ADD_TRAIL_SEGMENT (cycleId : string) (segment : TrailSegment)
  | ACTIVATE_TRAIL (cycleId : string)
  | TOGGLE_CAMERA
  | SET_CAMERA (mode : CameraMode)
  | DECREMENT_COUNTDOWN
  | SET_PHASE (phase : GamePhase)
  | UPDATE_CYCLE_POSITION (cycleId : string) (x z : R)
  | START_JUMP (cycleId : string) (time : R)
  | END_JUMP (cycleId : string)
  | TAKE_CONTROL.

(** What one run of the reducer reads from outside the state: the list
    [generateSpawnPositions()] returns and the clock
    [performance.now()]. *)
Record ReducerEnv := mkReducerEnv {
  env_spawnPositions : list (GridPosition * GridDirection);
  env_now : R
}.

(** The cycle updates of the reducer's cases, for the cycle an action
    names. *)
Definition turnedCycle (direction : TurnSide) (c : CycleState) : CycleState :=
  let newDirection :=
    match direction with
    | side_left => TURN_LEFT (c_direction c)
    | side_right => TURN_RIGHT (c_direction c)
    end in
  mkCycle (c_id c) (c_gridPosition c) newDirection
    (DIRECTION_TO_ANGLE newDirection) (c_targetAngle c) (c_isTurning c)
    (c_color c) (c_isAlive c) (c_trail c) (c_isPlayer c) (c_speed c) true
    (c_isJumping c) (c_jumpStartTime c) (c_lastJumpTime c).

Definition turningCycle (direction : TurnSide) (c : CycleState)
    : CycleState :=
  let turnAmount :=
    match direction with
    | side_left => - PI / 2
    | side_right => PI / 2
    end in
  let targetAngle := normalizeAngle (c_angle c + turnAmount) in
  mkCycle (c_id c) (c_gridPosition c) (c_direction c) (c_angle c)
    targetAngle true (c_color c) (c_isAlive c) (c_trail c) (c_isPlayer c)
    (c_speed c) true (c_isJumping c) (c_jumpStartTime c) (c_lastJumpTime c).

Definition angledCycle (angle : R) (c : CycleState) : CycleState :=
  mkCycle (c_id c) (c_gridPosition c) (c_direction c) angle
    (c_targetAngle c) (c_isTurning c) (c_color c) (c_isAlive c) (c_trail c)
    (c_isPlayer c) (c_speed c) (c_trailActive c) (c_isJumping c)
    (c_jumpStartTime c) (c_lastJumpTime c).

Definition turnedOutCycle (c : CycleState) : CycleState :=
  let newDirection :=
    if bool_decide (c_targetAngle c = 0) then north
    else if bool_decide (c_targetAngle c = PI / 2) then east
    else if bool_decide (c_targetAngle c = PI)
            || bool_decide (c_targetAngle c = - PI) then south
    else west in
  mkCycle (c_id c) (c_gridPosition c) newDirection
    (if bool_decide (c_targetAngle c <> -1) then c_targetAngle c
     else c_angle c)
    (-1) false (c_color c) (c_isAlive c) (c_trail c) (c_isPlayer c)
    (c_speed c) (c_trailActive c) (c_isJumping c) (c_jumpStartTime c)
    (c_lastJumpTime c).

Definition trailingCycle (c : CycleState) : CycleState :=
  mkCycle (c_id c) (c_gridPosition c) (c_direction c) (c_angle c)
    (c_targetAngle c) (c_isTurning c) (c_color c) (c_isAlive c) (c_trail c)
    (c_isPlayer c) (c_speed c) true (c_isJumping c) (c_jumpStartTime c)
    (c_lastJumpTime c).

Definition movedCycle (x z : R) (c : CycleState) : CycleState :=
  mkCycle (c_id c) (mkPos x z) (c_direction c) (c_angle c)
    (c_targetAngle c) (c_isTurning c) (c_color c) (c_isAlive c) (c_trail c)
    (c_isPlayer c) (c_speed c) (c_trailActive c) (c_isJumping c)
    (c_jumpStartTime c) (c_lastJumpTime c).

Definition jumpingCycle (time : R) (c : CycleState) : CycleState :=
  mkCycle (c_id c) (c_gridPosition c) (c_direction c) (c_angle c)
    (c_targetAngle c) (c_isTurning c) (c_color c) (c_isAlive c) (c_trail c)
    (c_isPlayer c) (c_speed c) (c_trailActive c) true time
    (c_lastJumpTime c).

Definition landedCycle (now : R) (c : CycleState) : CycleState :=
  mkCycle (c_id c) (c_gridPosition c) (c_direction c) (c_angle c)
    (c_targetAngle c) (c_isTurning c) (c_color c) (c_isAlive c) (c_trail c)
    (c_isPlayer c) (c_speed c) (c_trailActive c) false
    (c_jumpStartTime c) now.

Definition extendedCycle (segment : TrailSegment) (c : CycleState)
    : CycleState :=
  mkCycle (c_id c) (c_gridPosition c) (c_direction c) (c_angle c)
    (c_targetAngle c) (c_isTurning c) (c_color c) (c_isAlive c)
    (c_trail c ++ [segment]) (c_isPlayer c) (c_speed c) (c_trailActive c)
    (c_isJumping c) (c_jumpStartTime c) (c_lastJumpTime c).

(** [{ ...state, cycles }] *)
Definition withCycles (state : GameState) (cycles : list CycleState)
    : GameState :=
  mkGame (g_phase state) cycles (g_cameraMode state) (g_countdown state)
    (g_winner state) (g_round state) (g_scores state) (g_isNPCMode state).

(** [{ ...state, phase }] *)
Definition withPhase (state : GameState) (phase : GamePhase) : GameState :=
  mkGame phase (g_cycles state) (g_cameraMode state) (g_countdown state)
    (g_winner state) (g_round state) (g_scores state) (g_isNPCMode state).

(** [{ ...state, cameraMode }] *)
Definition withCamera (state : GameState) (mode : CameraMode) : GameState :=
  mkGame (g_phase state) (g_cycles state) mode (g_countdown state)
    (g_winner state) (g_round state) (g_scores state) (g_isNPCMode state).

(** [state.cycles.map(cycle => skip(cycle) ? cycle : update(cycle))] *)
Definition mapCycles (state : GameState) (skip : CycleState -> bool)
    (update : CycleState -> CycleState) : GameState :=
  withCycles state
    (map (fun c => if skip c then c else update c) (g_cycles state)).

(** The camera modes in the order [TOGGLE_CAMERA] steps through. *)
Definition cameraModes : list CameraMode :=
  [thirdPerson; firstPerson; topDown].

(** [modes.indexOf(mode)] *)
Definition indexOfMode (mode : CameraMode) : Z :=
  match list_find (fun m => m = mode) cameraModes with
  | Some (i, _) => Z.of_nat i
  | None => (-1)%Z
  end.

(** [gameReducer] *)
Definition gameReducer (env : ReducerEnv) (state : GameState)
    (action : GameAction) : GameState :=
  match action with
  | START_GAME =>
      mkGame countdown (createInitialCycles (env_spawnPositions env))
        (g_cameraMode state) 3 None (g_round state) (g_scores state)
        (g_isNPCMode state)
  | PAUSE_GAME =>
      if bool_decide (g_phase state = playing) then withPhase state paused
      else state
  | RESUME_GAME =>
      if bool_decide (g_phase state = paused) then withPhase state playing
      else state
  | RESTART_GAME =>
      let initial := createInitialState (env_spawnPositions env) in
      mkGame (g_phase initial) (g_cycles initial) (g_cameraMode initial)
        (g_countdown initial) (g_winner initial) (g_round state)
        (g_scores state) (g_isNPCMode initial)
  | END_GAME winnerId =>
      mkGame gameOver (g_cycles state) (g_cameraMode state)
        (g_countdown state) winnerId (g_round state)
        (creditWinner winnerId (g_scores state)) (g_isNPCMode state)
  | TURN_CYCLE cycleId direction =>
      mapCycles state
        (fun c => bool_decide (c_id c <> cycleId) || negb (c_isAlive c))
        (turnedCycle direction)
  | START_TURN cycleId direction =>
      mapCycles state
        (fun c =>
           bool_decide (c_id c <> cycleId) || negb (c_isAlive c)
           || c_isTurning c)
        (turningCycle direction)
  | UPDATE_ANGLE cycleId angle =>
      mapCycles state (fun c => bool_decide (c_id c <> cycleId))
        (angledCycle angle)
  | END_TURN cycleId =>
      mapCycles state (fun c => bool_decide (c_id c <> cycleId))
        turnedOutCycle
  | ACTIVATE_TRAIL cycleId =>
      mapCycles state (fun c => bool_decide (c_id c <> cycleId))
        trailingCycle
  | MOVE_CYCLE cycleId =>
      mapCycles state
        (fun c => bool_decide (c_id c <> cycleId) || negb (c_isAlive c))
        (fun c => c)
  | UPDATE_CYCLE_POSITION cycleId x z =>
      mapCycles state (fun c => bool_decide (c_id c <> cycleId))
        (movedCycle x z)
  | START_JUMP cycleId time =>
      mapCycles state
        (fun c => bool_decide (c_id c <> cycleId) || negb (c_isAlive c))
        (jumpingCycle time)
  | END_JUMP cycleId =>
      mapCycles state (fun c => bool_decide (c_id c <> cycleId))
        (landedCycle (env_now env))
  | KILL_CYCLE cycleId => killCycle state cycleId
  | ADD_TRAIL_SEGMENT cycleId segment =>
      mapCycles state (fun c => bool_decide (c_id c <> cycleId))
        (extendedCycle segment)
  | TOGGLE_CAMERA =>
      let currentIndex := indexOfMode (g_cameraMode state) in
      let nextIndex := Z.rem (currentIndex + 1) (Z.of_nat (length cameraModes)) in
      match cameraModes !! Z.to_nat nextIndex with
      | Some mode => withCamera state mode
      | None => state
      end
  | SET_CAMERA mode => withCamera state mode
  | DECREMENT_COUNTDOWN =>
      let newCountdown := (g_countdown state - 1)%Z in
      if bool_decide (newCountdown < 0)%Z then
        mkGame playing (g_cycles state) (g_cameraMode state) 0
          (g_winner state) (g_round state) (g_scores state)
          (g_isNPCMode state)
      else
        mkGame (g_phase state) (g_cycles state) (g_cameraMode state)
          newCountdown (g_winner state) (g_round state) (g_scores state)
          (g_isNPCMode state)
  | SET_PHASE phase => withPhase state phase
  | TAKE_CONTROL =>
      mkGame (g_phase state) (g_cycles state) (g_cameraMode state)
        (g_countdown state) (g_winner state) (g_round state)
        (g_scores state) false
  end.

(** The states the provider can hold: [createInitialState()] and
    whatever the reducer makes of them, whenever
    [generateSpawnPositions()] returns four spawns. *)
Inductive reachable : GameState -> Prop :=
  | reachable_initial (s1 s2 s3 s4 : GridPosition * GridDirection) :
      reachable (createInitialState [s1; s2; s3; s4])
  | reachable_step (state : GameState) (action : GameAction)
        (s1 s2 s3 s4 : GridPosition * GridDirection) (now : R) :
      reachable state ->
      reachable
        (gameReducer (mkReducerEnv [s1; s2; s3; s4] now) state action).

End GameContext.

(** ** scene/LightcycleModel.ts: the jump arc *)

Module LightcycleModel.

Definition calculateJumpY (jumpStartTime currentTime : R) : R :=
  let elapsed := currentTime - jumpStartTime in
  if bool_decide (elapsed >= JUMP_DURATION) then 0
  else
    let t := elapsed / JUMP_DURATION in
    let arc := 4 * t * (1 - t) in
    arc * JUMP_HEIGHT.

End LightcycleModel.

(** ** engine/GameLoop.ts: the arithmetic of the frame loop *)

Module GameLoop.

Definition getTrailAttachPoint (position : GridPosition) (angle : R)
    : GridPosition :=
  let offset := 1.0 in
  mkPos (pos_x position - sin angle * offset)
        (pos_z position + cos angle * offset).

(** The two timers [loop] advances in phase [playing]. *)
Record Timers := mkTimers {
  accumulator : R;
  physicsTime : R
}.

(** [while (this.accumulator >= PHYSICS_TIMESTEP) { physicsUpdate(...);
    this.physicsTime += PHYSICS_TIMESTEP;
    this.accumulator -= PHYSICS_TIMESTEP }], with a bound on the number
    of iterations; the calls of [physicsUpdate] are counted.  The
    accumulator is spent over exact reals; the source subtracts in
    binary64 ([Binary64.tickLoop]). *)
Fixpoint tickLoop (fuel : nat) (timers : Timers) (ticks : nat)
    : Timers * nat :=
  match fuel with
  | O => (timers, ticks)
  | S fuel' =>
      if bool_decide (accumulator timers >= PHYSICS_TIMESTEP) then
        tickLoop fuel'
          (mkTimers (accumulator timers - PHYSICS_TIMESTEP)
             (physicsTime timers + PHYSICS_TIMESTEP))
          (S ticks)
      else (timers, ticks)
  end.

(** One animation frame in phase [playing]: the clamped [deltaTime] is
    added to the accumulator, which is then spent in fixed steps.  The
    result is the timers after the frame and the number of physics
    updates the frame ran. *)
Definition playingFrame (timers : Timers) (deltaTime : R) : Timers * nat :=
  let deltaTime :=
    if bool_decide (deltaTime > MAX_DELTA) then MAX_DELTA else deltaTime in
  let timers :=
    mkTimers (accumulator timers + deltaTime) (physicsTime timers) in
  tickLoop (Z.to_nat (up (accumulator timers / PHYSICS_TIMESTEP))) timers
    0%nat.

(** [const isInAir = cycle.isJumping && calculateJumpY(...) > 0.5] of
    [physicsUpdate]: while it holds the collision check is skipped. *)
Definition isInAir (cycle : CycleState) (currentTime : R) : bool :=
  c_isJumping cycle
  && bool_decide
       (LightcycleModel.calculateJumpY (c_jumpStartTime cycle) currentTime
        > 0.5).

End GameLoop.

(** ** engine/InputManager.ts *)

Module InputManager.

(** The manager's [enabled] flag and [pressedKeys] set.  The subscribers
    are not modelled: [emit] hands the action to each of them, and a
    key-down reports the action it emits. *)
Record InputState := mkInput {
  enabled : bool;
  pressedKeys : gset string
}.

Definition initialInput : InputState := mkInput false ∅.

(** [KEY_MAPPINGS.find((m) => m.key === code)] *)
Definition findMapping (code : string) : option (string * InputAction) :=
  List.find (fun m => bool_decide (fst m = code)) KEY_MAPPINGS.

Definition handleKeyDown (st : InputState) (code : string)
    : InputState * option InputAction :=
  if negb (enabled st) then (st, None)
  else
    match findMapping code with
    | Some mapping =>
        if bool_decide (code ∈ pressedKeys st) then (st, None)
        else (mkInput (enabled st) ({[code]} ∪ pressedKeys st),
              Some (snd mapping))
    | None => (st, None)
    end.

Definition handleKeyUp (st : InputState) (code : string) : InputState :=
  mkInput (enabled st) (pressedKeys st ∖ {[code]}).

Definition handleBlur (st : InputState) : InputState :=
  mkInput (enabled st) ∅.

Definition enable (st : InputState) : InputState :=
  if enabled st then st else mkInput true (pressedKeys st).

Definition disable (st : InputState) : InputState :=
  if negb (enabled st) then st else mkInput false ∅.

Definition isPressed (st : InputState) (key : string) : bool :=
  bool_decide (key ∈ pressedKeys st).

(** What can happen to the manager: the three window events, which reach
    their handlers only while the listeners are registered (between
    [enable] and [disable]), and the two calls. *)
Inductive InputEvent :=
  | keydown (code : string)
  | keyup (code : string)
  | blur
  | call_enable
  | call_disable.

Definition inputStep (st : InputState) (ev : InputEvent)
    : InputState * option InputAction :=
  match ev with
  | keydown code => if enabled st then handleKeyDown st code else (st, None)
  | keyup code => (if enabled st then handleKeyUp st code else st, None)
  | blur => (if enabled st then handleBlur st else st, None)
  | call_enable => (enable st, None)
  | call_disable => (disable st, None)
  end.

(** The state after a sequence of events. *)
Definition inputRun (st : InputState) (evs : list InputEvent) : InputState :=
  fold_left (fun st ev => fst (inputStep st ev)) evs st.

End InputManager.

(** ** The same arithmetic in binary64

    The numbers of the source are IEEE 754 doubles.  The definitions
    above read them as exact reals, which is what the source computes up
    to rounding; where a comparison sits on a boundary, rounding can
    decide it the other way.  The functions below are transcribed once
    more over the kernel's binary64 floats, so that such boundary cases
    can be evaluated as the source evaluates them.  A decimal literal
    stands for the nearest double, as in the source. *)

Module Binary64.
Import PrimFloat.

Record GridPosition := mkPos {
  pos_x : float;
  pos_z : float
}.

Record TrailSegment := mkSeg {
  seg_start : GridPosition;
  seg_end : GridPosition
}.

Definition fmin (a b : float) : float := if (a <? b)%float then a else b.
Definition fmax (a b : float) : float := if (a <? b)%float then b else a.

#[warnings="-inexact-float"]
Definition CYCLE_RADIUS : float := 0.4%float.
#[warnings="-inexact-float"]
Definition TRAIL_WIDTH : float := 0.15%float.
Definition PHYSICS_TIMESTEP : float := (1000 / 60)%float.
Definition MAX_DELTA : float := 250%float.

(** [checkCycleCollision] *)
Definition checkCycleCollision (a b : GridPosition) : bool :=
  let dx := (pos_x a - pos_x b)%float in
  let dz := (pos_z a - pos_z b)%float in
  let distanceSquared := (dx * dx + dz * dz)%float in
  let minDistance := (CYCLE_RADIUS * 2)%float in
  (distanceSquared <? minDistance * minDistance)%float.

(** [pointIntersectsSegment] *)
Definition pointIntersectsSegment (point : GridPosition)
    (segment : TrailSegment) : bool :=
  let start := seg_start segment in
  let end_ := seg_end segment in
  let halfWidth := (TRAIL_WIDTH / 2 + CYCLE_RADIUS)%float in
  let minX := (fmin (pos_x start) (pos_x end_) - halfWidth)%float in
  let maxX := (fmax (pos_x start) (pos_x end_) + halfWidth)%float in
  let minZ := (fmin (pos_z start) (pos_z end_) - halfWidth)%float in
  let maxZ := (fmax (pos_z start) (pos_z end_) + halfWidth)%float in
  (minX <=? pos_x point)%float && (pos_x point <=? maxX)%float
  && (minZ <=? pos_z point)%float && (pos_z point <=? maxZ)%float.

(** The values the loop variable [d] of [getLinePositions] takes:
    [for (let d = step; d <= length; d += step)]. *)
Fixpoint lineDistances (fuel : nat) (length step d : float) : list float :=
  match fuel with
  | O => []
  | S fuel' =>
      if (d <=? length)%float
      then d :: lineDistances fuel' length step (d + step)%float
      else []
  end.

(** The loop of [loop] in phase [playing], on the accumulator. *)
Fixpoint tickLoop (fuel : nat) (accumulator : float) (ticks : nat)
    : float * nat :=
  match fuel with
  | O => (accumulator, ticks)
  | S fuel' =>
      if (PHYSICS_TIMESTEP <=? accumulator)%float
      then tickLoop fuel' (accumulator - PHYSICS_TIMESTEP)%float (S ticks)
      else (accumulator, ticks)
  end.

(** One frame in phase [playing]: the accumulator it leaves and the
    number of physics updates it runs. *)
Definition playingFrame (fuel : nat) (accumulator deltaTime : float)
    : float * nat :=
  let deltaTime :=
    if (MAX_DELTA <? deltaTime)%float then MAX_DELTA else deltaTime in
  tickLoop fuel (accumulator + deltaTime)%float 0.

(** Positions and numbers the boundary cases below are evaluated at. *)
Definition origin : GridPosition := mkPos 0 0.
#[warnings="-inexact-float"]
Definition onAxis : GridPosition := mkPos 0.8 0.
#[warnings="-inexact-float"]
Definition offAxis : GridPosition := mkPos 0.48 0.64.
Definition apart : GridPosition := mkPos 1 0.
#[warnings="-inexact-float"]
Definition shortSegment : TrailSegment := mkSeg (mkPos 0 1) (mkPos 4.3 1).
#[warnings="-inexact-float"]
Definition besideEnd : GridPosition := mkPos 4.775 1.
#[warnings="-inexact-float"]
Definition tenth : float := 0.1%float.
#[warnings="-inexact-float"]
Definition threeTenths : float := 0.3%float.

(** A frame of 50 ms from an empty accumulator, and the frame of 250 ms
    after it. *)
Definition frameOf50 : float * nat := playingFrame 100 0 50.
Definition frameOf250 : float * nat := playingFrame 100 (fst frameOf50) 250.

End Binary64.

(** ** Vocabulary of the properties *)

Module RaySpec.
Import CollisionSystem.

(** [m <= b], for a distance [m] that may be [Infinity]. *)
Definition bounded (m : xnum) (b : R) : Prop :=
  match m with
  | Fin r => r <= b
  | Infinity => False
  end.

(** The sample point at [testPos] touches something of cycle [c] that a
    ray cast by [selfId] tests: a segment of its tested trail, or its
    body when it is another cycle. *)
Definition cycleHits (testPos : GridPosition) (selfId : string)
    (c : CycleState) : bool :=
  c_isAlive c
  && (existsb (pointIntersectsSegment testPos) (rayTrail selfId c)
      || (bool_decide (c_id c <> selfId)
          && bool_decide
               ((pos_x testPos - pos_x (c_gridPosition c))
                * (pos_x testPos - pos_x (c_gridPosition c))
                + (pos_z testPos - pos_z (c_gridPosition c))
                  * (pos_z testPos - pos_z (c_gridPosition c))
                < CYCLE_RADIUS * CYCLE_RADIUS * 4))).

(** Something lies on the ray at distance [d]. *)
Definition sampleHits (position direction : GridPosition)
    (allCycles : list CycleState) (selfId : string) (d : R) : bool :=
  existsb
    (cycleHits (mkPos (pos_x position + pos_x direction * d)
                      (pos_z position + pos_z direction * d)) selfId)
    allCycles.

(** The distance from [origin] to the inset wall that a cardinal
    direction faces. *)
Definition analyticWallDistance (origin : GridPosition)
    (dir : GridDirection) : R :=
  match dir with
  | north => pos_z origin + (ARENA_HALF - CYCLE_RADIUS)
  | south => (ARENA_HALF - CYCLE_RADIUS) - pos_z origin
  | east => (ARENA_HALF - CYCLE_RADIUS) - pos_x origin
  | west => pos_x origin + (ARENA_HALF - CYCLE_RADIUS)
  end.

(** The point of the ray at distance [d]. *)
Definition rayPoint (position direction : GridPosition) (d : R)
    : GridPosition :=
  mkPos (pos_x position + pos_x direction * d)
        (pos_z position + pos_z direction * d).

(** [seg] is a segment of [trail] other than its [n] most recent ones. *)
Definition olderThan (n : nat) (trail : list TrailSegment)
    (seg : TrailSegment) : Prop :=
  exists older recent : list TrailSegment,
    trail = older ++ recent /\ length recent = n /\ In seg older.

(** The segments a ray cast by [selfId] is to test, in the words of the
    specification: of another living agent every segment, of the caster
    itself every segment but the three most recent. *)
Definition tested (selfId : string) (c : CycleState) (seg : TrailSegment)
    : Prop :=
  c_isAlive c = true /\
  (c_id c <> selfId /\ In seg (c_trail c)
   \/ c_id c = selfId /\ olderThan 3 (c_trail c) seg).

(** The body test of [raycast] at a sample point:
    [dx * dx + dz * dz < CYCLE_RADIUS * CYCLE_RADIUS * 4]. *)
Definition touchesBody (testPos : GridPosition) (c : CycleState) : bool :=
  bool_decide
    ((pos_x testPos - pos_x (c_gridPosition c))
     * (pos_x testPos - pos_x (c_gridPosition c))
     + (pos_z testPos - pos_z (c_gridPosition c))
       * (pos_z testPos - pos_z (c_gridPosition c))
     < CYCLE_RADIUS * CYCLE_RADIUS * 4).

(** Nothing that a ray cast by [selfId] is to test lies at [testPos]:
    no tested segment of a living agent, no body of another living
    agent. *)
Definition clearAt (testPos : GridPosition) (cycles : list CycleState)
    (selfId : string) : Prop :=
  forall c : CycleState, In c cycles -> c_isAlive c = true ->
    (forall seg : TrailSegment,
       tested selfId c seg -> pointIntersectsSegment testPos seg = false) /\
    (c_id c <> selfId -> touchesBody testPos c = false).


(** When the loop state says [trail], its distance is a sample distance
    within [maxD] at which the sample point lies on a tested segment of a
    living cycle. *)
Definition trailBacked (p dir : GridPosition) (maxD : R)
    (cycles : list CycleState) (selfId : string) (st : RayState) : Prop :=
  hitType st = Some trail ->
  exists d : R,
    minHitDistance st = Fin d /\ d <= maxD /\
    exists (c : CycleState) (seg : TrailSegment),
      In c cycles /\ c_isAlive c = true /\ In seg (rayTrail selfId c) /\
      pointIntersectsSegment
        (mkPos (pos_x p + pos_x dir * d) (pos_z p + pos_z dir * d)) seg
      = true.

End RaySpec.

Module PolicySpec.
Import CollisionSystem AIController.

(** [sum l]: the sum of a list of numbers. *)
Definition sum (l : list R) : R := fold_right Rplus 0 l.

(** The point [dist] units from the cycle along [dir]. *)
Definition ahead (cycle : CycleState) (dir : GridDirection) (dist : R)
    : GridPosition :=
  mkPos (pos_x (c_gridPosition cycle) + pos_x (DIRECTION_VECTORS dir) * dist)
        (pos_z (c_gridPosition cycle) + pos_z (DIRECTION_VECTORS dir) * dist).

(** The number of escape paths, in the words of the specification: among
    the rays cast in the four cardinal directions from the point 8 units
    along [dir], those that report at least 8 units. *)
Definition openPathCount (cycle : CycleState) (dir : GridDirection)
    (allCycles : list CycleState) : nat :=
  length
    (List.filter
       (fun d =>
          bool_decide
            (distance (raycast (ahead cycle dir 8) (DIRECTION_VECTORS d) 15
                         allCycles (c_id cycle)) >= 8))
       [north; east; south; west]).

(** The 10-unit ray cast to the side [sideDir] reports, within 5 units, a
    trail hit at a sample point that lies on a tested segment of the
    agent's own trail. *)
Definition hitsOwnTrail (cycle : CycleState) (sideDir : GridDirection)
    (allCycles : list CycleState) : bool :=
  let sideHit :=
    raycast (c_gridPosition cycle) (DIRECTION_VECTORS sideDir) 10 allCycles
      (c_id cycle) in
  bool_decide (distance sideHit < 5)
  && bool_decide (hit_type sideHit = Some trail)
  && existsb (pointIntersectsSegment (ahead cycle sideDir (distance sideHit)))
       (rayTrail (c_id cycle) cycle).

(** The self-trail danger, in the words of the specification: the
    proximity penalties over the sample points and the older own
    segments, plus a flat penalty for each side on which the agent's own
    trail is close. *)
Definition claimedSelfTrailDanger (cycle : CycleState)
    (direction : GridDirection) (allCycles : list CycleState) : R :=
  sum (map
         (fun dist =>
            sum (map
                   (fun segment =>
                      let d :=
                        distanceToSegment (ahead cycle direction dist)
                          segment in
                      if bool_decide (d < 3) then - (10 - 2 * d) else 0)
                   (dropRecent 4 (c_trail cycle))))
         [5; 10; 15; 20])
  + sum (map
           (fun sideDir =>
              if hitsOwnTrail cycle sideDir allCycles then -5 else 0)
           [TURN_LEFT direction; TURN_RIGHT direction]).

(** One later use of the controller: a call of [getDecision]. *)
Record Call := mkCall {
  call_env : Env;
  call_cycle : CycleState;
  call_allCycles : list CycleState;
  call_time : R
}.

(** The controller's map after a call. *)
Definition afterCall (lastDecisionTime : gmap string R) (call : Call)
    : gmap string R :=
  match getDecision (call_env call) lastDecisionTime (call_cycle call)
          (call_allCycles call) (call_time call) with
  | Some (_, times) => times
  | None => lastDecisionTime
  end.

(** The controller's map after a sequence of calls, none of them
    [reset]. *)
Definition afterCalls (lastDecisionTime : gmap string R) (calls : list Call)
    : gmap string R :=
  fold_left afterCall calls lastDecisionTime.

End PolicySpec.

(** The lane a generated spawn lies in: 15 units inside the wall behind
    it, at most 20 units off the centre line, facing the centre. *)
Definition inLane (spawn : GridPosition * GridDirection) : Prop :=
  match snd spawn with
  | north => pos_z (fst spawn) = 49 /\ -20 <= pos_x (fst spawn) <= 20
  | south => pos_z (fst spawn) = -49 /\ -20 <= pos_x (fst spawn) <= 20
  | east => pos_x (fst spawn) = -49 /\ -20 <= pos_z (fst spawn) <= 20
  | west => pos_x (fst spawn) = 49 /\ -20 <= pos_z (fst spawn) <= 20
  end.

(** Heading and angle agree: the angle is the one [DIRECTION_TO_ANGLE]
    gives for the direction, or it is [-PI] for a cycle heading south (a
    left turn from the west ends on [-PI]). *)
Definition aligned (c : CycleState) : Prop :=
  c_angle c = DIRECTION_TO_ANGLE (c_direction c) \/
  (c_direction c = south /\ c_angle c = - PI).

(** The state after dispatching a list of actions, in order. *)
Definition dispatchAll (env : GameContext.ReducerEnv) (state : GameState)
    (actions : list GameContext.GameAction) : GameState :=
  fold_left (GameContext.gameReducer env) actions state.

(** What every mid-round action keeps of a cycle: its identity, every
    trail segment it has, and its death. *)
Definition keeps (c c' : CycleState) : Prop :=
  c_id c' = c_id c /\ c_isPlayer c' = c_isPlayer c /\
  c_color c' = c_color c /\
  (c_isAlive c = false -> c_isAlive c' = false) /\
  (c_trail c' = c_trail c \/ exists seg, c_trail c' = c_trail c ++ [seg]).

(** The ids [createInitialCycles] hands out, which are the keys of the
    initial score tally. *)
Definition rosterNames : list string := ["player"; "ai-1"; "ai-2"; "ai-3"].

(** Every roster name has a tally and every cycle bears a roster name. *)
Definition scored (state : GameState) : Prop :=
  (forall k, In k rosterNames -> is_Some (g_scores state !! k)) /\
  (forall c, In c (g_cycles state) -> In (c_id c) rosterNames).

(** The direction a quarter turn to [side] leads to. *)
Definition turnOf (side : GameContext.TurnSide) (d : GridDirection)
    : GridDirection :=
  match side with
  | GameContext.side_left => TURN_LEFT d
  | GameContext.side_right => TURN_RIGHT d
  end.

(** How far a turn has got: the cycle named by the action, if it was
    alive and not turning, has its target angle set; the others are
    untouched. *)
Definition midTurn (id : string) (side : GameContext.TurnSide) (c ck : CycleState)
    : Prop :=
  c_id ck = c_id c /\
  (c_id c <> id -> ck = c) /\
  (c_id c = id -> c_isAlive c = true -> c_isTurning c = false ->
   c_targetAngle ck
   = normalizeAngle
       (c_angle c
        + match side with
          | GameContext.side_left => - PI / 2
          | GameContext.side_right => PI / 2
          end)).

(** The point of a trail segment at fraction [lam] of the way from its
    start to its end. *)
Definition pointOn (segment : TrailSegment) (lam : R) : GridPosition :=
  mkPos
    (pos_x (seg_start segment)
     + lam * (pos_x (seg_end segment) - pos_x (seg_start segment)))
    (pos_z (seg_start segment)
     + lam * (pos_z (seg_end segment) - pos_z (seg_start segment))).

(** A position of moderate size: coordinates of at most 1000 in absolute
    value (the arena spans -64 to 64). *)
Definition moderate (p : GridPosition) : Prop :=
  Rabs (pos_x p) <= 1000 /\ Rabs (pos_z p) <= 1000.

(** Every cycle of the round has a non-empty id and a score tally. *)
Definition tallied (state : GameState) : Prop :=
  forall c : CycleState,
    In c (g_cycles state) ->
    c_id c <> "" /\ is_Some (g_scores state !! c_id c).

(** ** Rounds and agents used in the examples *)

Module Samples.
Import AIController.

(** A dead agent, [ai-1], with one committed trail segment from (-5, 5)
    to (5, 5). *)
Definition deadAgent : CycleState :=
  mkCycle "ai-1" (mkPos 10 5) north 0 (-1) false 0 false
    [mkSeg (mkPos (-5) 5) (mkPos 5 5) east] false 1 true false 0 0.

(** A cycle alone in the arena, at the origin, heading north. *)
Definition lonePlayer : CycleState :=
  mkCycle "player" (mkPos 0 0) north 0 (-1) false 0 true [] true 1 true
    false 0 0.

(** A round in which only [player] and [ai-1] are still alive. *)
Definition duel : GameState :=
  mkGame playing
    [ mkCycle "player" (mkPos 0 0) north 0 (-1) false 0 true [] true 1 true
        false 0 0;
      mkCycle "ai-1" (mkPos 9 9) south PI (-1) false 0 true [] false 1 true
        false 0 0;
      mkCycle "ai-2" (mkPos 5 5) east 0 (-1) false 0 false [] false 1 true
        false 0 0 ]
    thirdPerson 0 None 1
    (<["player" := 0%Z]> (<["ai-1" := 2%Z]> (<["ai-2" := 0%Z]> ∅)))
    false.

(** An agent alone in the arena, 1.6 units from the north wall and
    heading towards it. *)
Definition scout : CycleState :=
  mkCycle "ai-1" (mkPos 0 (-62)) north 0 (-1) false 0 true [] false 1 true
    false 0 0.

(** A clock at 0 and random draws of 0.9. *)
Definition calmEnv : Env := mkEnv 0 0.9 0.9 0.9.

(** A clock at 5000 and an emergency draw of 0.1. *)
Definition alertEnv : Env := mkEnv 5000 0.1 0.9 0.9.

(** An agent 0.3 units from the east wall, heading north, whose own
    three committed segments are far away to the south-west. *)
Definition boxedAgent : CycleState :=
  mkCycle "ai-1" (mkPos 63.3 0) north 0 (-1) false 0 true
    [ mkSeg (mkPos 0 50) (mkPos 10 50) east;
      mkSeg (mkPos 10 50) (mkPos 10 40) north;
      mkSeg (mkPos 10 40) (mkPos 20 40) east ]
    false 1 true false 0 0.

(** Another living agent, whose single committed segment runs north to
    south half a unit to the west of [boxedAgent]. *)
Definition neighbour : CycleState :=
  mkCycle "ai-2" (mkPos 40 40) south PI (-1) false 0 true
    [ mkSeg (mkPos 62.8 (-5)) (mkPos 62.8 5) south ]
    false 1 true false 0 0.

(** A segment that crosses the x axis 5 units east of the origin, and
    three segments far from it. *)
Definition crossing : TrailSegment := mkSeg (mkPos 5 (-5)) (mkPos 5 5) south.
Definition farSegments : list TrailSegment :=
  [ mkSeg (mkPos 40 40) (mkPos 50 40) east;
    mkSeg (mkPos 50 40) (mkPos 50 50) south;
    mkSeg (mkPos 50 50) (mkPos 60 50) east ].

(** An agent at the origin whose oldest segment crosses its way east and
    whose three most recent segments are far away. *)
Definition veteran : CycleState :=
  mkCycle "ai-1" (mkPos 0 0) east (PI / 2) (-1) false 0 true
    (crossing :: farSegments) false 1 true false 0 0.

(** An agent at the origin with three segments only, the latest of
    which crosses its way east. *)
Definition novice : CycleState :=
  mkCycle "ai-1" (mkPos 0 0) east (PI / 2) (-1) false 0 true
    [ mkSeg (mkPos 40 40) (mkPos 50 40) east;
      mkSeg (mkPos 50 40) (mkPos 50 50) south;
      crossing ]
    false 1 true false 0 0.

End Samples.

(** * Properties *)

(** ** Motion math *)

Section GridSystemFacts.
Import GridSystem.

Lemma sin_neg_PI2 : sin (- PI / 2) = -1.
Proof.
  replace (- PI / 2) with (- (PI / 2)) by lra.
  rewrite sin_neg, sin_PI2. reflexivity.
Qed.

Lemma cos_neg_PI2 : cos (- PI / 2) = 0.
Proof.
  replace (- PI / 2) with (- (PI / 2)) by lra.
  rewrite cos_neg, cos_PI2. reflexivity.
Qed.

(** C10: on each of the four cardinal headings, [moveForward] along the
    direction vector and [moveForwardAngle] along the angle that
    [DIRECTION_TO_ANGLE] gives for it reach the same position, for every
    start position and distance, over the reals. *)
Theorem moveForward_eq_moveForwardAngle :
  forall (p : GridPosition) (d : GridDirection) (t : R),
    moveForward p d t = moveForwardAngle p (DIRECTION_TO_ANGLE d) t.
Proof.
  intros p d t. unfold moveForward, moveForwardAngle.
  destruct d; simpl;
    rewrite ?sin_0, ?cos_0, ?sin_PI2, ?cos_PI2, ?sin_PI, ?cos_PI,
            ?sin_neg_PI2, ?cos_neg_PI2;
    f_equal; lra.
Qed.

End GridSystemFacts.

(** ** Wall and body collisions *)

Section PointCollisions.
Import CollisionSystem.

Lemma ARENA_HALF_value : ARENA_HALF = 64.
Proof. unfold ARENA_HALF, ARENA_SIZE. lra. Qed.

(** The inset boundary: [ARENA_HALF - CYCLE_RADIUS], which is 63.6. *)
Lemma inset_limit : ARENA_HALF - CYCLE_RADIUS = 63.6.
Proof. unfold ARENA_HALF, ARENA_SIZE, CYCLE_RADIUS. lra. Qed.

Lemma checkWallCollision_true (p : GridPosition) :
  checkWallCollision p = true <->
  pos_x p < - (ARENA_HALF - CYCLE_RADIUS) \/
  pos_x p > ARENA_HALF - CYCLE_RADIUS \/
  pos_z p < - (ARENA_HALF - CYCLE_RADIUS) \/
  pos_z p > ARENA_HALF - CYCLE_RADIUS.
Proof.
  unfold checkWallCollision. cbv zeta.
  rewrite !orb_true_iff, !bool_decide_eq_true. tauto.
Qed.

(** C3, as stated, fails on the boundary itself: the point (63.6, 0) has
    its x coordinate at the inset boundary and does not collide. *)
Lemma checkWallCollision_on_boundary :
  pos_x (mkPos 63.6 0) = ARENA_HALF - CYCLE_RADIUS /\
  checkWallCollision (mkPos 63.6 0) = false.
Proof.
  split.
  - rewrite inset_limit. reflexivity.
  - unfold checkWallCollision. cbv zeta. rewrite inset_limit. simpl. rcases.
Qed.

(** C3, amended: [checkWallCollision] is false exactly on the closed
    inset square (boundary included) and true exactly when a coordinate
    lies strictly beyond the inset boundary; (63.7, 0) collides and
    (50, 50) does not. *)
Theorem checkWallCollision_spec :
  (forall p : GridPosition,
     checkWallCollision p = false <->
     - (ARENA_HALF - CYCLE_RADIUS) <= pos_x p <= ARENA_HALF - CYCLE_RADIUS /\
     - (ARENA_HALF - CYCLE_RADIUS) <= pos_z p <= ARENA_HALF - CYCLE_RADIUS) /\
  (forall p : GridPosition,
     checkWallCollision p = true <->
     pos_x p < - (ARENA_HALF - CYCLE_RADIUS) \/
     pos_x p > ARENA_HALF - CYCLE_RADIUS \/
     pos_z p < - (ARENA_HALF - CYCLE_RADIUS) \/
     pos_z p > ARENA_HALF - CYCLE_RADIUS) /\
  checkWallCollision (mkPos 63.7 0) = true /\
  checkWallCollision (mkPos 50 50) = false.
Proof.
  split; [|split; [|split]].
  - intros p. rewrite <- not_true_iff_false, checkWallCollision_true. lra.
  - apply checkWallCollision_true.
  - apply checkWallCollision_true. rewrite inset_limit. simpl. lra.
  - apply not_true_iff_false. rewrite checkWallCollision_true.
    rewrite inset_limit. simpl. lra.
Qed.

(** The squared centre distance that [checkCycleCollision] compares is
    the square of [GridSystem.distance]. *)
Lemma distance_sqr (a b : GridPosition) :
  GridSystem.distance a b * GridSystem.distance a b =
  (pos_x a - pos_x b) * (pos_x a - pos_x b) +
  (pos_z a - pos_z b) * (pos_z a - pos_z b).
Proof.
  unfold GridSystem.distance. cbv zeta. rewrite sqrt_sqrt; [ring |].
  apply Rplus_le_le_0_compat; apply Rle_0_sqr.
Qed.

Lemma distance_nonneg (a b : GridPosition) : 0 <= GridSystem.distance a b.
Proof. unfold GridSystem.distance. cbv zeta. apply sqrt_pos. Qed.

Lemma checkCycleCollision_true (a b : GridPosition) :
  checkCycleCollision a b = true <->
  GridSystem.distance a b < 2 * CYCLE_RADIUS.
Proof.
  unfold checkCycleCollision. cbv zeta. rewrite bool_decide_eq_true.
  rewrite <- distance_sqr.
  pose proof (distance_nonneg a b) as Hd.
  assert (Hr : 0 < CYCLE_RADIUS) by (unfold CYCLE_RADIUS; lra).
  split; intros H; nra.
Qed.

(** C2, as stated, fails at distance exactly 0.8: the centres (0, 0) and
    (0.8, 0) are 0.8 apart, which is twice the radius, and do not
    collide, over the reals and in the binary64 arithmetic of the source
    alike. *)
Lemma checkCycleCollision_at_twice_radius :
  GridSystem.distance (mkPos 0 0) (mkPos 0.8 0) = 0.8 /\
  0.8 = 2 * CYCLE_RADIUS /\
  checkCycleCollision (mkPos 0 0) (mkPos 0.8 0) = false /\
  Binary64.checkCycleCollision Binary64.origin Binary64.onAxis = false.
Proof.
  split; [|split; [|split]].
  - unfold GridSystem.distance. simpl.
    replace ((0.8 - 0) * (0.8 - 0) + (0 - 0) * (0 - 0)) with (0.8 * 0.8)
      by lra.
    apply sqrt_square. lra.
  - unfold CYCLE_RADIUS. lra.
  - unfold checkCycleCollision, CYCLE_RADIUS. simpl. rcases.
  - vm_compute. reflexivity.
Qed.

(** C2, amended: [checkCycleCollision] compares the squared centre
    distance with (2 * radius)^2, radius 0.4, strictly.  Centres closer
    than 0.8 collide and centres farther apart than 0.8 do not (stated
    with a margin of 1e-9 on either side, far above what rounding in the
    source's binary64 arithmetic can move); centres 1.0 apart do not
    collide and identical positions do.  At a nominal distance of
    exactly 0.8 the answer is not [true] in general: (0, 0) and (0.8, 0)
    do not collide, while in binary64 (0, 0) and (0.48, 0.64) do,
    because there 0.48^2 + 0.64^2 rounds below (0.4 * 2)^2. *)
Theorem checkCycleCollision_spec :
  CYCLE_RADIUS = 0.4 /\
  (forall a b : GridPosition,
     GridSystem.distance a b <= 2 * CYCLE_RADIUS - 1 / 1000000000 ->
     checkCycleCollision a b = true) /\
  (forall a b : GridPosition,
     2 * CYCLE_RADIUS + 1 / 1000000000 <= GridSystem.distance a b ->
     checkCycleCollision a b = false) /\
  (forall a b : GridPosition,
     GridSystem.distance a b = 1.0 -> checkCycleCollision a b = false) /\
  (forall a : GridPosition, checkCycleCollision a a = true) /\
  checkCycleCollision (mkPos 0 0) (mkPos 0.8 0) = false /\
  Binary64.checkCycleCollision Binary64.origin Binary64.onAxis = false /\
  Binary64.checkCycleCollision Binary64.origin Binary64.offAxis = true /\
  Binary64.checkCycleCollision Binary64.origin Binary64.apart = false /\
  Binary64.checkCycleCollision Binary64.offAxis Binary64.offAxis = true.
Proof.
  assert (Hr : CYCLE_RADIUS = 0.4) by reflexivity.
  split; [exact Hr|].
  split; [|split; [|split; [|split; [|split]]]].
  - intros a b H. apply checkCycleCollision_true. lra.
  - intros a b H. apply not_true_iff_false.
    rewrite checkCycleCollision_true. lra.
  - intros a b H. apply not_true_iff_false.
    rewrite checkCycleCollision_true, H, Hr. lra.
  - intros a. unfold checkCycleCollision. cbv zeta.
    apply bool_decide_eq_true. rewrite Hr. lra.
  - unfold checkCycleCollision, CYCLE_RADIUS. simpl. rcases.
  - vm_compute. repeat split; reflexivity.
Qed.

End PointCollisions.

(** ** Trails in [checkCollision] *)

Section TrailCollisions.
Import CollisionSystem Samples.

Lemma trailLoop_living (p : GridPosition) (id : string)
    (cycles : list CycleState) :
  trailLoop p id cycles = trailLoop p id (List.filter c_isAlive cycles).
Proof.
  induction cycles as [|c rest IH]; [reflexivity|].
  simpl. destruct (c_isAlive c) eqn:Halive; simpl.
  - rewrite Halive. simpl. rewrite IH. reflexivity.
  - exact IH.
Qed.

Lemma cycleLoop_living (p : GridPosition) (id : string)
    (cycles : list CycleState) :
  cycleLoop p id cycles = cycleLoop p id (List.filter c_isAlive cycles).
Proof.
  induction cycles as [|c rest IH]; [reflexivity|].
  simpl. destruct (c_isAlive c) eqn:Halive; simpl.
  - rewrite Halive. simpl. rewrite IH. reflexivity.
  - rewrite orb_true_r. exact IH.
Qed.

Lemma trailLoop_hit (p : GridPosition) (id : string)
    (cycles : list CycleState) (c : CycleState) (seg : TrailSegment) :
  In c cycles -> c_isAlive c = true -> c_id c <> id ->
  In seg (c_trail c) -> pointIntersectsSegment p seg = true ->
  is_Some (trailLoop p id cycles).
Proof.
  intros Hin Halive Hid Hseg Hhit.
  induction cycles as [|c0 rest IH]; [destruct Hin|].
  simpl. destruct Hin as [-> | Hin].
  - rewrite Halive. simpl.
    rewrite bool_decide_eq_false_2 by congruence.
    unfold checkTrailCollision. cbv zeta.
    replace (existsb (pointIntersectsSegment p) (c_trail c)) with true;
      [eauto|].
    symmetry. apply existsb_exists. eauto.
  - destruct (negb (c_isAlive c0)); [auto|].
    destruct (checkTrailCollision _ _ _); eauto.
Qed.

(** C1, as stated, fails: (0, 5) lies on the committed trail segment of
    the dead agent [ai-1], and [checkCollision] reports no collision for
    the other agent [player]. *)
Lemma checkCollision_dead_trail :
  c_isAlive deadAgent = false /\
  existsb (pointIntersectsSegment (mkPos 0 5)) (c_trail deadAgent) = true /\
  checkCollision (mkPos 0 5) "player" [deadAgent]
  = mkResult false None None.
Proof.
  split; [reflexivity|]. split.
  - simpl. unfold pointIntersectsSegment, TRAIL_WIDTH, CYCLE_RADIUS. simpl.
    rsolve.
  - unfold checkCollision.
    replace (checkWallCollision (mkPos 0 5)) with false; [reflexivity|].
    symmetry. apply not_true_iff_false. rewrite checkWallCollision_true.
    rewrite inset_limit. simpl. lra.
Qed.

(** C1, amended: [checkCollision] treats only living agents as hazards.
    Agents whose [isAlive] flag is false are skipped, trail and body:
    the result is the one obtained with them removed from the list.  A
    point off the wall that lies on a committed trail segment of a living
    agent other than the querying one produces a trail collision. *)
Theorem checkCollision_living_only :
  (forall (p : GridPosition) (id : string) (cycles : list CycleState),
     checkCollision p id cycles
     = checkCollision p id (List.filter c_isAlive cycles)) /\
  (forall (p : GridPosition) (id : string) (cycles : list CycleState)
          (c : CycleState) (seg : TrailSegment),
     In c cycles -> c_isAlive c = true -> c_id c <> id ->
     In seg (c_trail c) -> pointIntersectsSegment p seg = true ->
     checkWallCollision p = false ->
     collided (checkCollision p id cycles) = true /\
     res_type (checkCollision p id cycles) = Some trail).
Proof.
  split.
  - intros p id cycles. unfold checkCollision.
    rewrite <- trailLoop_living, <- cycleLoop_living. reflexivity.
  - intros p id cycles c seg Hin Halive Hid Hseg Hhit Hwall.
    unfold checkCollision. rewrite Hwall.
    destruct (trailLoop_hit p id cycles c seg Hin Halive Hid Hseg Hhit)
      as [c' ->].
    split; reflexivity.
Qed.

Lemma dropRecent_app (n : nat) (older recent : list TrailSegment) :
  length recent = n -> dropRecent n (older ++ recent) = older.
Proof.
  intros Hlen. unfold dropRecent. rewrite length_app, Hlen.
  replace (length older + n - n)%nat with (length older) by lia.
  apply take_app_length.
Qed.

Lemma dropRecent_short (n : nat) (trail : list TrailSegment) :
  (length trail <= n)%nat -> dropRecent n trail = [].
Proof.
  intros Hlen. unfold dropRecent.
  replace (length trail - n)%nat with 0%nat by lia. reflexivity.
Qed.

End TrailCollisions.

(** ** The marching loop of [raycast] *)

Section Marching.
Import CollisionSystem RaySpec.

Lemma step_pos : 0 < step.
Proof. unfold step. lra. Qed.

(** *** The loop stops by its guard, not by its iteration bound *)

Lemma marchLoop_fuel (fuel fuel' : nat) (p dir : GridPosition) (maxD : R)
    (cycles : list CycleState) (selfId : string) (d : R) (st : RayState) :
  d + INR fuel * step > maxD -> (fuel <= fuel')%nat ->
  marchLoop fuel' p dir maxD cycles selfId d st
  = marchLoop fuel p dir maxD cycles selfId d st.
Proof.
  revert fuel' d st.
  induction fuel as [|fuel IH]; intros fuel' d st Hd Hle.
  - simpl in Hd. destruct fuel'; [reflexivity|]. simpl.
    rewrite bool_decide_eq_false_2 by lra. reflexivity.
  - destruct fuel' as [|fuel']; [lia|]. simpl.
    destruct (bool_decide (d <= maxD) && lt_xnum d (minHitDistance st));
      [|reflexivity].
    apply IH; [|lia]. rewrite S_INR in Hd. lra.
Qed.

Lemma marchFuel_enough (maxD : R) : step + INR (marchFuel maxD) * step > maxD.
Proof.
  unfold marchFuel.
  destruct (archimed (maxD / step)) as [Hup _].
  assert (Hn : IZR (up (maxD / step)) <= INR (Z.to_nat (up (maxD / step)))).
  { destruct (Z_lt_le_dec (up (maxD / step)) 0) as [Hneg | Hpos].
    - apply IZR_lt in Hneg.
      pose proof (pos_INR (Z.to_nat (up (maxD / step)))). lra.
    - rewrite INR_IZR_INZ, Z2Nat.id by assumption. lra. }
  unfold step in *. lra.
Qed.

(** More iterations than [marchFuel] allows would change nothing. *)
Lemma marchLoop_total (fuel' : nat) (p dir : GridPosition) (maxD : R)
    (cycles : list CycleState) (selfId : string) (st : RayState) :
  (marchFuel maxD <= fuel')%nat ->
  marchLoop fuel' p dir maxD cycles selfId step st
  = marchLoop (marchFuel maxD) p dir maxD cycles selfId step st.
Proof. intros Hle. apply marchLoop_fuel; [apply marchFuel_enough | exact Hle]. Qed.

(** *** A recorded distance only decreases *)

Lemma recordHit_keeps (d b : R) (ty : HitType) (st : RayState) :
  bounded (minHitDistance st) b ->
  bounded (minHitDistance (recordHit d ty st)) b.
Proof.
  unfold recordHit. destruct (minHitDistance st) as [r|] eqn:Hm; simpl.
  - intros Hb. case_bool_decide; simpl; [lra | rewrite Hm; exact Hb].
  - intros [].
Qed.


Lemma segmentLoop_keeps (testPos : GridPosition) (d b : R)
    (segs : list TrailSegment) (st : RayState) :
  bounded (minHitDistance st) b ->
  bounded (minHitDistance (segmentLoop testPos d segs st)) b.
Proof.
  unfold segmentLoop. revert st.
  induction segs as [|seg segs IH]; intros st Hb; [exact Hb|].
  simpl. apply IH.
  destruct (pointIntersectsSegment testPos seg);
    [apply recordHit_keeps|]; exact Hb.
Qed.


Lemma cycleBody_keeps (testPos : GridPosition) (d b : R) (selfId : string)
    (st : RayState) (c : CycleState) :
  bounded (minHitDistance st) b ->
  bounded (minHitDistance (cycleBody testPos d selfId st c)) b.
Proof.
  intros Hb. unfold cycleBody. cbv zeta.
  destruct (negb (c_isAlive c)); [exact Hb|].
  pose proof (segmentLoop_keeps testPos d b (rayTrail selfId c) st Hb) as Hs.
  repeat case_bool_decide; try exact Hs. apply recordHit_keeps, Hs.
Qed.

Lemma stepBody_keeps (p dir : GridPosition) (cycles : list CycleState)
    (selfId : string) (d b : R) (st : RayState) :
  bounded (minHitDistance st) b ->
  bounded (minHitDistance (stepBody p dir cycles selfId d st)) b.
Proof.
  unfold stepBody. cbv zeta. revert st.
  induction cycles as [|c cycles IH]; intros st Hb; [exact Hb|].
  simpl. apply IH, cycleBody_keeps, Hb.
Qed.

Lemma marchLoop_keeps (fuel : nat) (p dir : GridPosition) (maxD : R)
    (cycles : list CycleState) (selfId : string) (d b : R) (st : RayState) :
  bounded (minHitDistance st) b ->
  bounded (minHitDistance (marchLoop fuel p dir maxD cycles selfId d st)) b.
Proof.
  revert d st. induction fuel as [|fuel IH]; intros d st Hb; [exact Hb|].
  simpl.
  destruct (bool_decide (d <= maxD) && lt_xnum d (minHitDistance st));
    [|exact Hb].
  apply IH, stepBody_keeps, Hb.
Qed.

(** *** A sample point on a tested segment is recorded *)



(** *** A sample point that touches nothing changes nothing *)

Lemma segmentLoop_clear (testPos : GridPosition) (d : R)
    (segs : list TrailSegment) (st : RayState) :
  existsb (pointIntersectsSegment testPos) segs = false ->
  segmentLoop testPos d segs st = st.
Proof.
  unfold segmentLoop. revert st.
  induction segs as [|seg segs IH]; intros st Hclear; [reflexivity|].
  simpl in *. apply orb_false_iff in Hclear as [-> Hrest]. apply IH, Hrest.
Qed.

Lemma cycleBody_clear (testPos : GridPosition) (d : R) (selfId : string)
    (st : RayState) (c : CycleState) :
  cycleHits testPos selfId c = false ->
  cycleBody testPos d selfId st c = st.
Proof.
  unfold cycleHits, cycleBody. cbv zeta. intros Hclear.
  destruct (c_isAlive c); simpl in *; [|reflexivity].
  apply orb_false_iff in Hclear as [Hsegs Hbody].
  rewrite segmentLoop_clear by exact Hsegs.
  destruct (bool_decide (c_id c <> selfId)); simpl in *; [|reflexivity].
  rewrite Hbody. reflexivity.
Qed.

Lemma stepBody_clear (p dir : GridPosition) (cycles : list CycleState)
    (selfId : string) (d : R) (st : RayState) :
  sampleHits p dir cycles selfId d = false ->
  stepBody p dir cycles selfId d st = st.
Proof.
  unfold sampleHits, stepBody. cbv zeta. set (testPos := mkPos _ _).
  induction cycles as [|c cycles IH]; intros Hclear; [reflexivity|].
  simpl in *. apply orb_false_iff in Hclear as [Hc Hrest].
  rewrite cycleBody_clear by exact Hc. apply IH, Hrest.
Qed.

Lemma marchLoop_clear (fuel j : nat) (p dir : GridPosition) (maxD : R)
    (cycles : list CycleState) (selfId : string) (st : RayState) :
  (1 <= j)%nat ->
  (forall k : nat, (1 <= k)%nat -> INR k * step <= maxD ->
     lt_xnum (INR k * step) (minHitDistance st) = true ->
     sampleHits p dir cycles selfId (INR k * step) = false) ->
  marchLoop fuel p dir maxD cycles selfId (INR j * step) st = st.
Proof.
  intros Hj Hclear. revert j Hj.
  induction fuel as [|fuel IH]; intros j Hj; [reflexivity|].
  simpl.
  destruct (bool_decide (INR j * step <= maxD)) eqn:Hguard; simpl;
    [|reflexivity].
  destruct (lt_xnum (INR j * step) (minHitDistance st)) eqn:Hlt;
    [|reflexivity].
  apply bool_decide_eq_true in Hguard.
  rewrite stepBody_clear by (apply Hclear; assumption).
  replace (INR j * step + step) with (INR (S j) * step)
    by (rewrite S_INR; lra).
  apply IH. lia.
Qed.

(** *** The wall distance on a cardinal ray *)

Lemma raycastWall_cardinal (origin : GridPosition) (dir : GridDirection) :
  raycastWall origin (DIRECTION_VECTORS dir)
  = Fin (analyticWallDistance origin dir).
Proof.
  unfold raycastWall. cbv zeta.
  destruct dir; simpl;
    repeat (case_bool_decide; try lra); simpl; f_equal; lra.
Qed.

End Marching.

(** ** What [raycast] reports *)

Section Raycasts.
Import CollisionSystem RaySpec Samples.

(** On a clear cardinal lane the loop records nothing and the wall
    distance computed up front is what is reported. *)
Lemma raycast_clear (origin : GridPosition) (dir : GridDirection)
    (maxD : R) (cycles : list CycleState) (selfId : string) :
  (forall k : nat, (1 <= k)%nat ->
     INR k * step <= maxD ->
     INR k * step < analyticWallDistance origin dir ->
     sampleHits origin (DIRECTION_VECTORS dir) cycles selfId (INR k * step)
     = false) ->
  raycast origin (DIRECTION_VECTORS dir) maxD cycles selfId
  = mkHit (Rmin (analyticWallDistance origin dir) maxD) (Some wall).
Proof.
  intros Hclear.
  unfold raycast. cbv zeta. rewrite raycastWall_cardinal. simpl.
  pose proof (marchLoop_clear (marchFuel maxD) 1 origin
                (DIRECTION_VECTORS dir) maxD cycles selfId
                (mkRay (Fin (analyticWallDistance origin dir)) (Some wall)))
    as Hloop.
  replace (INR 1 * step) with step in Hloop by (simpl; lra).
  rewrite Hloop; [reflexivity | lia |].
  intros k Hk Hmax Hlt. simpl in Hlt. apply bool_decide_eq_true in Hlt.
  apply Hclear; assumption.
Qed.

(** C5: on a cardinal ray whose sample points touch no tested trail
    segment and no other agent (a clear lane), [raycast] reports the wall
    and the distance [min(maxDistance, analytic wall distance)], a finite
    number; when the wall is at least [maxDistance] away it reports
    exactly [maxDistance]. *)
Theorem raycast_clear_lane :
  forall (origin : GridPosition) (dir : GridDirection) (maxDistance : R)
         (allCycles : list CycleState) (selfId : string),
    (forall k : nat, (1 <= k)%nat ->
       INR k * step <= maxDistance ->
       INR k * step < analyticWallDistance origin dir ->
       sampleHits origin (DIRECTION_VECTORS dir) allCycles selfId
         (INR k * step) = false) ->
    distance (raycast origin (DIRECTION_VECTORS dir) maxDistance allCycles
                selfId)
    = Rmin maxDistance (analyticWallDistance origin dir) /\
    hit_type (raycast origin (DIRECTION_VECTORS dir) maxDistance allCycles
                selfId) = Some wall /\
    (maxDistance <= analyticWallDistance origin dir ->
     distance (raycast origin (DIRECTION_VECTORS dir) maxDistance allCycles
                 selfId) = maxDistance).
Proof.
  intros origin dir maxD cycles selfId Hclear.
  rewrite (raycast_clear origin dir maxD cycles selfId Hclear). simpl.
  split; [apply Rmin_comm|]. split; [reflexivity|].
  intros Hfar. apply Rmin_right. exact Hfar.
Qed.

(** The clear-lane example of the test suite: alone at the origin, a
    10-unit ray to the east reports exactly 10. *)
Lemma raycast_clear_lane_witness :
  (forall k : nat, (1 <= k)%nat ->
     INR k * step <= 10 ->
     INR k * step < analyticWallDistance (mkPos 0 0) east ->
     sampleHits (mkPos 0 0) (DIRECTION_VECTORS east) [lonePlayer] "player"
       (INR k * step) = false) /\
  10 <= analyticWallDistance (mkPos 0 0) east /\
  distance (raycast (mkPos 0 0) (DIRECTION_VECTORS east) 10 [lonePlayer]
              "player") = 10.
Proof.
  assert (Hclear : forall k : nat, (1 <= k)%nat ->
     INR k * step <= 10 ->
     INR k * step < analyticWallDistance (mkPos 0 0) east ->
     sampleHits (mkPos 0 0) (DIRECTION_VECTORS east) [lonePlayer] "player"
       (INR k * step) = false).
  { intros k _ _ _. reflexivity. }
  assert (Hfar : 10 <= analyticWallDistance (mkPos 0 0) east).
  { unfold analyticWallDistance. rewrite inset_limit. simpl. lra. }
  split; [exact Hclear|]. split; [exact Hfar|].
  apply (raycast_clear_lane (mkPos 0 0) east 10 [lonePlayer] "player" Hclear).
  exact Hfar.
Defined.

(** *** Which segments a ray tests *)





Lemma olderThan_dropRecent (n : nat) (trail : list TrailSegment)
    (seg : TrailSegment) :
  In seg (dropRecent n trail) <-> olderThan n trail seg.
Proof.
  unfold olderThan. split.
  - intros Hin. unfold dropRecent in Hin.
    destruct (le_lt_dec n (length trail)) as [Hle | Hlt].
    + exists (take (length trail - n) trail), (drop (length trail - n) trail).
      split; [symmetry; apply take_drop|].
      split; [rewrite length_drop; lia | exact Hin].
    + replace (length trail - n)%nat with 0%nat in Hin by lia.
      destruct Hin.
  - intros (older & recent & -> & Hlen & Hin).
    rewrite dropRecent_app by exact Hlen. exact Hin.
Qed.

Lemma olderThan_short (n : nat) (trail : list TrailSegment)
    (seg : TrailSegment) :
  (length trail <= n)%nat -> ~ olderThan n trail seg.
Proof.
  intros Hlen (older & recent & -> & Hrecent & Hin).
  rewrite length_app in Hlen. destruct older; [destruct Hin | simpl in Hlen; lia].
Qed.

Lemma rayTrail_tested (selfId : string) (c : CycleState)
    (seg : TrailSegment) :
  c_isAlive c = true ->
  In seg (rayTrail selfId c) <-> tested selfId c seg.
Proof.
  intros Halive. unfold rayTrail, tested. case_bool_decide as Hid.
  - rewrite olderThan_dropRecent. split.
    + intros H. split; [exact Halive|]. right. split; assumption.
    + intros [_ [[Hne _] | [_ H]]]; [contradiction | exact H].
  - split.
    + intros H. split; [exact Halive|]. left. split; assumption.
    + intros [_ [[_ H] | [Heq _]]]; [exact H | contradiction].
Qed.

Lemma clearAt_sampleHits (p dir : GridPosition) (cycles : list CycleState)
    (selfId : string) (d : R) :
  clearAt (rayPoint p dir d) cycles selfId ->
  sampleHits p dir cycles selfId d = false.
Proof.
  intros Hclear. apply not_true_iff_false. intros Hhit.
  unfold sampleHits in Hhit. apply existsb_exists in Hhit as (c & Hin & Hc).
  unfold cycleHits in Hc.
  destruct (c_isAlive c) eqn:Halive; [|discriminate Hc]. cbn [andb] in Hc.
  destruct (Hclear c Hin Halive) as [Hsegs Hbody].
  apply orb_true_iff in Hc as [Htrail | Hnear].
  - apply existsb_exists in Htrail as (seg & Hseg & Htouch).
    apply (rayTrail_tested selfId c seg Halive) in Hseg.
    specialize (Hsegs seg Hseg). unfold rayPoint in Hsegs. congruence.
  - apply andb_true_iff in Hnear as [Hother Hnear].
    apply bool_decide_eq_true in Hother. specialize (Hbody Hother).
    unfold touchesBody, rayPoint in Hbody.
    cbn [pos_x pos_z] in Hbody, Hnear. congruence.
Qed.

(** With nothing to test on the ray, the wall (if any) is reported. *)
Lemma raycast_untouched (p dir : GridPosition) (maxD : R)
    (cycles : list CycleState) (selfId : string) :
  (forall k : nat, (1 <= k)%nat -> INR k * step <= maxD ->
     clearAt (rayPoint p dir (INR k * step)) cycles selfId) ->
  raycast p dir maxD cycles selfId
  = mkHit (xmin (raycastWall p dir) maxD)
      (if xnum_lt (raycastWall p dir) Infinity then Some wall else None).
Proof.
  intros Hclear. unfold raycast. cbv zeta. cbn [minHitDistance].
  set (st := if xnum_lt (raycastWall p dir) Infinity
             then mkRay (raycastWall p dir) (Some wall)
             else mkRay Infinity None).
  pose proof (marchLoop_clear (marchFuel maxD) 1 p dir maxD cycles selfId st)
    as Hloop.
  replace (INR 1 * step) with step in Hloop by (simpl; lra).
  rewrite Hloop; [| lia |].
  - unfold st. destruct (raycastWall p dir); reflexivity.
  - intros k Hk Hmax _. apply clearAt_sampleHits, Hclear; assumption.
Qed.

(** Once a trail hit is recorded at [d], nothing else at [d] changes
    it. *)
Lemma recordHit_again (d : R) (ty : HitType) :
  recordHit d ty (mkRay (Fin d) (Some trail)) = mkRay (Fin d) (Some trail).
Proof.
  unfold recordHit. cbn [minHitDistance lt_xnum].
  rewrite bool_decide_eq_false_2 by lra. reflexivity.
Qed.

Lemma segmentLoop_again (testPos : GridPosition) (d : R)
    (segs : list TrailSegment) :
  segmentLoop testPos d segs (mkRay (Fin d) (Some trail))
  = mkRay (Fin d) (Some trail).
Proof.
  unfold segmentLoop. induction segs as [|seg segs IH]; [reflexivity|].
  cbn [fold_left]. destruct (pointIntersectsSegment testPos seg);
    [rewrite recordHit_again|]; exact IH.
Qed.

Lemma segmentLoop_first (testPos : GridPosition) (d : R)
    (segs : list TrailSegment) (st : RayState) :
  lt_xnum d (minHitDistance st) = true ->
  segmentLoop testPos d segs st
  = if existsb (pointIntersectsSegment testPos) segs
    then mkRay (Fin d) (Some trail) else st.
Proof.
  intros Hlt. induction segs as [|seg segs IH]; [reflexivity|].
  unfold segmentLoop in *. cbn [fold_left existsb].
  destruct (pointIntersectsSegment testPos seg); cbn [orb]; [|exact IH].
  unfold recordHit. rewrite Hlt.
  apply (segmentLoop_again testPos d segs).
Qed.

Lemma cycleBody_again (testPos : GridPosition) (d : R) (selfId : string)
    (c : CycleState) :
  cycleBody testPos d selfId (mkRay (Fin d) (Some trail)) c
  = mkRay (Fin d) (Some trail).
Proof.
  unfold cycleBody. cbv zeta. destruct (negb (c_isAlive c)); [reflexivity|].
  rewrite segmentLoop_again.
  destruct (bool_decide (c_id c <> selfId)); [|reflexivity].
  destruct (bool_decide _); [apply recordHit_again | reflexivity].
Qed.

Lemma cycleBody_first (testPos : GridPosition) (d : R) (selfId : string)
    (st : RayState) (c : CycleState) :
  lt_xnum d (minHitDistance st) = true ->
  (c_isAlive c = true -> c_id c <> selfId -> touchesBody testPos c = false) ->
  cycleBody testPos d selfId st c
  = if c_isAlive c
       && existsb (pointIntersectsSegment testPos) (rayTrail selfId c)
    then mkRay (Fin d) (Some trail) else st.
Proof.
  intros Hlt Hbody. unfold cycleBody. cbv zeta.
  destruct (c_isAlive c); cbn [negb andb]; [|reflexivity].
  rewrite segmentLoop_first by exact Hlt.
  destruct (existsb _ (rayTrail selfId c)).
  - destruct (bool_decide (c_id c <> selfId)); [|reflexivity].
    destruct (bool_decide _); [apply recordHit_again | reflexivity].
  - case_bool_decide as Hother; [|reflexivity].
    specialize (Hbody eq_refl Hother). unfold touchesBody in Hbody.
    rewrite Hbody. reflexivity.
Qed.

Lemma stepBody_again (p dir : GridPosition) (cycles : list CycleState)
    (selfId : string) (d : R) :
  stepBody p dir cycles selfId d (mkRay (Fin d) (Some trail))
  = mkRay (Fin d) (Some trail).
Proof.
  unfold stepBody. cbv zeta.
  induction cycles as [|c cycles IH]; [reflexivity|].
  cbn [fold_left]. rewrite cycleBody_again. exact IH.
Qed.

Lemma stepBody_first (p dir : GridPosition) (cycles : list CycleState)
    (selfId : string) (d : R) (st : RayState) :
  lt_xnum d (minHitDistance st) = true ->
  (forall c, In c cycles -> c_isAlive c = true -> c_id c <> selfId ->
     touchesBody (rayPoint p dir d) c = false) ->
  stepBody p dir cycles selfId d st
  = if existsb
         (fun c => c_isAlive c
                   && existsb (pointIntersectsSegment (rayPoint p dir d))
                        (rayTrail selfId c))
         cycles
    then mkRay (Fin d) (Some trail) else st.
Proof.
  intros Hlt Hbody.
  induction cycles as [|c cycles IH]; [reflexivity|].
  unfold stepBody in *. cbv zeta in *.
  change (mkPos (pos_x p + pos_x dir * d) (pos_z p + pos_z dir * d))
    with (rayPoint p dir d) in *.
  cbn [fold_left existsb].
  rewrite (cycleBody_first (rayPoint p dir d) d selfId st c Hlt)
    by (intros; apply Hbody; [left; reflexivity | assumption..]).
  destruct (c_isAlive c && existsb _ (rayTrail selfId c)); cbn [orb].
  - apply (stepBody_again p dir cycles selfId d).
  - apply IH. intros c' Hin. apply Hbody. right. exact Hin.
Qed.

Lemma lt_xnum_below (a b : R) (m : xnum) :
  a <= b -> lt_xnum b m = true -> lt_xnum a m = true.
Proof.
  intros Hab. destruct m as [r|]; [|reflexivity]. cbn [lt_xnum].
  rewrite !bool_decide_eq_true. lra.
Qed.

Lemma marchLoop_first (fuel j k : nat) (p dir : GridPosition) (maxD : R)
    (cycles : list CycleState) (selfId : string) (st : RayState) :
  (1 <= j <= k)%nat -> INR k * step <= maxD ->
  lt_xnum (INR k * step) (minHitDistance st) = true ->
  (forall i : nat, (j <= i < k)%nat ->
     sampleHits p dir cycles selfId (INR i * step) = false) ->
  stepBody p dir cycles selfId (INR k * step) st
  = mkRay (Fin (INR k * step)) (Some trail) ->
  INR j * step + INR fuel * step > maxD ->
  marchLoop fuel p dir maxD cycles selfId (INR j * step) st
  = mkRay (Fin (INR k * step)) (Some trail).
Proof.
  intros Hjk Hmax Hlt Hclear Hhit. revert j Hjk Hclear.
  pose proof step_pos as Hstep.
  induction fuel as [|fuel IH]; intros j Hjk Hclear Hfuel.
  - exfalso. assert (Hle : INR j <= INR k) by (apply le_INR; lia).
    simpl in Hfuel. nra.
  - assert (Hle : INR j <= INR k) by (apply le_INR; lia).
    cbn [marchLoop].
    rewrite bool_decide_eq_true_2 by nra.
    rewrite (lt_xnum_below (INR j * step) (INR k * step)) by (assumption || nra).
    cbn [andb].
    destruct (decide (j = k)) as [-> | Hne].
    + rewrite Hhit. destruct fuel as [|fuel']; [reflexivity|].
      cbn [marchLoop minHitDistance lt_xnum].
      rewrite (bool_decide_eq_false_2 (INR k * step + step < INR k * step))
        by lra.
      rewrite andb_false_r. reflexivity.
    + rewrite stepBody_clear by (apply Hclear; lia).
      replace (INR j * step + step) with (INR (S j) * step)
        by (rewrite S_INR; lra).
      apply IH; [lia | intros i Hi; apply Hclear; lia |].
      rewrite S_INR in *. lra.
Qed.

(** The first sample point that lies on a tested segment is what the
    ray reports. *)
Lemma raycast_first_trail (p dir : GridPosition) (maxD : R)
    (cycles : list CycleState) (selfId : string) (c : CycleState)
    (seg : TrailSegment) (k : nat) :
  (1 <= k)%nat -> INR k * step <= maxD ->
  lt_xnum (INR k * step) (raycastWall p dir) = true ->
  (forall j : nat, (1 <= j < k)%nat ->
     clearAt (rayPoint p dir (INR j * step)) cycles selfId) ->
  (forall c' : CycleState, In c' cycles -> c_isAlive c' = true ->
     c_id c' <> selfId ->
     touchesBody (rayPoint p dir (INR k * step)) c' = false) ->
  In c cycles -> tested selfId c seg ->
  pointIntersectsSegment (rayPoint p dir (INR k * step)) seg = true ->
  raycast p dir maxD cycles selfId = mkHit (INR k * step) (Some trail).
Proof.
  intros Hk Hmax Hwall Hclear Hbody Hin Htested Htouch.
  unfold raycast. cbv zeta. cbn [minHitDistance].
  set (st := if xnum_lt (raycastWall p dir) Infinity
             then mkRay (raycastWall p dir) (Some wall)
             else mkRay Infinity None).
  assert (Hst : minHitDistance st = raycastWall p dir).
  { unfold st. destruct (raycastWall p dir); reflexivity. }
  pose proof (marchLoop_first (marchFuel maxD) 1 k p dir maxD cycles selfId st)
    as Hloop.
  replace (INR 1 * step) with step in Hloop by (simpl; lra).
  rewrite Hloop.
  - cbn [minHitDistance hitType xmin]. f_equal. apply Rmin_left. exact Hmax.
  - lia.
  - exact Hmax.
  - rewrite Hst. exact Hwall.
  - intros i Hi. apply clearAt_sampleHits, Hclear. lia.
  - rewrite stepBody_first; [| rewrite Hst; exact Hwall | exact Hbody].
    replace (existsb _ cycles) with true; [reflexivity|].
    symmetry. apply existsb_exists. exists c. split; [exact Hin|].
    destruct Htested as [Halive Hwhich] eqn:Hkeep. clear Hkeep.
    rewrite Halive. cbn [andb]. apply existsb_exists. exists seg.
    split; [|exact Htouch].
    apply (rayTrail_tested selfId c seg Halive). split; assumption.
  - apply marchFuel_enough.
Qed.


Lemma olderThan_app (n : nat) (older recent : list TrailSegment)
    (seg : TrailSegment) :
  length recent = n -> olderThan n (older ++ recent) seg <-> In seg older.
Proof.
  intros Hlen. rewrite <- olderThan_dropRecent, dropRecent_app by exact Hlen.
  reflexivity.
Qed.

Lemma crossing_sample (k : nat) :
  pointIntersectsSegment
    (rayPoint (mkPos 0 0) (DIRECTION_VECTORS east) (INR k * step)) crossing
  = bool_decide (4.525 <= INR k * step <= 5.475).
Proof.
  unfold pointIntersectsSegment, rayPoint, crossing, TRAIL_WIDTH,
    CYCLE_RADIUS. cbv zeta. cbn [pos_x pos_z seg_start seg_end
    DIRECTION_VECTORS].
  rsolve.
Qed.

(** An agent whose oldest of four segments crosses its way 5 units ahead
    sees it: the ray to the east reports a trail at distance 5. *)
Example veteran_sees_crossing :
  raycast (mkPos 0 0) (DIRECTION_VECTORS east) 10 [veteran] "ai-1"
  = mkHit 5 (Some trail).
Proof.
  replace 5 with (INR 10 * step) by (unfold step; simpl; lra).
  apply (raycast_first_trail _ _ _ _ _ veteran crossing 10).
  - lia.
  - unfold step. simpl. lra.
  - rewrite raycastWall_cardinal. unfold analyticWallDistance.
    rewrite inset_limit. apply bool_decide_eq_true_2.
    unfold step. simpl. lra.
  - intros j Hj c [<- | []] _. split; [|intros Hne; contradiction Hne; reflexivity].
    intros seg [_ [[Hne _] | [_ Hold]]]; [contradiction Hne; reflexivity|].
    apply (olderThan_app 3 [crossing] farSegments seg eq_refl) in Hold.
    destruct Hold as [<- | []]. rewrite crossing_sample.
    apply bool_decide_eq_false_2.
    assert (Hle : INR j <= INR 9) by (apply le_INR; lia).
    unfold step. simpl in Hle. lra.
  - intros c' [<- | []] _ Hne. contradiction Hne. reflexivity.
  - left. reflexivity.
  - split; [reflexivity|]. right. split; [reflexivity|].
    apply (olderThan_app 3 [crossing] farSegments crossing eq_refl).
    left. reflexivity.
  - rewrite crossing_sample. apply bool_decide_eq_true_2.
    unfold step. simpl. lra.
Qed.

(** An agent with three segments only does not see the latest of them,
    although it crosses its way 5 units ahead: the ray to the east runs
    its full 10 units and reports the wall. *)
Example novice_sees_wall :
  pointIntersectsSegment
    (rayPoint (mkPos 0 0) (DIRECTION_VECTORS east) (INR 10 * step)) crossing
  = true /\
  raycast (mkPos 0 0) (DIRECTION_VECTORS east) 10 [novice] "ai-1"
  = mkHit 10 (Some wall).
Proof.
  split.
  - rewrite crossing_sample. apply bool_decide_eq_true_2.
    unfold step. simpl. lra.
  - rewrite raycast_untouched.
    + rewrite raycastWall_cardinal. unfold analyticWallDistance.
      rewrite inset_limit. cbn [xnum_lt lt_xnum xmin pos_x]. f_equal.
      apply Rmin_right. lra.
    + intros k _ _ c [<- | []] _.
      split; [|intros Hne; contradiction Hne; reflexivity].
      intros seg [_ [[Hne _] | [_ Hold]]]; [contradiction Hne; reflexivity|].
      exfalso. revert Hold. apply olderThan_short. simpl. lia.
Qed.

(** The self-collision example of the test suite: with three committed
    segments only the oldest is tested against the agent itself, and all
    three against anyone else. *)
Example checkTrailCollision_recentTrail :
  let recentTrail :=
    [ mkSeg (mkPos 0 0) (mkPos 5 0) east;
      mkSeg (mkPos 5 0) (mkPos 5 5) south;
      mkSeg (mkPos 5 5) (mkPos 10 5) east ] in
  checkTrailCollision (mkPos 2 0) recentTrail true = true /\
  checkTrailCollision (mkPos 5 2) recentTrail true = false /\
  checkTrailCollision (mkPos 5 2) recentTrail false = true.
Proof.
  cbv zeta. unfold checkTrailCollision, dropRecent, pointIntersectsSegment,
    TRAIL_WIDTH, CYCLE_RADIUS. simpl.
  repeat split; rsolve.
Qed.

(** *** A reported trail hit is real *)

Lemma segmentLoop_backed (p dir : GridPosition) (maxD d : R)
    (cycles : list CycleState) (selfId : string) (c : CycleState)
    (segs : list TrailSegment) (st : RayState) :
  d <= maxD -> In c cycles -> c_isAlive c = true ->
  (forall seg, In seg segs -> In seg (rayTrail selfId c)) ->
  trailBacked p dir maxD cycles selfId st ->
  trailBacked p dir maxD cycles selfId
    (segmentLoop (mkPos (pos_x p + pos_x dir * d) (pos_z p + pos_z dir * d))
       d segs st).
Proof.
  intros Hd Hin Halive. unfold segmentLoop. revert st.
  induction segs as [|seg segs IH]; intros st Hsub Hst; [exact Hst|].
  simpl. apply IH; [intros s Hs; apply Hsub; right; exact Hs|].
  destruct (pointIntersectsSegment _ seg) eqn:Hhit; [|exact Hst].
  unfold recordHit. destruct (lt_xnum d (minHitDistance st)); [|exact Hst].
  intros _. exists d. split; [reflexivity|]. split; [exact Hd|].
  exists c, seg. repeat split; try assumption. apply Hsub. left. reflexivity.
Qed.

Lemma cycleBody_backed (p dir : GridPosition) (maxD d : R)
    (cycles : list CycleState) (selfId : string) (c : CycleState)
    (st : RayState) :
  d <= maxD -> In c cycles ->
  trailBacked p dir maxD cycles selfId st ->
  trailBacked p dir maxD cycles selfId
    (cycleBody (mkPos (pos_x p + pos_x dir * d) (pos_z p + pos_z dir * d))
       d selfId st c).
Proof.
  intros Hd Hin Hst. unfold cycleBody. cbv zeta.
  destruct (c_isAlive c) eqn:Halive; simpl; [|exact Hst].
  pose proof (segmentLoop_backed p dir maxD d cycles selfId c
                (rayTrail selfId c) st Hd Hin Halive (fun _ H => H) Hst)
    as Hsegs.
  destruct (bool_decide (c_id c <> selfId)); [|exact Hsegs].
  destruct (bool_decide (_ < _)); [|exact Hsegs].
  unfold recordHit. destruct (lt_xnum d _); [|exact Hsegs].
  intros Hty. discriminate Hty.
Qed.

Lemma stepBody_backed (p dir : GridPosition) (maxD d : R)
    (cycles : list CycleState) (selfId : string) (st : RayState) :
  d <= maxD ->
  trailBacked p dir maxD cycles selfId st ->
  trailBacked p dir maxD cycles selfId (stepBody p dir cycles selfId d st).
Proof.
  intros Hd. unfold stepBody. cbv zeta.
  assert (Hgen : forall (sub : list CycleState) (st : RayState),
    (forall c, In c sub -> In c cycles) ->
    trailBacked p dir maxD cycles selfId st ->
    trailBacked p dir maxD cycles selfId
      (fold_left
         (cycleBody
            (mkPos (pos_x p + pos_x dir * d) (pos_z p + pos_z dir * d))
            d selfId) sub st)).
  { induction sub as [|c sub IH]; intros st0 Hsub Hst0; [exact Hst0|].
    simpl. apply IH; [intros c' Hc'; apply Hsub; right; exact Hc'|].
    apply cycleBody_backed; [exact Hd | apply Hsub; left; reflexivity|].
    exact Hst0. }
  apply Hgen. auto.
Qed.

Lemma marchLoop_backed (fuel : nat) (p dir : GridPosition) (maxD d : R)
    (cycles : list CycleState) (selfId : string) (st : RayState) :
  trailBacked p dir maxD cycles selfId st ->
  trailBacked p dir maxD cycles selfId
    (marchLoop fuel p dir maxD cycles selfId d st).
Proof.
  revert d st. induction fuel as [|fuel IH]; intros d st Hst; [exact Hst|].
  simpl. destruct (bool_decide (d <= maxD)) eqn:Hguard; simpl; [|exact Hst].
  destruct (lt_xnum d (minHitDistance st)); [|exact Hst].
  apply bool_decide_eq_true in Hguard.
  apply IH, stepBody_backed; assumption.
Qed.

(** A ray that reports [trail] reports the distance of a sample point
    that lies on a tested segment of a living cycle. *)
Lemma raycast_trail_backed (p dir : GridPosition) (maxD : R)
    (cycles : list CycleState) (selfId : string) :
  hit_type (raycast p dir maxD cycles selfId) = Some trail ->
  exists (c : CycleState) (seg : TrailSegment),
    In c cycles /\ c_isAlive c = true /\ In seg (rayTrail selfId c) /\
    pointIntersectsSegment
      (mkPos
         (pos_x p + pos_x dir * distance (raycast p dir maxD cycles selfId))
         (pos_z p + pos_z dir * distance (raycast p dir maxD cycles selfId)))
      seg = true.
Proof.
  unfold raycast. cbv zeta. cbn [hit_type distance]. intros Hty.
  match type of Hty with
  | hitType (marchLoop ?f _ _ _ _ _ ?d ?st) = _ =>
      pose proof (marchLoop_backed f p dir maxD d cycles selfId st) as Hback
  end.
  destruct Hback as (d & Hmin & Hd & c & seg & Hin & Halive & Hseg & Hhit);
    [|exact Hty|].
  { destruct (xnum_lt _ _); intros Himp; discriminate Himp. }
  rewrite Hmin. cbn [xmin]. rewrite Rmin_left by exact Hd.
  exists c, seg. auto.
Qed.

End Raycasts.

(** ** The [KILL_CYCLE] transition *)

Section KillCycle.
Import GameContext Samples.

Lemma createInitialState_tallied
    (s1 s2 s3 s4 : GridPosition * GridDirection) :
  tallied (createInitialState [s1; s2; s3; s4]).
Proof.
  intros c Hin. simpl in Hin.
  destruct Hin as [<- | [<- | [<- | [<- | []]]]]; simpl;
    (split; [discriminate | eexists; reflexivity]).
Qed.

Lemma creditWinner_keeps (w : option string) (scores : gmap string Z)
    (id : string) :
  is_Some (scores !! id) -> is_Some (creditWinner w scores !! id).
Proof.
  intros Hsome. unfold creditWinner.
  destruct w as [w|]; [|exact Hsome].
  case_bool_decide; [|exact Hsome].
  destruct (scores !! w) eqn:Hw; [|exact Hsome].
  destruct (decide (w = id)) as [-> | Hne].
  - rewrite lookup_insert_eq. eauto.
  - rewrite lookup_insert_ne by exact Hne. exact Hsome.
Qed.

Lemma killCycle_cycles (state : GameState) (cycleId : string) :
  g_cycles (killCycle state cycleId)
  = map (fun c => if bool_decide (c_id c = cycleId) then markDead c else c)
      (g_cycles state).
Proof. unfold killCycle. cbv zeta. case_bool_decide; reflexivity. Qed.

Lemma killCycle_ids (state : GameState) (cycleId : string) (c : CycleState) :
  In c (g_cycles (killCycle state cycleId)) ->
  exists c0, In c0 (g_cycles state) /\ c_id c0 = c_id c.
Proof.
  rewrite killCycle_cycles, in_map_iff. intros (c0 & <- & Hin).
  exists c0. split; [exact Hin|]. case_bool_decide; reflexivity.
Qed.

(** The transition keeps every cycle tallied. *)
Lemma killCycle_tallied (state : GameState) (cycleId : string) :
  tallied state -> tallied (killCycle state cycleId).
Proof.
  intros Hwf c Hin.
  destruct (killCycle_ids state cycleId c Hin) as (c0 & Hin0 & Hid).
  destruct (Hwf c0 Hin0) as [Hne Hsome]. rewrite <- Hid.
  split; [exact Hne|].
  unfold killCycle. cbv zeta. case_bool_decide; simpl; [|exact Hsome].
  apply creditWinner_keeps, Hsome.
Qed.

(** C4: [killCycle] in phase [playing], on a round whose cycles are all
    tallied.  With exactly one living agent left the phase becomes
    [gameOver], the winner is that agent and its score goes up by exactly
    one, the other tallies unchanged; with none left the phase becomes
    [gameOver], the winner is null and no score changes; with two or more
    left the phase stays [playing] (and winner and scores are
    untouched). *)
Theorem killCycle_outcome :
  forall (state : GameState) (cycleId : string),
    tallied state ->
    g_phase state = playing ->
    let next := killCycle state cycleId in
    let alive := List.filter c_isAlive (g_cycles next) in
    (forall survivor : CycleState,
       alive = [survivor] ->
       g_phase next = gameOver /\
       g_winner next = Some (c_id survivor) /\
       (exists n : Z,
          g_scores state !! c_id survivor = Some n /\
          g_scores next !! c_id survivor = Some (n + 1)%Z) /\
       (forall other : string,
          other <> c_id survivor ->
          g_scores next !! other = g_scores state !! other)) /\
    (alive = [] ->
     g_phase next = gameOver /\ g_winner next = None /\
     g_scores next = g_scores state) /\
    ((2 <= length alive)%nat ->
     g_phase next = playing /\ g_winner next = g_winner state /\
     g_scores next = g_scores state).
Proof.
  intros state cycleId Hwf Hphase next alive.
  assert (Halive : alive = List.filter c_isAlive
            (map (fun c => if bool_decide (c_id c = cycleId)
                           then markDead c else c) (g_cycles state))).
  { unfold alive, next. rewrite killCycle_cycles. reflexivity. }
  split; [|split].
  - intros survivor Hone.
    assert (Hin : In survivor (g_cycles next)).
    { apply (proj1 (filter_In c_isAlive survivor (g_cycles next))).
      fold alive. rewrite Hone. left. reflexivity. }
    destruct (killCycle_ids state cycleId survivor Hin) as (c0 & Hin0 & Hid).
    destruct (Hwf c0 Hin0) as [Hne [n Hn]]. rewrite Hid in Hne, Hn.
    unfold next, killCycle. cbv zeta. rewrite <- Halive, Hone.
    cbn [length head fmap option_fmap option_map creditWinner].
    rewrite (bool_decide_eq_true_2 (1 <= 1)%nat) by lia.
    rewrite (bool_decide_eq_true_2 (1 = 1)%nat) by reflexivity.
    cbn [g_phase g_winner g_scores head fmap option_fmap option_map
         creditWinner].
    rewrite bool_decide_eq_true_2 by exact Hne. rewrite Hn.
    split; [reflexivity|]. split; [reflexivity|]. split.
    + exists n. split; [reflexivity|]. apply lookup_insert_eq.
    + intros other Hother. apply lookup_insert_ne. congruence.
  - intros Hnone. unfold next, killCycle. cbv zeta.
    rewrite <- Halive, Hnone. cbn [length].
    rewrite (bool_decide_eq_true_2 (0 <= 1)%nat) by lia.
    rewrite (bool_decide_eq_false_2 (0 = 1)%nat) by lia. simpl. auto.
  - intros Hmany. unfold next, killCycle. cbv zeta. rewrite <- Halive.
    rewrite bool_decide_eq_false_2 by lia. simpl. auto.
Qed.

Lemma duel_tallied : tallied duel.
Proof.
  intros c Hin. simpl in Hin.
  destruct Hin as [<- | [<- | [<- | []]]]; simpl;
    (split; [discriminate | eexists; reflexivity]).
Qed.

(** In [duel], killing [player] leaves [ai-1] as the sole survivor: it
    wins and its tally goes from 2 to 3. *)
Lemma killCycle_outcome_witness :
  tallied duel /\ g_phase duel = playing /\
  g_phase (killCycle duel "player") = gameOver /\
  g_winner (killCycle duel "player") = Some "ai-1" /\
  g_scores (killCycle duel "player") !! "ai-1" = Some 3%Z.
Proof.
  split; [exact duel_tallied|]. split; [reflexivity|].
  destruct (killCycle_outcome duel "player" duel_tallied eq_refl) as [Hone _].
  destruct (Hone (mkCycle "ai-1" (mkPos 9 9) south PI (-1) false 0 true []
                    false 1 true false 0 0) eq_refl)
    as (Hphase & Hwin & (n & Hn & Hn') & _).
  split; [exact Hphase|]. split; [exact Hwin|].
  cbn [c_id] in Hn, Hn'. rewrite Hn'.
  assert (Htwo : g_scores duel !! "ai-1" = Some 2%Z) by reflexivity.
  rewrite Htwo in Hn. injection Hn as <-. reflexivity.
Defined.

End KillCycle.

(** ** The decision policy: scores *)

Section Scores.
Import CollisionSystem AIController RaySpec PolicySpec.

Lemma raycast_capped (p dir : GridPosition) (maxD : R)
    (cycles : list CycleState) (selfId : string) :
  distance (raycast p dir maxD cycles selfId) <= maxD.
Proof.
  unfold raycast. cbv zeta. simpl.
  destruct (minHitDistance _); simpl; [apply Rmin_r | lra].
Qed.

Lemma countEscapePaths_count (cycle : CycleState) (dir : GridDirection)
    (allCycles : list CycleState) :
  countEscapePaths cycle dir allCycles = openPathCount cycle dir allCycles.
Proof.
  unfold countEscapePaths, openPathCount, ahead. cbv zeta. simpl.
  repeat destruct (bool_decide (_ >= 8)); reflexivity.
Qed.

(** C7: [evaluateAllDirections] scores exactly the three maneuvers
    continue, turn-left and turn-right, in that order; for each, the
    total score is 2.0 * forwardDistance + 8.0 * escapePaths
    + 1.0 * selfTrailDanger, where forwardDistance is the distance
    reported by the ray cast from the agent along the candidate
    direction with maximum 2 * lookAheadDistance (hence at most that),
    escapePaths counts the rays cast in the four cardinal directions from
    the point 8 units along the candidate direction that report at least
    8 units, and selfTrailDanger is [evaluateSelfTrailDanger] for that
    direction. *)
Theorem evaluateAllDirections_scores :
  forall (cycle : CycleState) (allCycles : list CycleState),
    exists ahead_ left_ right_ : DirectionScore,
      evaluateAllDirections cycle allCycles = [ahead_; left_; right_] /\
      (s_turn ahead_ = turn_none /\ s_direction ahead_ = c_direction cycle) /\
      (s_turn left_ = turn_left /\
       s_direction left_ = TURN_LEFT (c_direction cycle)) /\
      (s_turn right_ = turn_right /\
       s_direction right_ = TURN_RIGHT (c_direction cycle)) /\
      Forall
        (fun s =>
           totalScore s
           = 2.0 * forwardDistance s + 8.0 * INR (escapePaths s)
             + 1.0 * selfTrailDanger s /\
           forwardDistance s
           = distance
               (raycast (c_gridPosition cycle)
                  (DIRECTION_VECTORS (s_direction s))
                  (2 * AI_CONFIG.lookAheadDistance) allCycles (c_id cycle)) /\
           forwardDistance s <= 2 * AI_CONFIG.lookAheadDistance /\
           escapePaths s = openPathCount cycle (s_direction s) allCycles /\
           selfTrailDanger s
           = evaluateSelfTrailDanger cycle (s_direction s) allCycles)
        [ahead_; left_; right_].
Proof.
  intros cycle allCycles.
  assert (Hone : forall dir turn,
    let s := evaluateDirection cycle allCycles dir turn in
    totalScore s
    = 2.0 * forwardDistance s + 8.0 * INR (escapePaths s)
      + 1.0 * selfTrailDanger s /\
    forwardDistance s
    = distance
        (raycast (c_gridPosition cycle) (DIRECTION_VECTORS (s_direction s))
           (2 * AI_CONFIG.lookAheadDistance) allCycles (c_id cycle)) /\
    forwardDistance s <= 2 * AI_CONFIG.lookAheadDistance /\
    escapePaths s = openPathCount cycle (s_direction s) allCycles /\
    selfTrailDanger s
    = evaluateSelfTrailDanger cycle (s_direction s) allCycles).
  { intros dir turn. unfold evaluateDirection. cbv zeta. simpl.
    replace (AI_CONFIG.lookAheadDistance * 2)
      with (2 * AI_CONFIG.lookAheadDistance) by lra.
    split; [lra|]. split; [reflexivity|]. split; [apply raycast_capped|].
    split; [apply countEscapePaths_count | reflexivity]. }
  eexists _, _, _. split; [reflexivity|].
  split; [split; reflexivity|]. split; [split; reflexivity|].
  split; [split; reflexivity|].
  constructor; [apply Hone|]. constructor; [apply Hone|].
  constructor; [apply Hone|]. constructor.
Qed.

End Scores.

(** ** The decision policy: throttling *)

Section Throttle.
Import CollisionSystem AIController RaySpec PolicySpec Samples.

(** Case analysis on every branch of [getDecision]. *)
Ltac decision_cases :=
  repeat match goal with
         | |- context [match ?x with _ => _ end] =>
             lazymatch x with
             | context [match _ with _ => _ end] => fail
             | _ => destruct x eqn:?
             end
         end.

Lemma sortScores_three (a b c : DirectionScore) :
  s_turn a = turn_none -> s_turn b <> turn_none -> s_turn c <> turn_none ->
  List.find (fun s => bool_decide (s_turn s = turn_none)) (sortScores [a; b; c])
  = Some a /\
  sortScores [a; b; c] <> [].
Proof.
  destruct a as [da ta fa ea sa xa], b as [db tb fb eb sb xb],
    c as [dc tc fc ec sc xc].
  simpl. intros -> Hb Hc.
  destruct tb; try congruence; destruct tc; try congruence;
    unfold sortScores; simpl;
    repeat (case_bool_decide; simpl); split; (reflexivity || discriminate).
Qed.

Lemma sortScores_forward (cycle : CycleState) (allCycles : list CycleState) :
  List.find (fun s => bool_decide (s_turn s = turn_none))
    (sortScores (evaluateAllDirections cycle allCycles))
  = Some (evaluateDirection cycle allCycles (c_direction cycle) turn_none).
Proof. apply sortScores_three; [reflexivity | discriminate | discriminate]. Qed.

Lemma sortScores_nonempty (cycle : CycleState) (allCycles : list CycleState) :
  sortScores (evaluateAllDirections cycle allCycles) <> [].
Proof.
  apply (sortScores_three
           (evaluateDirection cycle allCycles (c_direction cycle) turn_none));
    [reflexivity | discriminate | discriminate].
Qed.

Lemma betterOption_turn (boxedIn : bool) (scores : list DirectionScore)
    (forward better : DirectionScore) :
  (if boxedIn
   then List.find
          (fun s =>
             bool_decide (s_turn s <> turn_none)
             && bool_decide (escapePaths s > escapePaths forward)%nat)
          scores
   else None) = Some better ->
  s_turn better <> turn_none.
Proof.
  destruct boxedIn; [|discriminate]. intros Hfind.
  apply find_some in Hfind as [_ Hprop].
  apply andb_true_iff in Hprop as [Hturn _].
  apply bool_decide_eq_true in Hturn. exact Hturn.
Qed.

(** [getDecision] always returns: neither [scores[0]] nor the forward
    option can be missing. *)
Lemma getDecision_defined (env : Env) (times : gmap string R)
    (cycle : CycleState) (allCycles : list CycleState) (t : R) :
  is_Some (getDecision env times cycle allCycles t).
Proof.
  unfold getDecision. cbv zeta.
  pose proof (sortScores_forward cycle allCycles) as Hfwd.
  pose proof (sortScores_nonempty cycle allCycles) as Hne.
  destruct (sortScores (evaluateAllDirections cycle allCycles))
    as [|best rest]; [congruence|].
  rewrite Hfwd. decision_cases; eauto.
Qed.

(** A call leaves the map alone or stamps the caller with the current
    time, and it stamps only when the throttle interval has elapsed. *)
Lemma getDecision_times (env : Env) (times times' : gmap string R)
    (cycle : CycleState) (allCycles : list CycleState) (t : R)
    (dec : AIDecision) :
  getDecision env times cycle allCycles t = Some (dec, times') ->
  (dec = noDecision /\ times' = times) \/
  ((d_turn dec <> turn_none \/ d_jump dec = true) /\
   times' = <[c_id cycle := t]> times /\
   AI_CONFIG.decisionInterval <= t - default 0 (times !! c_id cycle)).
Proof.
  unfold getDecision. cbv zeta.
  case_bool_decide as Hthrottle.
  { intros [= <- <-]. left. split; reflexivity. }
  assert (Helapsed :
    AI_CONFIG.decisionInterval <= t - default 0 (times !! c_id cycle))
    by lra.
  pose proof (sortScores_forward cycle allCycles) as Hfwd.
  destruct (sortScores (evaluateAllDirections cycle allCycles))
    as [|best rest] eqn:Hsorted; [discriminate|].
  rewrite Hfwd. clear Hfwd.
  set (forward := evaluateDirection cycle allCycles (c_direction cycle)
                    turn_none).
  set (jumpNow := shouldJump env cycle allCycles (forwardDistance forward)).
  case_bool_decide as Hclose.
  - destruct (jumpNow && negb (c_isJumping cycle)).
    { intros [= <- <-]. right. simpl. auto. }
    destruct (List.filter _ (best :: rest)) as [|opt opts] eqn:Hopts.
    + intros [= <- <-]. right. simpl. split; [|auto].
      left. case_bool_decide; discriminate.
    + intros [= <- <-]. right. simpl. split; [|auto]. left.
      assert (Hin : In opt (List.filter
                (fun s => bool_decide (s_turn s <> turn_none))
                (best :: rest))) by (rewrite Hopts; left; reflexivity).
      apply filter_In in Hin as [_ Hturn].
      apply bool_decide_eq_true in Hturn. exact Hturn.
  - destruct (bool_decide (s_turn best <> turn_none)) eqn:Hbest;
      cbn [andb].
    + apply bool_decide_eq_true in Hbest.
      case_bool_decide.
      { intros [= <- <-]. right. simpl. auto. }
      match goal with
      | |- context [match ?o with Some _ => _ | None => _ end] =>
          destruct o as [better|] eqn:Hbetter
      end.
      { intros [= <- <-]. right. cbn [d_turn d_jump]. split; [|auto]. left.
        exact (betterOption_turn _ _ _ _ Hbetter). }
      destruct (_ && bool_decide (_ > 3)).
      { intros [= <- <-]. right. simpl. auto. }
      destruct (_ && bool_decide (random_strategic env < 0.2)).
      { intros [= <- <-]. right. simpl. auto. }
      intros [= <- <-]. left. split; reflexivity.
    + match goal with
      | |- context [match ?o with Some _ => _ | None => _ end] =>
          destruct o as [better|] eqn:Hbetter
      end.
      { intros [= <- <-]. right. cbn [d_turn d_jump]. split; [|auto]. left.
        exact (betterOption_turn _ _ _ _ Hbetter). }
      rewrite andb_false_r. cbn [andb].
      destruct (_ && bool_decide (random_strategic env < 0.2)).
      { intros [= <- <-]. right. simpl. auto. }
      intros [= <- <-]. left. split; reflexivity.
Qed.

Lemma getDecision_throttled (env : Env) (times : gmap string R)
    (cycle : CycleState) (allCycles : list CycleState) (t last : R) :
  times !! c_id cycle = Some last ->
  t - last < AI_CONFIG.decisionInterval ->
  getDecision env times cycle allCycles t = Some (noDecision, times).
Proof.
  intros Hlast Hsoon. unfold getDecision. cbv zeta. rewrite Hlast.
  cbn [default]. rewrite bool_decide_eq_true_2 by exact Hsoon. reflexivity.
Qed.

(** A stamp never moves back in time. *)
Lemma afterCall_later (times : gmap string R) (call : Call) (id : string)
    (t0 : R) :
  times !! id = Some t0 ->
  exists t1, afterCall times call !! id = Some t1 /\ t0 <= t1.
Proof.
  intros Hid. unfold afterCall.
  destruct (getDecision _ _ _ _ _) as [[dec times']|] eqn:Hcall;
    [|exists t0; split; [exact Hid | lra]].
  apply getDecision_times in Hcall
    as [[_ ->] | (_ & -> & Helapsed)];
    [exists t0; split; [exact Hid | lra]|].
  destruct (decide (c_id (call_cycle call) = id)) as [Hsame | Hother].
  - rewrite Hsame in *. rewrite lookup_insert_eq.
    exists (call_time call). split; [reflexivity|].
    rewrite Hid in Helapsed. simpl in Helapsed.
    unfold AI_CONFIG.decisionInterval in Helapsed. lra.
  - rewrite lookup_insert_ne by exact Hother.
    exists t0. split; [exact Hid | lra].
Qed.

Lemma afterCalls_later (calls : list Call) (times : gmap string R)
    (id : string) (t0 : R) :
  times !! id = Some t0 ->
  exists t1, afterCalls times calls !! id = Some t1 /\ t0 <= t1.
Proof.
  revert times t0. unfold afterCalls.
  induction calls as [|call calls IH]; intros times t0 Hid.
  - exists t0. split; [exact Hid | lra].
  - simpl. destruct (afterCall_later times call id t0 Hid) as (t1 & H1 & Hle).
    destruct (IH _ _ H1) as (t2 & H2 & Hle2).
    exists t2. split; [exact H2 | lra].
Qed.

(** C9: when [getDecision] for an agent at time [t] returns a turn or a
    jump, it records [t] as that agent's last decision time; from then
    on, whatever other calls are made on the controller (short of
    [reset]), every call for the same agent at a time [t'] with
    [t' - t < decisionInterval] returns turn none, urgency 0, jump false
    and leaves the map as it is. *)
Theorem getDecision_throttle :
  forall (env : Env) (times : gmap string R) (cycle : CycleState)
         (allCycles : list CycleState) (t : R) (dec : AIDecision)
         (times' : gmap string R),
    getDecision env times cycle allCycles t = Some (dec, times') ->
    (d_turn dec <> turn_none \/ d_jump dec = true) ->
    times' !! c_id cycle = Some t /\
    forall (calls : list Call) (env' : Env) (cycle' : CycleState)
           (allCycles' : list CycleState) (t' : R),
      c_id cycle' = c_id cycle ->
      t' - t < AI_CONFIG.decisionInterval ->
      getDecision env' (afterCalls times' calls) cycle' allCycles' t'
      = Some (mkDecision turn_none 0 false, afterCalls times' calls).
Proof.
  intros env times cycle allCycles t dec times' Hcall Hact.
  assert (Hstamp : times' !! c_id cycle = Some t).
  { apply getDecision_times in Hcall as [[-> _] | (_ & -> & _)].
    - destruct Hact as [Hturn | Hjump]; [contradiction Hturn; reflexivity|].
      discriminate Hjump.
    - apply lookup_insert_eq. }
  split; [exact Hstamp|].
  intros calls env' cycle' allCycles' t' Hid Hsoon.
  destruct (afterCalls_later calls times' (c_id cycle) t Hstamp)
    as (t1 & Hlater & Hle).
  apply (getDecision_throttled _ _ _ _ _ t1).
  - rewrite Hid. exact Hlater.
  - lra.
Qed.

(** When the way ahead is shorter than [minTurnDistance] and the
    interval has elapsed, [getDecision] commits a turn or a jump. *)
Lemma getDecision_forced (env : Env) (times : gmap string R)
    (cycle : CycleState) (allCycles : list CycleState) (t : R) :
  AI_CONFIG.decisionInterval <= t - default 0 (times !! c_id cycle) ->
  distance
    (raycast (c_gridPosition cycle) (DIRECTION_VECTORS (c_direction cycle))
       (AI_CONFIG.lookAheadDistance * 2) allCycles (c_id cycle))
  < AI_CONFIG.minTurnDistance ->
  exists dec,
    getDecision env times cycle allCycles t
    = Some (dec, <[c_id cycle := t]> times) /\
    (d_turn dec <> turn_none \/ d_jump dec = true).
Proof.
  intros Helapsed Hclose. unfold getDecision. cbv zeta.
  rewrite bool_decide_eq_false_2 by lra.
  pose proof (sortScores_forward cycle allCycles) as Hfwd.
  pose proof (sortScores_nonempty cycle allCycles) as Hne.
  destruct (sortScores (evaluateAllDirections cycle allCycles))
    as [|best rest]; [congruence|].
  rewrite Hfwd. clear Hfwd.
  unfold evaluateDirection at 2. cbv zeta. cbn [forwardDistance].
  rewrite bool_decide_eq_true_2 by exact Hclose.
  destruct (_ && negb (c_isJumping cycle)).
  { eexists. split; [reflexivity|]. right. reflexivity. }
  destruct (List.filter _ (best :: rest)) as [|opt opts] eqn:Hopts.
  - eexists. split; [reflexivity|]. left. cbn [d_turn].
    case_bool_decide; discriminate.
  - eexists. split; [reflexivity|]. left. cbn [d_turn].
    assert (Hin : In opt (List.filter
              (fun s => bool_decide (s_turn s <> turn_none))
              (best :: rest))) by (rewrite Hopts; left; reflexivity).
    apply filter_In in Hin as [_ Hturn].
    apply bool_decide_eq_true in Hturn. exact Hturn.
Qed.

Lemma scout_forward :
  raycast (c_gridPosition scout) (DIRECTION_VECTORS (c_direction scout))
    (AI_CONFIG.lookAheadDistance * 2) [scout] (c_id scout)
  = mkHit 1.6 (Some wall).
Proof.
  change (c_gridPosition scout) with (mkPos 0 (-62)).
  change (c_direction scout) with north. change (c_id scout) with "ai-1".
  rewrite raycast_clear by (intros k _ _ _; reflexivity).
  f_equal. unfold analyticWallDistance, AI_CONFIG.lookAheadDistance.
  rewrite inset_limit. simpl. rsolve.
Qed.

(** [scout] must act at time 100; whatever it decided, a call at time 130
    is throttled, also after another throttled call at time 110. *)
Lemma getDecision_throttle_witness :
  exists dec : AIDecision,
    getDecision calmEnv ∅ scout [scout] 100
    = Some (dec, <["ai-1" := 100]> ∅) /\
    (d_turn dec <> turn_none \/ d_jump dec = true) /\
    getDecision calmEnv
      (afterCalls (<["ai-1" := 100]> ∅) [mkCall calmEnv scout [scout] 110])
      scout [scout] 130
    = Some (mkDecision turn_none 0 false,
            afterCalls (<["ai-1" := 100]> ∅)
              [mkCall calmEnv scout [scout] 110]).
Proof.
  destruct (getDecision_forced calmEnv ∅ scout [scout] 100)
    as (dec & Hdec & Hact).
  - rewrite lookup_empty. unfold AI_CONFIG.decisionInterval. simpl. lra.
  - rewrite scout_forward. unfold AI_CONFIG.minTurnDistance. simpl. lra.
  - exists dec. split; [exact Hdec|]. split; [exact Hact|].
    apply (getDecision_throttle calmEnv ∅ scout [scout] 100 dec
             (<["ai-1" := 100]> ∅) Hdec Hact);
      [reflexivity | unfold AI_CONFIG.decisionInterval; lra].
Defined.

End Throttle.

(** ** The decision policy: self-trail danger *)

Section SelfTrailDanger.
Import CollisionSystem AIController RaySpec PolicySpec Samples.

Lemma marchFuel_10 : marchFuel 10 = 21%nat.
Proof.
  unfold marchFuel.
  rewrite <- (tech_up (10 / step) 21); [reflexivity | |];
    unfold step; simpl; lra.
Qed.

Lemma marchLoop_stop (fuel : nat) (p dir : GridPosition) (maxD : R)
    (cycles : list CycleState) (selfId : string) (d : R) (st : RayState) :
  bool_decide (d <= maxD) && lt_xnum d (minHitDistance st) = false ->
  marchLoop fuel p dir maxD cycles selfId d st = st.
Proof. intros Hguard. destruct fuel; simpl; [|rewrite Hguard]; reflexivity. Qed.

Lemma marchLoop_go (fuel : nat) (p dir : GridPosition) (maxD : R)
    (cycles : list CycleState) (selfId : string) (d : R) (st : RayState) :
  bool_decide (d <= maxD) && lt_xnum d (minHitDistance st) = true ->
  marchLoop (S fuel) p dir maxD cycles selfId d st
  = marchLoop fuel p dir maxD cycles selfId (d + step)
      (stepBody p dir cycles selfId d st).
Proof. intros Hguard. simpl. rewrite Hguard. reflexivity. Qed.

(** The ray cast to the east stops at the wall before its first sample. *)
Lemma boxedAgent_east :
  raycast (mkPos 63.3 0) (DIRECTION_VECTORS east) 10 [boxedAgent; neighbour]
    "ai-1"
  = mkHit 0.3 (Some wall).
Proof.
  unfold raycast. cbv zeta. rewrite raycastWall_cardinal.
  cbn [xnum_lt lt_xnum minHitDistance].
  assert (Hwall : analyticWallDistance (mkPos 63.3 0) east = 0.3).
  { unfold analyticWallDistance. rewrite inset_limit. simpl. lra. }
  rewrite Hwall, marchLoop_stop.
  - simpl. f_equal. rsolve.
  - simpl. unfold step. rcases.
Qed.

(** The ray cast to the west meets the neighbour's segment at its first
    sample point, (62.8, 0). *)
Lemma boxedAgent_west :
  raycast (mkPos 63.3 0) (DIRECTION_VECTORS west) 10 [boxedAgent; neighbour]
    "ai-1"
  = mkHit 0.5 (Some trail).
Proof.
  unfold raycast. cbv zeta. rewrite raycastWall_cardinal.
  cbn [xnum_lt lt_xnum minHitDistance].
  assert (Hwall : analyticWallDistance (mkPos 63.3 0) west = 126.9).
  { unfold analyticWallDistance. rewrite inset_limit. simpl. lra. }
  rewrite Hwall, marchFuel_10.
  rewrite (marchLoop_go 20) by (simpl; unfold step; rcases).
  assert (Hfirst :
    stepBody (mkPos 63.3 0) (DIRECTION_VECTORS west) [boxedAgent; neighbour]
      "ai-1" step (mkRay (Fin 126.9) (Some wall))
    = mkRay (Fin step) (Some trail)).
  { unfold stepBody, cycleBody, segmentLoop, recordHit, rayTrail, dropRecent,
      pointIntersectsSegment, TRAIL_WIDTH, CYCLE_RADIUS, step.
    simpl. rsolve. }
  rewrite Hfirst.
  rewrite marchLoop_stop by (simpl; unfold step; rcases).
  simpl. f_equal. unfold step. rsolve.
Qed.

(** *** Where the code and the specification agree *)

Lemma proximity_fold (D : TrailSegment -> R) (segs : list TrailSegment)
    (danger : R) :
  fold_left
    (fun danger segment =>
       if bool_decide (D segment < 3) then danger - (10 - D segment * 2)
       else danger)
    segs danger
  = danger
    + sum (map (fun segment =>
                  if bool_decide (D segment < 3) then - (10 - 2 * D segment)
                  else 0) segs).
Proof.
  revert danger. induction segs as [|seg segs IH]; intros danger; simpl.
  - lra.
  - rewrite IH. case_bool_decide; lra.
Qed.

Lemma samples_fold (P : R -> TrailSegment -> R) (segs : list TrailSegment)
    (dists : list R) (danger : R) :
  fold_left
    (fun danger dist =>
       fold_left
         (fun danger segment =>
            if bool_decide (P dist segment < 3)
            then danger - (10 - P dist segment * 2)
            else danger)
         segs danger)
    dists danger
  = danger
    + sum (map (fun dist =>
                  sum (map (fun segment =>
                              if bool_decide (P dist segment < 3)
                              then - (10 - 2 * P dist segment)
                              else 0) segs)) dists).
Proof.
  revert danger. induction dists as [|dist dists IH]; intros danger; simpl.
  - lra.
  - rewrite IH, proximity_fold. lra.
Qed.

(** With no trail but the agent's own in play, a side ray that reports a
    trail within 5 units has met the agent's own trail. *)
Lemma side_hit_own (cycle : CycleState) (sideDir : GridDirection)
    (allCycles : list CycleState) :
  (forall c, In c allCycles -> c_isAlive c = true ->
     c_id c <> c_id cycle -> c_trail c = []) ->
  (forall c, In c allCycles -> c_id c = c_id cycle ->
     c_trail c = c_trail cycle) ->
  bool_decide
    (distance (raycast (c_gridPosition cycle) (DIRECTION_VECTORS sideDir) 10
                 allCycles (c_id cycle)) < 5)
  && bool_decide
       (hit_type (raycast (c_gridPosition cycle) (DIRECTION_VECTORS sideDir)
                    10 allCycles (c_id cycle)) = Some trail)
  = hitsOwnTrail cycle sideDir allCycles.
Proof.
  intros Hforeign Hown. unfold hitsOwnTrail. cbv zeta.
  destruct (bool_decide (_ < 5)); [|reflexivity]. cbn [andb].
  case_bool_decide as Hty; [|reflexivity]. cbn [andb]. symmetry.
  destruct (raycast_trail_backed _ _ _ _ _ Hty)
    as (c & seg & Hin & Halive & Hseg & Hhit).
  apply existsb_exists. exists seg. split; [|exact Hhit].
  destruct (decide (c_id c = c_id cycle)) as [Hid | Hid].
  - unfold rayTrail in *.
    rewrite bool_decide_eq_true_2 in Hseg by exact Hid.
    rewrite bool_decide_eq_true_2 by reflexivity.
    rewrite <- (Hown c Hin Hid). exact Hseg.
  - unfold rayTrail in Hseg.
    rewrite bool_decide_eq_false_2 in Hseg by exact Hid.
    rewrite (Hforeign c Hin Halive Hid) in Hseg. destruct Hseg.
Qed.

(** When every other living agent has an empty trail, and the agent
    appears in the list with the trail it is evaluated with,
    [evaluateSelfTrailDanger] is the danger the specification
    describes. *)
Lemma evaluateSelfTrailDanger_alone (cycle : CycleState)
    (direction : GridDirection) (allCycles : list CycleState) :
  (forall c, In c allCycles -> c_isAlive c = true ->
     c_id c <> c_id cycle -> c_trail c = []) ->
  (forall c, In c allCycles -> c_id c = c_id cycle ->
     c_trail c = c_trail cycle) ->
  evaluateSelfTrailDanger cycle direction allCycles
  = claimedSelfTrailDanger cycle direction allCycles.
Proof.
  intros Hforeign Hown. unfold evaluateSelfTrailDanger. cbv zeta.
  case_bool_decide as Hshort.
  - unfold claimedSelfTrailDanger, hitsOwnTrail, rayTrail. cbv zeta.
    rewrite bool_decide_eq_true_2 by reflexivity.
    rewrite !dropRecent_short by lia.
    cbn [existsb map sum fold_right]. rewrite !andb_false_r. lra.
  - rewrite (samples_fold
               (fun dist segment =>
                  distanceToSegment
                    (mkPos
                       (pos_x (c_gridPosition cycle)
                        + pos_x (DIRECTION_VECTORS direction) * dist)
                       (pos_z (c_gridPosition cycle)
                        + pos_z (DIRECTION_VECTORS direction) * dist))
                    segment)).
    cbn [fold_left]. rewrite !side_hit_own by assumption.
    unfold claimedSelfTrailDanger, ahead. cbv zeta.
    cbn [map sum fold_right].
    destruct (hitsOwnTrail cycle (TURN_LEFT direction) allCycles),
      (hitsOwnTrail cycle (TURN_RIGHT direction) allCycles); lra.
Qed.

(** C8 at a failing input: [boxedAgent]'s own trail is nowhere near it
    (a ray it casts tests none of its own segments, and it has no
    segment older than the last four), so the danger described by the
    specification is 0; [evaluateSelfTrailDanger] returns -5, because
    the side ray to the west reports the neighbour's trail. *)
Theorem evaluateSelfTrailDanger_foreign_trail :
  rayTrail "ai-1" boxedAgent = [] /\
  dropRecent 4 (c_trail boxedAgent) = [] /\
  claimedSelfTrailDanger boxedAgent north [boxedAgent; neighbour] = 0 /\
  evaluateSelfTrailDanger boxedAgent north [boxedAgent; neighbour] = -5.
Proof.
  split; [reflexivity|]. split; [reflexivity|]. split.
  - unfold claimedSelfTrailDanger, hitsOwnTrail. cbv zeta.
    change (rayTrail (c_id boxedAgent) boxedAgent) with (@nil TrailSegment).
    change (dropRecent 4 (c_trail boxedAgent)) with (@nil TrailSegment).
    cbn [existsb map sum fold_right]. rewrite !andb_false_r. lra.
  - unfold evaluateSelfTrailDanger. cbv zeta.
    change (length (c_trail boxedAgent)) with 3%nat.
    rewrite (bool_decide_eq_false_2 (3 < 3)%nat) by lia.
    change (dropRecent 4 (c_trail boxedAgent)) with (@nil TrailSegment).
    change (c_gridPosition boxedAgent) with (mkPos 63.3 0).
    change (c_id boxedAgent) with "ai-1".
    cbn [fold_left TURN_LEFT TURN_RIGHT].
    rewrite boxedAgent_west, boxedAgent_east.
    cbn [distance hit_type].
    rewrite (bool_decide_eq_true_2 (0.5 < 5)) by lra.
    rewrite (bool_decide_eq_true_2 (Some trail = Some trail)) by reflexivity.
    rewrite (bool_decide_eq_false_2 (Some wall = Some trail))
      by discriminate.
    rewrite andb_false_r. cbn [andb]. lra.
Qed.

End SelfTrailDanger.

(** * Further properties of the engine *)

(** ** Grid and motion math *)

Section GridSystemMore.
Import GridSystem CollisionSystem.

(** X1: a move along any angle displaces the position by exactly the
    absolute value of the requested distance. *)
Theorem moveForwardAngle_distance :
  forall (p : GridPosition) (angle t : R),
    GridSystem.distance p (moveForwardAngle p angle t) = Rabs t.
Proof.
  intros p angle t. unfold GridSystem.distance, moveForwardAngle.
  cbv zeta. cbn [pos_x pos_z].
  replace ((pos_x p + sin angle * t - pos_x p)
           * (pos_x p + sin angle * t - pos_x p)
           + (pos_z p - cos angle * t - pos_z p)
             * (pos_z p - cos angle * t - pos_z p))
    with (Rsqr t * (Rsqr (sin angle) + Rsqr (cos angle)))
    by (unfold Rsqr; ring).
  rewrite sin2_cos2, Rmult_1_r. apply sqrt_Rsqr_abs.
Qed.

(** X2: motion does not depend on how time is cut into ticks: moving for
    [dt1] and then for [dt2] at the same angle and speed reaches the
    position of one move for [dt1 + dt2]. *)
Theorem moveForwardAngle_ticks :
  forall (p : GridPosition) (angle speed dt1 dt2 : R),
    moveForwardAngle
      (moveForwardAngle p angle (calculateMovement dt1 speed)) angle
      (calculateMovement dt2 speed)
    = moveForwardAngle p angle (calculateMovement (dt1 + dt2) speed).
Proof.
  intros p angle speed dt1 dt2.
  unfold moveForwardAngle, calculateMovement. cbn [pos_x pos_z].
  f_equal; lra.
Qed.

Lemma isInBounds_true (p : GridPosition) (margin : R) :
  isInBounds p margin = true <->
  - (ARENA_HALF - margin) <= pos_x p <= ARENA_HALF - margin /\
  - (ARENA_HALF - margin) <= pos_z p <= ARENA_HALF - margin.
Proof.
  unfold isInBounds. cbv zeta.
  rewrite !andb_true_iff, !bool_decide_eq_true. lra.
Qed.

(** X3: for a margin of at most [ARENA_HALF], [clampToBounds] always
    lands inside the bounds of that margin, and it moves a position
    exactly when the position is outside them. *)
Theorem clampToBounds_inBounds :
  forall (p : GridPosition) (margin : R),
    margin <= ARENA_HALF ->
    isInBounds (clampToBounds p margin) margin = true /\
    (clampToBounds p margin = p <-> isInBounds p margin = true).
Proof.
  intros [x z] margin Hmargin. rewrite !isInBounds_true.
  unfold clampToBounds. cbv zeta. cbn [pos_x pos_z].
  set (m := ARENA_HALF - margin) in *. assert (Hm : 0 <= m) by (unfold m; lra).
  split.
  - unfold Rmax, Rmin. repeat destruct (Rle_dec _ _); lra.
  - split.
    + intros [= Hx Hz]. revert Hx Hz. unfold Rmax, Rmin.
      repeat destruct (Rle_dec _ _); lra.
    + intros [Hx Hz]. f_equal; unfold Rmax, Rmin;
        repeat destruct (Rle_dec _ _); lra.
Qed.

Lemma clampToBounds_inBounds_witness :
  0.5 <= ARENA_HALF /\
  isInBounds (clampToBounds (mkPos 100 (-3)) 0.5) 0.5 = true.
Proof.
  assert (H : 0.5 <= ARENA_HALF) by (rewrite ARENA_HALF_value; lra).
  split; [exact H|].
  apply (clampToBounds_inBounds (mkPos 100 (-3)) 0.5 H).
Defined.

(** A wall collision is exactly being out of bounds for a margin of
    one cycle radius. *)
Theorem checkWallCollision_isInBounds :
  forall p : GridPosition,
    checkWallCollision p = negb (isInBounds p CYCLE_RADIUS).
Proof.
  intros p. destruct (isInBounds p CYCLE_RADIUS) eqn:Hin; simpl.
  - apply not_true_iff_false. rewrite checkWallCollision_true.
    apply isInBounds_true in Hin. lra.
  - apply checkWallCollision_true.
    apply not_true_iff_false in Hin. rewrite isInBounds_true in Hin. lra.
Qed.

(** X4: along a cardinal direction the wall distance a ray uses is
    [distanceToWall] less one cycle radius, and a move of
    [distanceToWall] along that direction ends exactly on the arena
    wall. *)
Theorem distanceToWall_raycastWall :
  forall (p : GridPosition) (d : GridDirection),
    raycastWall p (DIRECTION_VECTORS d)
    = Fin (distanceToWall p d - CYCLE_RADIUS) /\
    match d with
    | north => pos_z (moveForward p d (distanceToWall p d)) = - ARENA_HALF
    | south => pos_z (moveForward p d (distanceToWall p d)) = ARENA_HALF
    | east => pos_x (moveForward p d (distanceToWall p d)) = ARENA_HALF
    | west => pos_x (moveForward p d (distanceToWall p d)) = - ARENA_HALF
    end.
Proof.
  intros p d. split.
  - rewrite raycastWall_cardinal. f_equal.
    unfold RaySpec.analyticWallDistance, distanceToWall. destruct d; lra.
  - unfold moveForward, distanceToWall. destruct d; simpl; lra.
Qed.

Lemma jsFloor_bounds (x : R) : jsFloor x <= x < jsFloor x + 1.
Proof.
  unfold jsFloor. destruct (base_Int_part x) as [Hle Hgt]. lra.
Qed.

Lemma jsFloor_integer (n : Z) (x : R) :
  IZR n <= x < IZR n + 1 -> jsFloor x = IZR n.
Proof.
  intros Hx. unfold jsFloor. f_equal. symmetry. apply Int_part_spec. lra.
Qed.

(** X5: [snapToGrid] moves each coordinate by at most half a cell, and
    snapping twice is snapping once. *)
Theorem snapToGrid_nearest :
  forall p : GridPosition,
    Rabs (pos_x (snapToGrid p) - pos_x p) <= 0.5 /\
    Rabs (pos_z (snapToGrid p) - pos_z p) <= 0.5 /\
    snapToGrid (snapToGrid p) = snapToGrid p.
Proof.
  intros [x z]. unfold snapToGrid, jsRound, CELL_SIZE. cbn [pos_x pos_z].
  pose proof (jsFloor_bounds (x / 1 + 0.5)) as Hx.
  pose proof (jsFloor_bounds (z / 1 + 0.5)) as Hz.
  split; [apply Rabs_le; lra|]. split; [apply Rabs_le; lra|].
  f_equal.
  - rewrite (jsFloor_integer (Int_part (x / 1 + 0.5))) at 1;
      [unfold jsFloor; lra|].
    unfold jsFloor. lra.
  - rewrite (jsFloor_integer (Int_part (z / 1 + 0.5))) at 1;
      [unfold jsFloor; lra|].
    unfold jsFloor. lra.
Qed.

(** A position lies in the unit cell [getGridCell] names, and two
    positions are in the same cell exactly when [sameCell] says so. *)
Theorem getGridCell_contains :
  forall p : GridPosition,
    (pos_x (getGridCell p) <= pos_x p < pos_x (getGridCell p) + 1 /\
     pos_z (getGridCell p) <= pos_z p < pos_z (getGridCell p) + 1) /\
    forall q : GridPosition,
      sameCell p q = true <->
      (pos_x (getGridCell p) <= pos_x q < pos_x (getGridCell p) + 1 /\
       pos_z (getGridCell p) <= pos_z q < pos_z (getGridCell p) + 1).
Proof.
  intros [x z]. unfold sameCell, getGridCell, CELL_SIZE. cbv zeta.
  cbn [pos_x pos_z].
  pose proof (jsFloor_bounds (x / 1)) as Hx.
  pose proof (jsFloor_bounds (z / 1)) as Hz.
  split; [lra|]. intros [x' z']. cbn [pos_x pos_z].
  pose proof (jsFloor_bounds (x' / 1)) as Hx'.
  pose proof (jsFloor_bounds (z' / 1)) as Hz'.
  rewrite andb_true_iff, !bool_decide_eq_true. split.
  - intros [Ex Ez]. lra.
  - intros [Bx Bz]. split; symmetry; unfold jsFloor at 2;
      apply jsFloor_integer; unfold jsFloor in *; lra.
Qed.

End GridSystemMore.

Section LinePositions.
Import GridSystem.

Lemma line_guard (length step : R) (k : nat) :
  0 < step -> (1 <= k)%nat ->
  INR k * step <= length <->
  (k <= Z.to_nat (Int_part (length / step)))%nat.
Proof.
  intros Hstep Hk.
  destruct (base_Int_part (length / step)) as [Hlo Hhi].
  assert (Hq : INR k * step <= length <-> INR k <= length / step).
  { split; intros H.
    - apply (Rmult_le_reg_r step); [exact Hstep|].
      replace (length / step * step) with length by (field; lra). exact H.
    - apply (Rmult_le_compat_r step) in H; [|lra].
      replace (length / step * step) with length in H by (field; lra).
      exact H. }
  rewrite Hq, INR_IZR_INZ. split.
  - intros H.
    assert (Hlt : IZR (Z.of_nat k) < IZR (Int_part (length / step) + 1)).
    { rewrite plus_IZR. lra. }
    apply lt_IZR in Hlt. lia.
  - intros H.
    assert (Hle : (Z.of_nat k <= Int_part (length / step))%Z) by lia.
    apply IZR_le in Hle. lra.
Qed.

Lemma lineLoop_closed (fuel j : nat) (start vector : GridPosition)
    (length step : R) :
  0 < step -> (1 <= j)%nat ->
  (Z.to_nat (Int_part (length / step)) < j + fuel)%nat ->
  lineLoop fuel start vector length step (INR j * step)
  = map (fun k =>
           mkPos (pos_x start + pos_x vector * (INR k * step))
                 (pos_z start + pos_z vector * (INR k * step)))
      (seq j (Z.to_nat (Int_part (length / step)) + 1 - j)).
Proof.
  intros Hstep. set (N := Z.to_nat (Int_part (length / step))).
  revert j. induction fuel as [|fuel IH]; intros j Hj Hfuel.
  - replace (N + 1 - j)%nat with 0%nat by lia. reflexivity.
  - simpl. case_bool_decide as Hguard.
    + apply line_guard in Hguard; [|assumption..]. fold N in Hguard.
      replace (N + 1 - j)%nat with (S (N - j)) by lia. simpl. f_equal.
      replace (INR j * step + step) with (INR (S j) * step)
        by (rewrite S_INR; lra).
      rewrite IH by lia. f_equal. f_equal. lia.
    + rewrite line_guard in Hguard by assumption. fold N in Hguard.
      replace (N + 1 - j)%nat with 0%nat by lia. reflexivity.
Qed.

(** Over exact reals: with a positive step, the positions at the
    distances [step], [2 * step], ... up to the last multiple of [step]
    that does not exceed [length]. *)
Lemma getLinePositions_floor (start : GridPosition)
    (direction : GridDirection) (length step : R) :
  0 < step ->
  getLinePositions start direction length step
  = Some (map (fun k => moveForward start direction (INR k * step))
            (seq 1 (Z.to_nat (Int_part (length / step))))).
Proof.
  intros Hstep. unfold getLinePositions.
  cbv zeta. rewrite bool_decide_eq_false_2 by lra. f_equal.
  replace step with (INR 1 * step) at 3 by (simpl; lra).
  rewrite lineLoop_closed; [| exact Hstep | lia |].
  - replace (Z.to_nat (Int_part (length / step)) + 1 - 1)%nat
      with (Z.to_nat (Int_part (length / step))) by lia.
    reflexivity.
  - unfold Int_part. lia.
Qed.

(** X6: with a positive step, [getLinePositions] returns, in order, the
    positions [moveForward] reaches at the distances [step], [2 * step],
    ..., [n * step], where [n * step] is the last multiple of [step]
    that does not exceed [length].  The statement is for an [n] of at
    most a million and a [length] that is not within a thousandth of a
    step of a multiple of [step]: there the rounding of [d += step] in
    the source cannot change the count (on a multiple it can: for length
    0.3 and step 0.1 the source's third [d] is 0.30000000000000004 and
    only two positions are returned). *)
Theorem getLinePositions_closed :
  forall (start : GridPosition) (direction : GridDirection)
         (length step : R) (n : nat),
    0 < step -> INR n <= 1000000 ->
    (INR n + 1 / 1000) * step <= length <= (INR n + 999 / 1000) * step ->
    getLinePositions start direction length step
    = Some (map (fun k => moveForward start direction (INR k * step))
              (seq 1 n)).
Proof.
  intros start direction length step n Hstep _ [Hlo Hhi].
  rewrite getLinePositions_floor by exact Hstep.
  assert (Hq : length = length / step * step) by (field; lra).
  assert (Hn : Z.of_nat n = Int_part (length / step)).
  { apply Int_part_spec. rewrite <- INR_IZR_INZ.
    set (q := length / step) in *. split; nra. }
  rewrite <- Hn, Nat2Z.id. reflexivity.
Qed.

Lemma getLinePositions_closed_witness :
  getLinePositions (mkPos 0 0) east 5 2
  = Some (map (fun k => moveForward (mkPos 0 0) east (INR k * 2))
            (seq 1 2)).
Proof.
  apply (getLinePositions_closed (mkPos 0 0) east 5 2 2).
  - lra.
  - simpl. lra.
  - simpl. lra.
Defined.

End LinePositions.

(** ** Angles *)

Section Angles.

Lemma wrapFuel_enough (excess : R) : INR (wrapFuel excess) * (PI * 2) > excess.
Proof.
  pose proof PI_RGT_0 as Hpi. unfold wrapFuel.
  destruct (archimed (excess / (PI * 2))) as [Hup _].
  assert (Hn : IZR (up (excess / (PI * 2)))
               <= INR (Z.to_nat (up (excess / (PI * 2))))).
  { destruct (Z_lt_le_dec (up (excess / (PI * 2))) 0) as [Hneg | Hpos].
    - apply IZR_lt in Hneg.
      pose proof (pos_INR (Z.to_nat (up (excess / (PI * 2))))). lra.
    - rewrite INR_IZR_INZ, Z2Nat.id by assumption. lra. }
  assert (Hx : excess = excess / (PI * 2) * (PI * 2)) by (field; lra).
  rewrite Hx at 2. apply Rmult_lt_compat_r; lra.
Qed.

Lemma wrapDown_spec (fuel : nat) (a : R) :
  a - INR fuel * (PI * 2) <= PI ->
  wrapDown fuel a <= PI /\
  (wrapDown fuel a = a \/ - PI < wrapDown fuel a) /\
  (a <= PI -> wrapDown fuel a = a) /\
  exists k : nat, wrapDown fuel a = a - INR k * (PI * 2).
Proof.
  pose proof PI_RGT_0 as Hpi. revert a.
  induction fuel as [|fuel IH]; intros a Hfuel.
  - simpl in *. split; [lra|]. split; [auto|]. split; [auto|].
    exists 0%nat. simpl. lra.
  - simpl. case_bool_decide as Hbig.
    + destruct (IH (a - PI * 2)) as (Hle & Hmoved & _ & k & Hk).
      { rewrite S_INR in Hfuel. lra. }
      split; [exact Hle|]. split; [|split].
      * right. destruct Hmoved as [-> | H]; lra.
      * lra.
      * exists (S k). rewrite Hk, S_INR. lra.
    + split; [lra|]. split; [auto|]. split; [auto|].
      exists 0%nat. simpl. lra.
Qed.

Lemma wrapUp_spec (fuel : nat) (a : R) :
  a <= PI -> - PI - a < INR fuel * (PI * 2) ->
  - PI <= wrapUp fuel a <= PI /\
  (- PI <= a -> wrapUp fuel a = a) /\
  exists k : nat, wrapUp fuel a = a + INR k * (PI * 2).
Proof.
  pose proof PI_RGT_0 as Hpi. revert a.
  induction fuel as [|fuel IH]; intros a Hle Hfuel.
  - simpl in *. split; [lra|]. split; [auto|]. exists 0%nat. simpl. lra.
  - simpl. case_bool_decide as Hsmall.
    + destruct (IH (a + PI * 2)) as (Hrange & _ & k & Hk);
        [lra | rewrite S_INR in Hfuel; lra |].
      split; [exact Hrange|]. split; [lra|].
      exists (S k). rewrite Hk, S_INR. lra.
    + split; [lra|]. split; [auto|]. exists 0%nat. simpl. lra.
Qed.

Lemma normalizeAngle_spec (angle : R) :
  - PI <= normalizeAngle angle <= PI /\
  (exists k : Z, normalizeAngle angle = angle + IZR k * (PI * 2)) /\
  (- PI <= angle <= PI -> normalizeAngle angle = angle).
Proof.
  pose proof PI_RGT_0 as Hpi. unfold normalizeAngle.
  cbv zeta.
  destruct (wrapDown_spec (wrapFuel (angle - PI)) angle)
    as (Hle & _ & Hfix & k1 & Hk1).
  { pose proof (wrapFuel_enough (angle - PI)). lra. }
  set (a := wrapDown (wrapFuel (angle - PI)) angle) in *.
  destruct (wrapUp_spec (wrapFuel (- PI - a)) a Hle)
    as (Hrange & Hfix' & k2 & Hk2).
  { pose proof (wrapFuel_enough (- PI - a)). lra. }
  split; [exact Hrange|]. split.
  - exists (Z.of_nat k2 - Z.of_nat k1)%Z.
    rewrite Hk2, Hk1, minus_IZR, <- !INR_IZR_INZ. lra.
  - intros Hin. rewrite Hfix', Hfix; lra.
Qed.

(** X7: for an angle of at most 1000 in absolute value,
    [normalizeAngle] returns an angle between [-PI] and [PI] that
    differs from its argument by a whole number of turns, and it leaves
    an angle that is already in that range as it is.  (Over exact reals
    this holds of every angle, [normalizeAngle_spec]; the loops of the
    source subtract in binary64 and make no progress on an angle beyond
    about 5.6e16, where [angle - Math.PI * 2] rounds back to [angle].) *)
Theorem normalizeAngle_range :
  forall angle : R,
    Rabs angle <= 1000 ->
    - PI <= normalizeAngle angle <= PI /\
    (exists k : Z, normalizeAngle angle = angle + IZR k * (PI * 2)) /\
    (- PI <= angle <= PI -> normalizeAngle angle = angle).
Proof. intros angle _. apply normalizeAngle_spec. Qed.

Lemma normalizeAngle_range_witness :
  - PI <= normalizeAngle 4 <= PI /\
  (exists k : Z, normalizeAngle 4 = 4 + IZR k * (PI * 2)) /\
  (- PI <= 4 <= PI -> normalizeAngle 4 = 4).
Proof.
  apply (normalizeAngle_range 4).
  unfold Rabs. destruct (Rcase_abs 4); lra.
Defined.

(** An angle strictly inside the range is the only one in the range that
    is a whole number of turns away from it. *)
Lemma normalizeAngle_unique (a b : R) (k : Z) :
  - PI < b < PI -> a = b + IZR k * (PI * 2) -> normalizeAngle a = b.
Proof.
  intros Hb Ha. pose proof PI_RGT_0 as Hpi.
  destruct (normalizeAngle_spec a) as (Hrange & (k2 & Hk2) & _).
  assert (Hz : (k + k2 = 0)%Z).
  { assert (Hlt : IZR (k + k2) < IZR 1).
    { rewrite plus_IZR. simpl. nra. }
    assert (Hgt : IZR (-1) < IZR (k + k2)).
    { rewrite plus_IZR. simpl. nra. }
    apply lt_IZR in Hlt, Hgt. lia. }
  apply (f_equal IZR) in Hz. rewrite plus_IZR in Hz. simpl in Hz. nra.
Qed.

Lemma quotient_bounds (a m lo hi : R) :
  0 < m -> lo * m <= a < hi * m -> lo <= a / m < hi.
Proof.
  intros Hm [Hlo Hhi].
  assert (Ha : a = a / m * m) by (field; lra).
  split.
  - apply (Rmult_le_reg_r m); [exact Hm | lra].
  - apply (Rmult_lt_reg_r m); [exact Hm | lra].
Qed.

Lemma jsRem_small (a m : R) : 0 < m -> - m < a < m -> jsRem a m = a.
Proof.
  intros Hm Ha. unfold jsRem, jsTrunc.
  assert (Hq : a = a / m * m) by (field; lra).
  set (q := a / m) in *.
  case_bool_decide as Hsign.
  - rewrite (jsFloor_integer 0); [lra|]. simpl. nra.
  - rewrite (jsFloor_integer 0); [lra|]. simpl. nra.
Qed.

Lemma jsRem_second (a m : R) : 0 < m -> m <= a < 2 * m -> jsRem a m = a - m.
Proof.
  intros Hm Ha. unfold jsRem, jsTrunc.
  pose proof (quotient_bounds a m 1 2 Hm ltac:(lra)) as Hq.
  rewrite bool_decide_eq_true_2 by lra.
  rewrite (jsFloor_integer 1); lra.
Qed.

Lemma normalized_within_turn (a : R) :
  - (PI * 2) < a < PI * 2 ->
  jsRem (jsRem a (PI * 2) + PI * 2) (PI * 2)
  = if bool_decide (0 <= a) then a else a + PI * 2.
Proof.
  intros Ha. pose proof PI_RGT_0 as Hpi.
  rewrite (jsRem_small a) by lra.
  case_bool_decide.
  - rewrite jsRem_second; lra.
  - rewrite jsRem_small; lra.
Qed.

(** Over exact reals the sector of a direction is half open: from less
    than [PI / 4] before its angle to [PI / 4] past it. *)
Lemma angleToDirection_sector (d : GridDirection) (delta : R) :
  - PI / 4 < delta <= PI / 4 ->
  angleToDirection (DIRECTION_TO_ANGLE d + delta) = d.
Proof.
  intros Hdelta. pose proof PI_RGT_0 as Hpi.
  unfold angleToDirection. cbv zeta.
  rewrite normalized_within_turn by (destruct d; simpl; lra).
  destruct d; simpl;
    repeat (case_bool_decide; simpl; try lra); reflexivity.
Qed.

(** X8: [angleToDirection] undoes [DIRECTION_TO_ANGLE], with a
    tolerance of just under an eighth of a turn: an angle within
    [PI / 4 - 1 / 1000] of a cardinal direction's angle is classified as
    that direction.  (The thousandth keeps the angle clear of the sector
    boundaries, where the rounding of the source's binary64 arithmetic
    decides.) *)
Theorem angleToDirection_roundtrip :
  forall (d : GridDirection) (delta : R),
    - (PI / 4 - 1 / 1000) <= delta <= PI / 4 - 1 / 1000 ->
    angleToDirection (DIRECTION_TO_ANGLE d + delta) = d.
Proof.
  intros d delta Hdelta. apply angleToDirection_sector. lra.
Qed.

Lemma angleToDirection_roundtrip_witness :
  angleToDirection (DIRECTION_TO_ANGLE west + 0) = west.
Proof.
  apply (angleToDirection_roundtrip west 0).
  pose proof PI2_3_2. lra.
Defined.

End Angles.

(** ** Spawning a round *)

Section Spawns.
Import CollisionSystem GameContext.

Lemma varySpawn_lane (spawn : GridPosition * GridDirection) (random : R) :
  In spawn BASE_SPAWN_CONFIGS -> 0 <= random < 1 ->
  inLane (varySpawn spawn random) /\
  snd (varySpawn spawn random) = snd spawn.
Proof.
  intros Hin Hr. split; [|reflexivity].
  unfold BASE_SPAWN_CONFIGS in Hin. simpl in Hin.
  destruct Hin as [<- | [<- | [<- | [<- | []]]]];
    unfold inLane, varySpawn; cbv zeta; cbn [fst snd pos_x pos_z];
    rewrite ARENA_HALF_value; simpl;
    unfold Rmax, Rmin; repeat destruct (Rle_dec _ _); lra.
Qed.

Lemma generateSpawnPositions_each
    (shuffled : list (GridPosition * GridDirection)) (randoms : list R) :
  Forall (fun sp => In sp BASE_SPAWN_CONFIGS) shuffled ->
  Forall (fun r => 0 <= r < 1) randoms ->
  length randoms = length shuffled ->
  Forall inLane (generateSpawnPositions shuffled randoms) /\
  map snd (generateSpawnPositions shuffled randoms) = map snd shuffled.
Proof.
  unfold generateSpawnPositions. revert randoms.
  induction shuffled as [|sp shuffled IH]; intros randoms Hbase Hrs Hlen.
  - destruct randoms; [|discriminate]. split; [constructor | reflexivity].
  - destruct randoms as [|r randoms]; [discriminate|].
    inversion Hbase as [|? ? Hsp Hrest]; subst.
    inversion Hrs as [|? ? Hr Hrs']; subst.
    destruct (IH randoms Hrest Hrs' ltac:(simpl in Hlen; lia)) as [Hl Hd].
    destruct (varySpawn_lane sp r Hsp Hr) as [Hlane Hdir].
    simpl. split; [constructor; assumption|]. rewrite Hd. reflexivity.
Qed.

(** X9: whatever the shuffle and the random draws,
    [generateSpawnPositions] returns four spawns, one facing each
    cardinal direction, each in its lane: 15 units inside the wall behind
    it, at most 20 units off the centre line. *)
Theorem generateSpawnPositions_lanes :
  forall (shuffled : list (GridPosition * GridDirection))
         (randoms : list R),
    Permutation shuffled BASE_SPAWN_CONFIGS ->
    length randoms = 4%nat ->
    Forall (fun r => 0 <= r < 1) randoms ->
    length (generateSpawnPositions shuffled randoms) = 4%nat /\
    Forall inLane (generateSpawnPositions shuffled randoms) /\
    Permutation (map snd (generateSpawnPositions shuffled randoms))
      [north; south; east; west].
Proof.
  intros shuffled randoms Hperm Hlen Hrs.
  assert (Hlen4 : length shuffled = 4%nat)
    by (rewrite (Permutation_length Hperm); reflexivity).
  destruct (generateSpawnPositions_each shuffled randoms) as [Hl Hd];
    [| exact Hrs | lia |].
  { apply List.Forall_forall. intros sp Hsp.
    apply (Permutation_in _ Hperm). exact Hsp. }
  split; [|split; [exact Hl|]].
  - rewrite <- (length_map snd), Hd, length_map. exact Hlen4.
  - rewrite Hd. change [north; south; east; west]
      with (map snd BASE_SPAWN_CONFIGS).
    apply Permutation_map. exact Hperm.
Qed.

Lemma generateSpawnPositions_lanes_witness :
  Permutation BASE_SPAWN_CONFIGS BASE_SPAWN_CONFIGS /\
  length [0.5; 0; 0.25; 0.75] = 4%nat /\
  Forall (fun r => 0 <= r < 1) [0.5; 0; 0.25; 0.75] /\
  Forall inLane
    (generateSpawnPositions BASE_SPAWN_CONFIGS [0.5; 0; 0.25; 0.75]).
Proof.
  assert (Hrs : Forall (fun r => 0 <= r < 1) [0.5; 0; 0.25; 0.75])
    by (repeat constructor; lra).
  split; [reflexivity|]. split; [reflexivity|]. split; [exact Hrs|].
  apply (generateSpawnPositions_lanes BASE_SPAWN_CONFIGS
           [0.5; 0; 0.25; 0.75] (Permutation_refl _) eq_refl Hrs).
Defined.

Lemma createInitialCycles_In (spawns : list (GridPosition * GridDirection))
    (c : CycleState) :
  In c (createInitialCycles spawns) ->
  exists (i : nat) (sp : GridPosition * GridDirection),
    spawns !! i = Some sp /\
    c_id c = (if bool_decide (i = 0%nat) then "player"
              else "ai-" +:+ pretty i) /\
    c_gridPosition c = fst sp /\ c_direction c = snd sp /\
    c_trail c = [] /\ c_isAlive c = true.
Proof.
  unfold createInitialCycles. intros Hin.
  apply list_elem_of_In, elem_of_lookup_imap in Hin as (i & sp & -> & Hsp).
  exists i, sp. simpl. auto 10.
Qed.

Lemma trailLoop_no_trails (p : GridPosition) (id : string)
    (cycles : list CycleState) :
  (forall c, In c cycles -> c_trail c = []) ->
  trailLoop p id cycles = None.
Proof.
  induction cycles as [|c cycles IH]; intros Hempty; [reflexivity|].
  simpl. rewrite (Hempty c) by (left; reflexivity).
  rewrite IH by (intros c' Hc'; apply Hempty; right; exact Hc').
  destruct (negb (c_isAlive c)); [reflexivity|].
  unfold checkTrailCollision. destruct (bool_decide _); reflexivity.
Qed.

Lemma cycleLoop_far (p : GridPosition) (id : string)
    (cycles : list CycleState) :
  (forall c, In c cycles -> c_id c <> id ->
     checkCycleCollision p (c_gridPosition c) = false) ->
  cycleLoop p id cycles = None.
Proof.
  induction cycles as [|c cycles IH]; intros Hfar; [reflexivity|].
  simpl. rewrite IH by (intros c' Hc'; apply Hfar; right; exact Hc').
  case_bool_decide as Hid; [reflexivity|]. simpl.
  destruct (negb (c_isAlive c)); [reflexivity|].
  rewrite (Hfar c) by (auto; left; reflexivity). reflexivity.
Qed.

Lemma lanes_apart (sp sp' : GridPosition * GridDirection) :
  inLane sp -> inLane sp' -> snd sp <> snd sp' ->
  checkCycleCollision (fst sp) (fst sp') = false.
Proof.
  destruct sp as [[x z] d], sp' as [[x' z'] d']. unfold inLane.
  cbn [fst snd pos_x pos_z]. intros Hl Hl' Hd.
  apply not_true_iff_false. unfold checkCycleCollision. cbv zeta.
  rewrite bool_decide_eq_true.
  unfold CYCLE_RADIUS. cbn [pos_x pos_z].
  pose proof (Rle_0_sqr (x - x')) as Hx. pose proof (Rle_0_sqr (z - z')) as Hz.
  unfold Rsqr in Hx, Hz.
  destruct d, d'; try congruence; nra.
Qed.

(** X10: a freshly created round is free of collisions.  When the
    spawns lie in their lanes and face pairwise different directions (as
    [generateSpawnPositions] guarantees), no cycle of
    [createInitialCycles] collides with a wall, a trail or another
    cycle. *)
Theorem createInitialCycles_clear :
  forall (spawns : list (GridPosition * GridDirection)) (c : CycleState),
    Forall inLane spawns ->
    NoDup (map snd spawns) ->
    In c (createInitialCycles spawns) ->
    checkCollision (c_gridPosition c) (c_id c) (createInitialCycles spawns)
    = mkResult false None None.
Proof.
  intros spawns c Hlanes Hdirs Hin.
  destruct (createInitialCycles_In spawns c Hin)
    as (i & sp & Hsp & Hid & Hpos & Hdir & _ & _).
  assert (Hlane : forall j s, spawns !! j = Some s -> inLane s).
  { intros j s Hs. rewrite List.Forall_forall in Hlanes. apply Hlanes.
    apply list_elem_of_In, list_elem_of_lookup. eauto. }
  unfold checkCollision.
  replace (checkWallCollision (c_gridPosition c)) with false.
  2:{ symmetry. apply not_true_iff_false. rewrite checkWallCollision_true.
      rewrite inset_limit, Hpos. pose proof (Hlane i sp Hsp) as Hl.
      unfold inLane in Hl. destruct (snd sp); lra. }
  rewrite trailLoop_no_trails.
  2:{ intros c' Hc'. destruct (createInitialCycles_In spawns c' Hc')
        as (_ & _ & _ & _ & _ & _ & Ht & _). exact Ht. }
  rewrite cycleLoop_far; [reflexivity|].
  intros c' Hc' Hother.
  destruct (createInitialCycles_In spawns c' Hc')
    as (i' & sp' & Hsp' & Hid' & Hpos' & Hdir' & _ & _).
  rewrite Hpos, Hpos'. apply lanes_apart; [eauto | eauto |].
  intros Hsame. apply Hother.
  assert (Hi : i' = i).
  { apply (NoDup_lookup (map snd spawns) i' i (snd sp));
      [exact Hdirs | |]; rewrite list_lookup_fmap.
    - rewrite Hsp', Hsame. reflexivity.
    - rewrite Hsp. reflexivity. }
  rewrite Hid, Hid', Hi. reflexivity.
Qed.

End Spawns.

Lemma createInitialCycles_clear_witness :
  Forall inLane [(mkPos 0 49, north); (mkPos 0 (-49), south)] /\
  NoDup (map snd [(mkPos 0 49, north); (mkPos 0 (-49), south)]) /\
  CollisionSystem.checkCollision (mkPos 0 49) "player"
    (GameContext.createInitialCycles
       [(mkPos 0 49, north); (mkPos 0 (-49), south)])
  = mkResult false None None.
Proof.
  assert (Hlanes : Forall inLane [(mkPos 0 49, north); (mkPos 0 (-49), south)]).
  { repeat constructor; simpl; lra. }
  assert (Hdirs : NoDup (map snd [(mkPos 0 49, north); (mkPos 0 (-49), south)])).
  { simpl. apply NoDup_cons. split; [|apply NoDup_singleton].
    intros Hin. apply list_elem_of_singleton in Hin. discriminate Hin. }
  split; [exact Hlanes|]. split; [exact Hdirs|].
  apply (createInitialCycles_clear
           [(mkPos 0 49, north); (mkPos 0 (-49), south)]
           (mkCycle "player" (mkPos 0 49) north (DIRECTION_TO_ANGLE north)
              (-1) false 0xff3333 true [] true 1.0 false false 0 0)
           Hlanes Hdirs).
  left. reflexivity.
Defined.

(** ** The reducer *)

Section Reducer.
Import GameContext.

Lemma Forall2_map_self {A : Type} (Rel : A -> A -> Prop) (f : A -> A)
    (l : list A) :
  (forall x, Rel x (f x)) -> Forall2 Rel l (map f l).
Proof. intros H. induction l; simpl; constructor; auto. Qed.

Lemma keeps_refl (c : CycleState) : keeps c c.
Proof. unfold keeps. auto 10. Qed.

Lemma mapCycles_keeps (state : GameState) (skip : CycleState -> bool)
    (update : CycleState -> CycleState) :
  (forall c, keeps c (update c)) ->
  Forall2 keeps (g_cycles state) (g_cycles (mapCycles state skip update)).
Proof.
  intros Hupd. unfold mapCycles, withCycles. cbn [g_cycles].
  apply Forall2_map_self. intros c.
  destruct (skip c); [apply keeps_refl | apply Hupd].
Qed.

Lemma gameReducer_Forall2_keeps (env : ReducerEnv) (state : GameState)
    (action : GameAction) :
  action <> START_GAME -> action <> RESTART_GAME ->
  Forall2 keeps (g_cycles state) (g_cycles (gameReducer env state action)).
Proof.
  intros Hstart Hrestart.
  assert (Hsame : Forall2 keeps (g_cycles state) (g_cycles state)).
  { rewrite <- (map_id (g_cycles state)) at 2.
    apply Forall2_map_self, keeps_refl. }
  destruct action; try congruence; cbn [gameReducer];
    try (apply mapCycles_keeps; intros c; unfold keeps; simpl; eauto 10);
    try exact Hsame.
  - case_bool_decide; exact Hsame.
  - case_bool_decide; exact Hsame.
  - rewrite killCycle_cycles. apply Forall2_map_self. intros c.
    case_bool_decide; [|apply keeps_refl]. unfold keeps. simpl. auto 10.
  - destruct (cameraModes !! _); exact Hsame.
  - case_bool_decide; exact Hsame.
Qed.

(** X11: between round starts the roster is fixed and nothing is undone:
    every action other than [START_GAME] and [RESTART_GAME] leaves the
    list of cycles with the same length, order, ids, player flags and
    colours; a dead cycle stays dead; and each trail keeps every segment it
    had, gaining at most one at its end. *)
Theorem gameReducer_keeps :
  forall (env : ReducerEnv) (state : GameState) (action : GameAction),
    action <> START_GAME -> action <> RESTART_GAME ->
    Forall2
      (fun c c' =>
         c_id c' = c_id c /\ c_isPlayer c' = c_isPlayer c /\
         c_color c' = c_color c /\
         (c_isAlive c = false -> c_isAlive c' = false) /\
         (c_trail c' = c_trail c \/
          exists seg, c_trail c' = c_trail c ++ [seg]))
      (g_cycles state) (g_cycles (gameReducer env state action)).
Proof. exact gameReducer_Forall2_keeps. Qed.

Lemma gameReducer_keeps_witness :
  KILL_CYCLE "player" <> START_GAME /\
  KILL_CYCLE "player" <> RESTART_GAME /\
  Forall2
    (fun c c' =>
       c_id c' = c_id c /\ c_isPlayer c' = c_isPlayer c /\
       c_color c' = c_color c /\
       (c_isAlive c = false -> c_isAlive c' = false) /\
       (c_trail c' = c_trail c \/
        exists seg, c_trail c' = c_trail c ++ [seg]))
    (g_cycles Samples.duel)
    (g_cycles (gameReducer (mkReducerEnv [] 0) Samples.duel
                 (KILL_CYCLE "player"))).
Proof.
  assert (H1 : KILL_CYCLE "player" <> START_GAME) by discriminate.
  assert (H2 : KILL_CYCLE "player" <> RESTART_GAME) by discriminate.
  split; [exact H1|]. split; [exact H2|].
  apply (gameReducer_keeps (mkReducerEnv [] 0) Samples.duel
           (KILL_CYCLE "player") H1 H2).
Defined.

End Reducer.

Section ReducerRounds.
Import GameContext.

Lemma createInitialCycles_names
    (s1 s2 s3 s4 : GridPosition * GridDirection) (c : CycleState) :
  In c (createInitialCycles [s1; s2; s3; s4]) -> In (c_id c) rosterNames.
Proof.
  simpl. unfold rosterNames.
  intros [<- | [<- | [<- | [<- | []]]]]; simpl; auto.
Qed.

Lemma scored_tallied (state : GameState) : scored state -> tallied state.
Proof.
  intros [Hkeys Hids] c Hin. specialize (Hids c Hin).
  split; [|apply Hkeys, Hids].
  unfold rosterNames in Hids. simpl in Hids.
  destruct Hids as [<- | [<- | [<- | [<- | []]]]]; discriminate.
Qed.

Lemma gameReducer_scores (env : ReducerEnv) (state : GameState)
    (action : GameAction) :
  g_scores (gameReducer env state action) = g_scores state \/
  exists w, g_scores (gameReducer env state action)
            = creditWinner w (g_scores state).
Proof.
  destruct action; cbn [gameReducer]; try (left; reflexivity).
  - case_bool_decide; left; reflexivity.
  - case_bool_decide; left; reflexivity.
  - right. eexists. reflexivity.
  - unfold killCycle. cbv zeta. case_bool_decide; simpl.
    + right. eexists. reflexivity.
    + left. reflexivity.
  - destruct (cameraModes !! _); left; reflexivity.
  - case_bool_decide; left; reflexivity.
Qed.

Lemma scored_step (state : GameState) (action : GameAction)
    (s1 s2 s3 s4 : GridPosition * GridDirection) (now : R) :
  scored state ->
  scored (gameReducer (mkReducerEnv [s1; s2; s3; s4] now) state action).
Proof.
  intros [Hkeys Hids]. split.
  - intros k Hk.
    destruct (gameReducer_scores (mkReducerEnv [s1; s2; s3; s4] now) state
                action) as [-> | [w ->]].
    + apply Hkeys, Hk.
    + apply creditWinner_keeps, Hkeys, Hk.
  - assert (Hcase : action = START_GAME \/ action = RESTART_GAME \/
                    (action <> START_GAME /\ action <> RESTART_GAME)).
    { destruct action; auto; right; right; split; discriminate. }
    destruct Hcase as [-> | [-> | [Hstart Hrestart]]].
    { intros c Hc. apply (createInitialCycles_names s1 s2 s3 s4), Hc. }
    { intros c Hc. apply (createInitialCycles_names s1 s2 s3 s4), Hc. }
    pose proof (gameReducer_Forall2_keeps
                  (mkReducerEnv [s1; s2; s3; s4] now) state action Hstart
                  Hrestart) as Hkeeps.
    intros c' Hc'. apply list_elem_of_In, list_elem_of_lookup in Hc'
      as [i Hi].
    destruct (Forall2_lookup_r _ _ _ _ _ Hkeeps Hi) as (c & Hc & Hk).
    destruct Hk as [-> _].
    apply Hids, list_elem_of_In, list_elem_of_lookup. eauto.
Qed.

(** X12: in every state the provider can reach from
    [createInitialState], whatever was dispatched, every cycle has a
    non-empty id and an entry in the score tally: the winner of a round
    can always be credited. *)
Theorem reachable_tallied :
  forall state : GameState, reachable state -> tallied state.
Proof.
  intros state Hreach. apply scored_tallied.
  induction Hreach as [s1 s2 s3 s4 | state action s1 s2 s3 s4 now _ IH].
  - split.
    + unfold rosterNames. simpl.
      intros k [<- | [<- | [<- | [<- | []]]]]; eexists; reflexivity.
    + intros c Hc. apply (createInitialCycles_names s1 s2 s3 s4), Hc.
  - apply scored_step, IH.
Qed.

Lemma reachable_tallied_witness :
  reachable
    (gameReducer (mkReducerEnv BASE_SPAWN_CONFIGS 0)
       (createInitialState BASE_SPAWN_CONFIGS) (KILL_CYCLE "ai-2")) /\
  tallied
    (gameReducer (mkReducerEnv BASE_SPAWN_CONFIGS 0)
       (createInitialState BASE_SPAWN_CONFIGS) (KILL_CYCLE "ai-2")).
Proof.
  assert (Hreach : reachable
    (gameReducer (mkReducerEnv BASE_SPAWN_CONFIGS 0)
       (createInitialState BASE_SPAWN_CONFIGS) (KILL_CYCLE "ai-2"))).
  { apply reachable_step. apply reachable_initial. }
  split; [exact Hreach|]. apply (reachable_tallied _ Hreach).
Defined.

(** X13: a restart followed by four countdown ticks starts the round:
    after [RESTART_GAME] and one, two or three [DECREMENT_COUNTDOWN] the
    phase is still [countdown] (at 2, 1, 0); after the fourth the phase
    is [playing], with the freshly created cycles (all alive, without
    trail), no winner, and the scores and round number from before the
    restart. *)
Theorem restart_countdown :
  forall (env : ReducerEnv) (state : GameState),
    (forall k : nat, (k <= 3)%nat ->
       let waiting :=
         dispatchAll env state
           (RESTART_GAME :: replicate k DECREMENT_COUNTDOWN) in
       g_phase waiting = countdown /\
       g_countdown waiting = (3 - Z.of_nat k)%Z) /\
    let started :=
      dispatchAll env state
        (RESTART_GAME :: replicate 4 DECREMENT_COUNTDOWN) in
    g_phase started = playing /\ g_countdown started = 0%Z /\
    g_winner started = None /\
    g_cycles started = createInitialCycles (env_spawnPositions env) /\
    Forall (fun c => c_isAlive c = true /\ c_trail c = []) (g_cycles started) /\
    g_scores started = g_scores state /\ g_round started = g_round state.
Proof.
  intros env state. split.
  - intros k Hk. destruct k as [|[|[|[|k]]]]; try lia; split; reflexivity.
  - cbv zeta. split; [reflexivity|]. split; [reflexivity|].
    split; [reflexivity|]. split; [reflexivity|]. split; [|split; reflexivity].
    apply List.Forall_forall. intros c Hc.
    change (g_cycles _) with (createInitialCycles (env_spawnPositions env))
      in Hc.
    destruct (createInitialCycles_In _ _ Hc)
      as (_ & _ & _ & _ & _ & _ & Ht & Ha).
    auto.
Qed.

(** Pausing and resuming is a round trip.  [PAUSE_GAME] acts only in
    phase [playing] and [RESUME_GAME] only in phase [paused]; a pause
    followed by a resume gives back the playing state unchanged. *)
Theorem pause_resume :
  (forall (env : ReducerEnv) (state : GameState),
     g_phase state = playing ->
     g_phase (gameReducer env state PAUSE_GAME) = paused /\
     gameReducer env (gameReducer env state PAUSE_GAME) RESUME_GAME = state) /\
  (forall (env : ReducerEnv) (state : GameState),
     g_phase state <> playing -> gameReducer env state PAUSE_GAME = state) /\
  (forall (env : ReducerEnv) (state : GameState),
     g_phase state <> paused -> gameReducer env state RESUME_GAME = state).
Proof.
  split; [|split].
  - intros env [phase cycles cam cd win rnd scores npc]. simpl.
    intros ->. split; reflexivity.
  - intros env state Hphase. simpl.
    rewrite bool_decide_eq_false_2 by exact Hphase. reflexivity.
  - intros env state Hphase. simpl.
    rewrite bool_decide_eq_false_2 by exact Hphase. reflexivity.
Qed.

(** [TOGGLE_CAMERA] steps through third person, first person and
    top down in a cycle: it always changes the camera mode, changes
    nothing else, and three toggles give back the state. *)
Theorem toggle_camera_cycle :
  forall (env : ReducerEnv) (state : GameState),
    g_cameraMode (gameReducer env state TOGGLE_CAMERA)
    = match g_cameraMode state with
      | thirdPerson => firstPerson
      | firstPerson => topDown
      | topDown => thirdPerson
      end /\
    gameReducer env state TOGGLE_CAMERA
    = withCamera state (g_cameraMode (gameReducer env state TOGGLE_CAMERA)) /\
    dispatchAll env state [TOGGLE_CAMERA; TOGGLE_CAMERA; TOGGLE_CAMERA]
    = state.
Proof.
  intros env [phase cycles cam cd win rnd scores npc].
  destruct cam; repeat split; reflexivity.
Qed.

End ReducerRounds.

Section Turning.
Import GameContext.

Lemma PI_gt_3 : 3 < PI.
Proof. pose proof PI2_3_2. lra. Qed.

(** The angle a quarter turn aims at is the angle of the direction it
    leads to. *)
Lemma quarter_turn_target (d : GridDirection) (a : R) (side : TurnSide) :
  a = DIRECTION_TO_ANGLE d \/ (d = south /\ a = - PI) ->
  let target :=
    normalizeAngle
      (a + match side with side_left => - PI / 2 | side_right => PI / 2 end)
  in
  target = DIRECTION_TO_ANGLE (turnOf side d) \/
  (turnOf side d = south /\ target = - PI).
Proof.
  pose proof PI_gt_3 as Hpi. intros Ha. cbv zeta.
  assert (Hin : forall x, - PI <= x <= PI -> normalizeAngle x = x)
    by (intros x; apply normalizeAngle_spec).
  destruct Ha as [-> | [-> ->]]; [destruct d, side | destruct side]; simpl.
  - left. rewrite Hin; lra.
  - left. rewrite Hin; lra.
  - left. rewrite Hin; lra.
  - left. rewrite Hin; lra.
  - left. rewrite Hin; lra.
  - left. apply (normalizeAngle_unique _ _ 1); lra.
  - right. split; [reflexivity|]. rewrite Hin; lra.
  - left. rewrite Hin; lra.
  - left. apply (normalizeAngle_unique _ _ (-1)); lra.
  - left. rewrite Hin; lra.
Qed.

(** [END_TURN] reads the direction back from such a target angle. *)
Lemma turnedOutCycle_target (c : CycleState) (d : GridDirection) :
  c_targetAngle c = DIRECTION_TO_ANGLE d \/
  (d = south /\ c_targetAngle c = - PI) ->
  c_direction (turnedOutCycle c) = d /\
  c_angle (turnedOutCycle c) = c_targetAngle c.
Proof.
  pose proof PI_gt_3 as Hpi. unfold turnedOutCycle. cbv zeta.
  cbn [c_direction c_angle].
  intros [Ht | [-> Ht]]; rewrite Ht; [destruct d|]; simpl;
    repeat (case_bool_decide; simpl; try lra); split; reflexivity.
Qed.

Lemma midTurn_start (env : ReducerEnv) (state : GameState) (id : string)
    (side : TurnSide) :
  Forall2 (midTurn id side) (g_cycles state)
    (g_cycles (gameReducer env state (START_TURN id side))).
Proof.
  cbn [gameReducer]. unfold mapCycles, withCycles. cbn [g_cycles].
  apply Forall2_map_self. intros c. unfold midTurn.
  case_bool_decide as Hid; simpl.
  - repeat split; auto. intros Hsame. contradiction.
  - destruct (c_isAlive c), (c_isTurning c); simpl; repeat split;
      auto; try discriminate; intros Hne; contradiction.
Qed.

Lemma midTurn_updates (env : ReducerEnv) (id : string) (side : TurnSide)
    (angles : list R) (cycles : list CycleState) (state : GameState) :
  Forall2 (midTurn id side) cycles (g_cycles state) ->
  Forall2 (midTurn id side) cycles
    (g_cycles (dispatchAll env state (map (UPDATE_ANGLE id) angles))).
Proof.
  unfold dispatchAll. revert state.
  induction angles as [|a angles IH]; intros state Hmid; [exact Hmid|].
  simpl. apply IH. cbn [gameReducer]. unfold mapCycles, withCycles.
  cbn [g_cycles]. apply Forall2_fmap_r.
  eapply Forall2_impl; [exact Hmid|].
  intros c ck (Hid & Hother & Htarget). unfold midTurn, compose. cbv beta.
  case_bool_decide as Hk; [auto|]. simpl.
  split; [exact Hid|]. split; [|exact Htarget].
  intros Hne. rewrite Hid in Hk. contradiction.
Qed.

(** X14: a quarter turn ends on the neighbouring heading.  After
    [START_TURN], any number of [UPDATE_ANGLE] and [END_TURN] for one id,
    a cycle with that id that was alive, not yet turning, and whose
    angle agreed with its direction now heads in the direction
    [TURN_LEFT] or [TURN_RIGHT] gives, its angle agrees with that
    direction again, and it is no longer turning; cycles with another id
    are untouched. *)
Theorem turn_completes :
  forall (env : ReducerEnv) (state : GameState) (id : string)
         (side : TurnSide) (angles : list R),
    Forall2
      (fun c c' =>
         (c_id c <> id -> c' = c) /\
         (c_id c = id -> c_isAlive c = true -> c_isTurning c = false ->
          aligned c ->
          c_direction c' = turnOf side (c_direction c) /\ aligned c' /\
          c_isTurning c' = false /\ c_targetAngle c' = -1))
      (g_cycles state)
      (g_cycles
         (dispatchAll env state
            (START_TURN id side
             :: map (UPDATE_ANGLE id) angles ++ [END_TURN id]))).
Proof.
  intros env state id side angles.
  pose proof (midTurn_updates env id side angles (g_cycles state) _
                (midTurn_start env state id side)) as Hmid.
  unfold dispatchAll in *. cbn [fold_left]. rewrite fold_left_app.
  cbn [fold_left gameReducer]. unfold mapCycles, withCycles.
  cbn [g_cycles]. apply Forall2_fmap_r.
  eapply Forall2_impl; [exact Hmid|].
  intros c ck (Hid & Hother & Htarget). unfold compose. cbv beta.
  case_bool_decide as Hk.
  - split; [auto|]. intros Hsame. rewrite Hid in Hk. contradiction.
  - split; [intros Hne; rewrite Hid in Hk; contradiction|].
    intros Hsame Halive Hstill Haligned.
    pose proof (quarter_turn_target (c_direction c) (c_angle c) side
                  Haligned) as Hq.
    cbv zeta in Hq. rewrite <- (Htarget Hsame Halive Hstill) in Hq.
    destruct (turnedOutCycle_target ck _ Hq) as [Hdir Hang].
    split; [exact Hdir|]. split; [|split; reflexivity].
    unfold aligned. rewrite Hdir, Hang. exact Hq.
Qed.

End Turning.

Section Knockout.
Import GameContext.

Lemma alive_after_kill (id : string) (cycles : list CycleState) :
  List.filter c_isAlive
    (map (fun c => if bool_decide (c_id c = id) then markDead c else c)
       cycles)
  = List.filter (fun c => negb (bool_decide (c_id c = id)))
      (List.filter c_isAlive cycles).
Proof.
  induction cycles as [|c cycles IH]; [reflexivity|].
  simpl. destruct (c_isAlive c) eqn:Halive; case_bool_decide as Hid;
    simpl; rewrite ?Halive, ?IH; simpl;
    rewrite ?(bool_decide_eq_true_2 _ Hid), ?(bool_decide_eq_false_2 _ Hid);
    reflexivity.
Qed.

(** X15: when the last two living cycles of a round are killed one after
    the other (as happens when both crash in the same tick), the first
    [KILL_CYCLE] ends the round in favour of the second cycle and credits
    it; the second [KILL_CYCLE] then clears the winner to null but leaves
    the credited point in the tally. *)
Theorem double_knockout :
  forall (env : ReducerEnv) (state : GameState) (a b : CycleState) (n : Z),
    tallied state ->
    List.filter c_isAlive (g_cycles state) = [a; b] ->
    c_id a <> c_id b ->
    g_scores state !! c_id b = Some n ->
    let first := gameReducer env state (KILL_CYCLE (c_id a)) in
    let second := gameReducer env first (KILL_CYCLE (c_id b)) in
    (g_phase first = gameOver /\ g_winner first = Some (c_id b) /\
     g_scores first !! c_id b = Some (n + 1)%Z) /\
    (g_phase second = gameOver /\ g_winner second = None /\
     g_scores second !! c_id b = Some (n + 1)%Z).
Proof.
  intros env state a b n Hwf Halive Hab Hn first second.
  assert (Hb : c_id b <> "").
  { apply (Hwf b). apply (proj1 (filter_In c_isAlive b (g_cycles state))).
    rewrite Halive. right. left. reflexivity. }
  assert (Hmap : List.filter c_isAlive
            (map (fun c => if bool_decide (c_id c = c_id a)
                           then markDead c else c) (g_cycles state)) = [b]).
  { rewrite alive_after_kill, Halive. simpl.
    rewrite (bool_decide_eq_true_2 (c_id a = c_id a)) by reflexivity.
    rewrite (bool_decide_eq_false_2 (c_id b = c_id a)) by congruence.
    reflexivity. }
  assert (Hone : List.filter c_isAlive (g_cycles first) = [b]).
  { unfold first. cbn [gameReducer]. rewrite killCycle_cycles. exact Hmap. }
  assert (Hfirst : g_phase first = gameOver /\
                   g_winner first = Some (c_id b) /\
                   g_scores first !! c_id b = Some (n + 1)%Z).
  { unfold first. cbn [gameReducer]. unfold killCycle. cbv zeta.
    rewrite Hmap.
    cbn [length head fmap option_fmap option_map creditWinner].
    rewrite (bool_decide_eq_true_2 (1 <= 1)%nat) by lia.
    rewrite (bool_decide_eq_true_2 (1 = 1)%nat) by reflexivity.
    cbn [g_phase g_winner g_scores head fmap option_fmap option_map
         creditWinner].
    rewrite bool_decide_eq_true_2 by exact Hb. rewrite Hn.
    split; [reflexivity|]. split; [reflexivity|]. apply lookup_insert_eq. }
  split; [exact Hfirst|]. destruct Hfirst as (_ & _ & Hscore).
  assert (Hnone : List.filter c_isAlive
            (map (fun c => if bool_decide (c_id c = c_id b)
                           then markDead c else c) (g_cycles first)) = []).
  { rewrite alive_after_kill, Hone. simpl.
    rewrite (bool_decide_eq_true_2 (c_id b = c_id b)) by reflexivity.
    reflexivity. }
  unfold second. cbn [gameReducer]. unfold killCycle. cbv zeta.
  rewrite Hnone. cbn [length].
  rewrite (bool_decide_eq_true_2 (0 <= 1)%nat) by lia.
  rewrite (bool_decide_eq_false_2 (0 = 1)%nat) by lia.
  cbn [g_phase g_winner g_scores creditWinner].
  split; [reflexivity|]. split; [reflexivity|]. exact Hscore.
Qed.

Lemma double_knockout_witness :
  tallied Samples.duel /\
  g_winner
    (gameReducer (mkReducerEnv [] 0)
       (gameReducer (mkReducerEnv [] 0) Samples.duel (KILL_CYCLE "player"))
       (KILL_CYCLE "ai-1")) = None /\
  g_scores
    (gameReducer (mkReducerEnv [] 0)
       (gameReducer (mkReducerEnv [] 0) Samples.duel (KILL_CYCLE "player"))
       (KILL_CYCLE "ai-1")) !! "ai-1" = Some 3%Z.
Proof.
  split; [exact duel_tallied|].
  destruct (double_knockout (mkReducerEnv [] 0) Samples.duel
              (mkCycle "player" (mkPos 0 0) north 0 (-1) false 0 true []
                 true 1 true false 0 0)
              (mkCycle "ai-1" (mkPos 9 9) south PI (-1) false 0 true []
                 false 1 true false 0 0)
              2%Z duel_tallied eq_refl ltac:(discriminate) eq_refl)
    as [_ (_ & Hwin & Hscore)].
  split; [exact Hwin | exact Hscore].
Defined.

End Knockout.

(** ** The decision policy: further properties *)

Section PolicyMore.
Import CollisionSystem AIController PolicySpec.

(** X16: [getDecision] always returns a decision: after sorting, the
    best option and the forward option it reads are always there. *)
Theorem getDecision_never_fails :
  forall (env : Env) (times : gmap string R) (cycle : CycleState)
         (allCycles : list CycleState) (t : R),
    exists (dec : AIDecision) (times' : gmap string R),
      getDecision env times cycle allCycles t = Some (dec, times').
Proof.
  intros env times cycle allCycles t.
  destruct (getDecision_defined env times cycle allCycles t)
    as [[dec times'] H].
  exists dec, times'. exact H.
Qed.

(** X17: every answer of [getDecision] is of one of two kinds: no turn,
    no jump, urgency 0 and the timestamp map untouched; or a turn or a
    jump, in which case the caller is stamped with the current time and
    at least [decisionInterval] has passed since its previous stamp (or
    since time 0 when it has none). *)
Theorem getDecision_idle_or_stamped :
  forall (env : Env) (times times' : gmap string R) (cycle : CycleState)
         (allCycles : list CycleState) (t : R) (dec : AIDecision),
    getDecision env times cycle allCycles t = Some (dec, times') ->
    (dec = mkDecision turn_none 0 false /\ times' = times) \/
    ((d_turn dec <> turn_none \/ d_jump dec = true) /\
     times' = <[c_id cycle := t]> times /\
     AI_CONFIG.decisionInterval <= t - default 0 (times !! c_id cycle)).
Proof. exact getDecision_times. Qed.

Lemma shouldJump_true (env : Env) (cycle : CycleState)
    (allCycles : list CycleState) (fd : R) :
  shouldJump env cycle allCycles fd = true ->
  c_isJumping cycle = false /\ 2000 <= now env - c_lastJumpTime cycle.
Proof.
  unfold shouldJump. destruct (c_isJumping cycle); [discriminate|].
  case_bool_decide; [discriminate|]. intros _. split; [reflexivity | lra].
Qed.

Lemma getDecision_emergency (env : Env) (times : gmap string R)
    (cycle : CycleState) (allCycles : list CycleState) (t : R) :
  AI_CONFIG.decisionInterval <= t - default 0 (times !! c_id cycle) ->
  distance
    (raycast (c_gridPosition cycle) (DIRECTION_VECTORS (c_direction cycle))
       (AI_CONFIG.lookAheadDistance * 2) allCycles (c_id cycle))
  < AI_CONFIG.minTurnDistance ->
  c_isJumping cycle = false ->
  2000 <= now env - c_lastJumpTime cycle ->
  random_emergency env < 0.4 ->
  getDecision env times cycle allCycles t
  = Some (mkDecision turn_none 1 true, <[c_id cycle := t]> times).
Proof.
  intros Helapsed Hclose Hground Hcool Hdraw. unfold getDecision. cbv zeta.
  rewrite bool_decide_eq_false_2 by lra.
  pose proof (sortScores_forward cycle allCycles) as Hfwd.
  pose proof (sortScores_nonempty cycle allCycles) as Hne.
  destruct (sortScores (evaluateAllDirections cycle allCycles))
    as [|best rest]; [congruence|].
  rewrite Hfwd. clear Hfwd.
  unfold evaluateDirection at 2. cbv zeta. cbn [forwardDistance].
  rewrite bool_decide_eq_true_2 by exact Hclose.
  replace (shouldJump env cycle allCycles _) with true.
  - rewrite Hground. reflexivity.
  - symmetry. unfold shouldJump. cbv zeta. rewrite Hground.
    rewrite bool_decide_eq_false_2 by lra.
    destruct (_ && _ && _); [reflexivity|].
    unfold AI_CONFIG.minTurnDistance in Hclose.
    rewrite (bool_decide_eq_true_2 _ Hclose).
    apply bool_decide_eq_true_2, Hdraw.
Qed.

(** X18: [getDecision] asks for a jump only from a cycle that is not
    jumping and whose last jump ended at least 2000 ms before the
    clock's reading. *)
Theorem getDecision_jump_cooldown :
  forall (env : Env) (times times' : gmap string R) (cycle : CycleState)
         (allCycles : list CycleState) (t : R) (dec : AIDecision),
    getDecision env times cycle allCycles t = Some (dec, times') ->
    d_jump dec = true ->
    c_isJumping cycle = false /\ 2000 <= now env - c_lastJumpTime cycle.
Proof.
  intros env times times' cycle allCycles t dec. unfold getDecision.
  cbv zeta. case_bool_decide; [intros [= <- _]; discriminate|].
  destruct (sortScores _) as [|best rest]; [discriminate|].
  destruct (List.find _ _) as [forward|]; [|discriminate].
  destruct (shouldJump env cycle allCycles (forwardDistance forward))
    eqn:Hjump.
  - intros _ _. exact (shouldJump_true _ _ _ _ Hjump).
  - cbn [andb].
    repeat match goal with
           | |- context [match ?x with _ => _ end] =>
               lazymatch x with
               | context [match _ with _ => _ end] => fail
               | _ => destruct x
               end
           end;
      intros [= <- _]; discriminate.
Qed.

Lemma getDecision_idle_or_stamped_witness :
  exists (dec : AIDecision) (times' : gmap string R),
    getDecision Samples.calmEnv (∅ : gmap string R) Samples.scout [Samples.scout] 100
    = Some (dec, times') /\
    ((dec = mkDecision turn_none 0 false /\ times' = (∅ : gmap string R)) \/
     ((d_turn dec <> turn_none \/ d_jump dec = true) /\
      times' = <["ai-1" := 100]> (∅ : gmap string R) /\
      AI_CONFIG.decisionInterval <= 100 - default 0 ((∅ : gmap string R) !! "ai-1"))).
Proof.
  destruct (getDecision_defined Samples.calmEnv (∅ : gmap string R) Samples.scout
              [Samples.scout] 100) as [[dec times'] H].
  exists dec, times'. split; [exact H|].
  apply (getDecision_idle_or_stamped Samples.calmEnv ∅ times' Samples.scout
           [Samples.scout] 100 dec H).
Defined.

Lemma getDecision_jump_cooldown_witness :
  c_isJumping Samples.scout = false /\
  2000 <= now Samples.alertEnv - c_lastJumpTime Samples.scout.
Proof.
  apply (getDecision_jump_cooldown Samples.alertEnv (∅ : gmap string R)
           (<["ai-1" := 100]> ∅) Samples.scout [Samples.scout] 100
           (mkDecision turn_none 1 true)); [|reflexivity].
  apply (getDecision_emergency Samples.alertEnv (∅ : gmap string R)
           Samples.scout [Samples.scout] 100).
  - rewrite lookup_empty. unfold AI_CONFIG.decisionInterval. simpl. lra.
  - rewrite scout_forward. unfold AI_CONFIG.minTurnDistance. simpl. lra.
  - reflexivity.
  - simpl. lra.
  - simpl. lra.
Defined.

(** X19: the emergency jump.  When the interval has elapsed, the way
    ahead is shorter than [minTurnDistance], the cycle is not jumping,
    its last jump ended at least 2000 ms ago and the emergency draw is
    below 0.4, [getDecision] answers with a jump and no turn, at urgency
    1, and stamps the caller. *)
Theorem getDecision_emergency_jump :
  forall (env : Env) (times : gmap string R) (cycle : CycleState)
         (allCycles : list CycleState) (t : R),
    AI_CONFIG.decisionInterval <= t - default 0 (times !! c_id cycle) ->
    distance
      (raycast (c_gridPosition cycle) (DIRECTION_VECTORS (c_direction cycle))
         (AI_CONFIG.lookAheadDistance * 2) allCycles (c_id cycle))
    < AI_CONFIG.minTurnDistance ->
    c_isJumping cycle = false ->
    2000 <= now env - c_lastJumpTime cycle ->
    random_emergency env < 0.4 ->
    getDecision env times cycle allCycles t
    = Some (mkDecision turn_none 1 true, <[c_id cycle := t]> times).
Proof. exact getDecision_emergency. Qed.

Lemma getDecision_emergency_jump_witness :
  getDecision Samples.alertEnv (∅ : gmap string R) Samples.scout
    [Samples.scout] 100
  = Some (mkDecision turn_none 1 true, <["ai-1" := 100]> ∅).
Proof.
  apply (getDecision_emergency_jump Samples.alertEnv (∅ : gmap string R)
           Samples.scout [Samples.scout] 100).
  - rewrite lookup_empty. unfold AI_CONFIG.decisionInterval. simpl. lra.
  - rewrite scout_forward. unfold AI_CONFIG.minTurnDistance. simpl. lra.
  - reflexivity.
  - simpl. lra.
  - simpl. lra.
Defined.

(** *** Sorting the options *)

Lemma insertScore_perm (s : DirectionScore) (sorted : list DirectionScore) :
  Permutation (insertScore s sorted) (s :: sorted).
Proof.
  induction sorted as [|y rest IH]; simpl; [reflexivity|].
  case_bool_decide; [reflexivity|].
  rewrite IH. apply perm_swap.
Qed.

Lemma insertScore_sorted (s : DirectionScore) (sorted : list DirectionScore) :
  StronglySorted (fun a b => totalScore b <= totalScore a) sorted ->
  StronglySorted (fun a b => totalScore b <= totalScore a)
    (insertScore s sorted).
Proof.
  induction sorted as [|y rest IH]; intros Hsorted; simpl.
  - repeat constructor.
  - apply StronglySorted_inv in Hsorted as [Hrest Hy].
    case_bool_decide as Hlt.
    + constructor; [constructor; assumption|].
      constructor; [lra|].
      rewrite List.Forall_forall in *. intros z Hz. specialize (Hy z Hz). lra.
    + constructor; [apply IH, Hrest|].
      apply List.Forall_forall. intros z Hz.
      apply (Permutation_in _ (insertScore_perm s rest)) in Hz.
      destruct Hz as [<- | Hz]; [lra|].
      rewrite List.Forall_forall in Hy. apply Hy, Hz.
Qed.

(** X20: [sortScores] rearranges the options in order of decreasing
    total score, dropping and adding none; so the option read as
    [scores[0]] has a total score no other option exceeds. *)
Theorem sortScores_descending :
  forall scores : list DirectionScore,
    Permutation (sortScores scores) scores /\
    StronglySorted (fun a b => totalScore b <= totalScore a)
      (sortScores scores) /\
    forall best rest,
      sortScores scores = best :: rest ->
      forall s, In s scores -> totalScore s <= totalScore best.
Proof.
  intros scores.
  assert (Hgen : forall acc,
    StronglySorted (fun a b => totalScore b <= totalScore a) acc ->
    Permutation (fold_left (fun sorted s => insertScore s sorted) scores acc)
      (acc ++ scores) /\
    StronglySorted (fun a b => totalScore b <= totalScore a)
      (fold_left (fun sorted s => insertScore s sorted) scores acc)).
  { induction scores as [|s scores IH]; intros acc Hacc; simpl.
    - rewrite app_nil_r. split; [reflexivity | exact Hacc].
    - destruct (IH (insertScore s acc) (insertScore_sorted s acc Hacc))
        as [Hperm Hsorted].
      split; [|exact Hsorted].
      rewrite Hperm, insertScore_perm. simpl.
      apply Permutation_middle. }
  destruct (Hgen [] (SSorted_nil _)) as [Hperm Hsorted].
  fold (sortScores scores) in Hperm, Hsorted. simpl in Hperm.
  split; [exact Hperm|]. split; [exact Hsorted|].
  intros best rest Heq s Hs. rewrite Heq in Hperm, Hsorted.
  apply (Permutation_in _ (Permutation_sym Hperm)) in Hs.
  destruct Hs as [<- | Hs]; [lra|].
  apply StronglySorted_inv in Hsorted as [_ Hbest].
  rewrite List.Forall_forall in Hbest. apply Hbest, Hs.
Qed.

End PolicyMore.

(** ** Scoring a direction *)

Section ScoreBounds.
Import CollisionSystem AIController PolicySpec.

Lemma clamp_cases (r : R) :
  (r <= 0 /\ Rmax 0 (Rmin 1 r) = 0) \/
  (0 <= r <= 1 /\ Rmax 0 (Rmin 1 r) = r) \/
  (1 <= r /\ Rmax 0 (Rmin 1 r) = 1).
Proof.
  unfold Rmax, Rmin.
  destruct (Rle_dec 1 r); destruct (Rle_dec 0 _); lra.
Qed.

(** X21: [distanceToSegment] is the distance from the point to the
    nearest point of the segment: it is never negative and no point
    of the segment (an endpoint included) is closer. *)
Theorem distanceToSegment_closest :
  forall (point : GridPosition) (segment : TrailSegment) (lam : R),
    0 <= lam <= 1 ->
    0 <= distanceToSegment point segment /\
    distanceToSegment point segment
    <= GridSystem.distance point (pointOn segment lam).
Proof.
  intros [px pz] [[sx sz] [ex ez] dir] lam Hlam.
  unfold distanceToSegment, GridSystem.distance, pointOn. cbn.
  case_bool_decide as Hlen.
  - split; [apply sqrt_pos|].
    destruct (Rplus_sqr_eq_0 (ex - sx) (ez - sz) Hlen) as [Hx Hz].
    rewrite Hx, Hz. apply sqrt_le_1_alt. nra.
  - split; [apply sqrt_pos|].
    set (L := (ex - sx) * (ex - sx) + (ez - sz) * (ez - sz)) in *.
    set (q := (px - sx) * (ex - sx) + (pz - sz) * (ez - sz)).
    assert (HL : 0 < L).
    { assert (0 <= L)
        by (unfold L; apply Rplus_le_le_0_compat; apply Rle_0_sqr).
      lra. }
    assert (Hq : q = q / L * L) by (field; lra).
    remember (Rmax 0 (Rmin 1 (q / L))) as t eqn:Ht.
    assert (Hkey : 0 <= (lam - t) * ((lam + t) * L - 2 * q)).
    { destruct (clamp_cases (q / L)) as [[Hr Hc] | [[Hr Hc] | [Hr Hc]]];
        rewrite Hc in Ht; subst t.
      - assert (q <= 0) by nra.
        replace ((lam - 0) * ((lam + 0) * L - 2 * q))
          with (lam * lam * L + lam * (- 2 * q)) by ring.
        apply Rplus_le_le_0_compat; nra.
      - replace (2 * q) with (2 * (q / L * L)) by (rewrite <- Hq; reflexivity).
        replace ((lam - q / L) * ((lam + q / L) * L - 2 * (q / L * L)))
          with ((lam - q / L) * (lam - q / L) * L) by ring.
        apply Rmult_le_pos; [apply Rle_0_sqr | lra].
      - assert (L <= q) by nra.
        replace ((lam - 1) * ((lam + 1) * L - 2 * q))
          with ((1 - lam) * ((1 - lam) * L + 2 * (q - L))) by ring.
        apply Rmult_le_pos; [lra|]. apply Rplus_le_le_0_compat; nra. }
    apply sqrt_le_1_alt.
    replace ((sx + lam * (ex - sx) - px) * (sx + lam * (ex - sx) - px)
             + (sz + lam * (ez - sz) - pz) * (sz + lam * (ez - sz) - pz))
      with ((px - (sx + t * (ex - sx))) ^ 2 + (pz - (sz + t * (ez - sz))) ^ 2
            + (lam - t) * ((lam + t) * L - 2 * q))
      by (unfold L, q; ring).
    lra.
Qed.

Lemma distanceToSegment_closest_witness :
  0 <= distanceToSegment (mkPos 3 4)
         (mkSeg (mkPos 0 0) (mkPos 10 0) east) /\
  distanceToSegment (mkPos 3 4) (mkSeg (mkPos 0 0) (mkPos 10 0) east)
  <= GridSystem.distance (mkPos 3 4)
       (pointOn (mkSeg (mkPos 0 0) (mkPos 10 0) east) 1).
Proof.
  apply (distanceToSegment_closest (mkPos 3 4)
           (mkSeg (mkPos 0 0) (mkPos 10 0) east) 1).
  lra.
Defined.

Lemma proximity_fold_le (D : TrailSegment -> R) (segs : list TrailSegment)
    (danger : R) :
  fold_left
    (fun danger segment =>
       if bool_decide (D segment < 3) then danger - (10 - D segment * 2)
       else danger)
    segs danger
  <= danger.
Proof.
  revert danger.
  induction segs as [|seg segs IH]; intros danger; simpl; [lra|].
  eapply Rle_trans; [apply IH|]. case_bool_decide; lra.
Qed.

Lemma side_fold_le (cond : GridDirection -> bool) (sides : list GridDirection)
    (danger : R) :
  fold_left (fun danger sideDir => if cond sideDir then danger - 5 else danger)
    sides danger
  <= danger.
Proof.
  revert danger.
  induction sides as [|side sides IH]; intros danger; simpl; [lra|].
  eapply Rle_trans; [apply IH|]. destruct (cond side); lra.
Qed.

Lemma evaluateSelfTrailDanger_nonpos (cycle : CycleState)
    (direction : GridDirection) (allCycles : list CycleState) :
  evaluateSelfTrailDanger cycle direction allCycles <= 0.
Proof.
  unfold evaluateSelfTrailDanger. case_bool_decide; [lra|]. cbv zeta.
  eapply Rle_trans.
  { apply (side_fold_le
             (fun sideDir =>
                bool_decide
                  (distance (raycast (c_gridPosition cycle)
                               (DIRECTION_VECTORS sideDir) 10 allCycles
                               (c_id cycle)) < 5)
                && bool_decide
                     (hit_type (raycast (c_gridPosition cycle)
                                  (DIRECTION_VECTORS sideDir) 10 allCycles
                                  (c_id cycle)) = Some trail))). }
  cbn [fold_left].
  repeat (eapply Rle_trans;
          [apply (proximity_fold_le
                    (fun segment => distanceToSegment _ segment))|]).
  lra.
Qed.

Lemma countEscapePaths_le (cycle : CycleState) (dir : GridDirection)
    (allCycles : list CycleState) :
  (countEscapePaths cycle dir allCycles <= 4)%nat.
Proof.
  unfold countEscapePaths. cbv zeta. simpl.
  repeat destruct (bool_decide (_ >= 8)); lia.
Qed.

(** X22: every option [evaluateAllDirections] returns has a forward
    distance of at most 2 * lookAheadDistance = 50, at most 4 escape
    paths, a self-trail danger that is never positive, and therefore a
    total score of at most 132. *)
Theorem evaluateAllDirections_bounds :
  forall (cycle : CycleState) (allCycles : list CycleState),
    List.Forall
      (fun s =>
         forwardDistance s <= 50 /\ (escapePaths s <= 4)%nat /\
         selfTrailDanger s <= 0 /\ totalScore s <= 132)
      (evaluateAllDirections cycle allCycles).
Proof.
  intros cycle allCycles.
  assert (Hone : forall dir turn,
    let s := evaluateDirection cycle allCycles dir turn in
    forwardDistance s <= 50 /\ (escapePaths s <= 4)%nat /\
    selfTrailDanger s <= 0 /\ totalScore s <= 132).
  { intros dir turn. unfold evaluateDirection. cbv zeta.
    cbn [forwardDistance escapePaths selfTrailDanger totalScore].
    pose proof (raycast_capped (c_gridPosition cycle) (DIRECTION_VECTORS dir)
                  (AI_CONFIG.lookAheadDistance * 2) allCycles (c_id cycle))
      as Hf.
    unfold AI_CONFIG.lookAheadDistance in *.
    pose proof (countEscapePaths_le cycle dir allCycles) as He.
    pose proof (evaluateSelfTrailDanger_nonpos cycle dir allCycles) as Hs.
    assert (Hi : INR (countEscapePaths cycle dir allCycles) <= 4).
    { apply le_INR in He. simpl in He. lra. }
    repeat split; try assumption; lra. }
  unfold evaluateAllDirections. cbv zeta.
  repeat (apply List.Forall_cons; [apply Hone|]). apply List.Forall_nil.
Qed.

End ScoreBounds.

(** ** Collisions and rays: soundness *)

Section CollisionsMore.
Import CollisionSystem RaySpec AIController.

(** X23: the distance [raycast] reports never exceeds [maxDistance],
    and never exceeds the distance [raycastWall] gives for the ray when
    that one is finite. *)
Theorem raycast_within :
  forall (p dir : GridPosition) (maxD : R) (cycles : list CycleState)
         (selfId : string),
    distance (raycast p dir maxD cycles selfId) <= maxD /\
    forall w : R,
      raycastWall p dir = Fin w ->
      distance (raycast p dir maxD cycles selfId) <= w.
Proof.
  intros p dir maxD cycles selfId. split; [apply raycast_capped|].
  intros w Hw. unfold raycast. cbv zeta. rewrite Hw.
  cbn [xnum_lt minHitDistance distance].
  pose proof (marchLoop_keeps (marchFuel maxD) p dir maxD cycles selfId step
                w (mkRay (Fin w) (Some wall))) as Hkeep.
  cbn [minHitDistance bounded] in Hkeep. specialize (Hkeep (Rle_refl w)).
  destruct (minHitDistance _) as [r|]; [|destruct Hkeep].
  cbn [bounded] in Hkeep. cbn [xmin]. pose proof (Rmin_l r maxD). lra.
Qed.

(** X24: when [raycast] reports a [trail] hit, the point of the ray at
    the reported distance lies on a trail segment the ray does test (the
    caster's own three latest segments excluded) of a cycle that is
    alive. *)
Theorem raycast_trail_sound :
  forall (p dir : GridPosition) (maxD : R) (cycles : list CycleState)
         (selfId : string),
    hit_type (raycast p dir maxD cycles selfId) = Some trail ->
    exists (c : CycleState) (seg : TrailSegment),
      In c cycles /\ c_isAlive c = true /\ In seg (rayTrail selfId c) /\
      pointIntersectsSegment
        (mkPos
           (pos_x p + pos_x dir * distance (raycast p dir maxD cycles selfId))
           (pos_z p + pos_z dir * distance (raycast p dir maxD cycles selfId)))
        seg = true.
Proof. exact raycast_trail_backed. Qed.

Lemma raycast_trail_sound_witness :
  exists (c : CycleState) (seg : TrailSegment),
    In c [Samples.boxedAgent; Samples.neighbour] /\
    c_isAlive c = true /\ In seg (rayTrail "ai-1" c) /\
    pointIntersectsSegment
      (mkPos
         (pos_x (mkPos 63.3 0)
          + pos_x (DIRECTION_VECTORS west)
            * distance (raycast (mkPos 63.3 0) (DIRECTION_VECTORS west) 10
                          [Samples.boxedAgent; Samples.neighbour] "ai-1"))
         (pos_z (mkPos 63.3 0)
          + pos_z (DIRECTION_VECTORS west)
            * distance (raycast (mkPos 63.3 0) (DIRECTION_VECTORS west) 10
                          [Samples.boxedAgent; Samples.neighbour] "ai-1")))
      seg = true.
Proof.
  apply (raycast_trail_sound (mkPos 63.3 0) (DIRECTION_VECTORS west) 10
           [Samples.boxedAgent; Samples.neighbour] "ai-1").
  rewrite boxedAgent_west. reflexivity.
Defined.

Lemma trailLoop_Some (p : GridPosition) (id : string)
    (cycles : list CycleState) (c : CycleState) :
  trailLoop p id cycles = Some c ->
  In c cycles /\ c_isAlive c = true /\
  checkTrailCollision p (c_trail c) (bool_decide (id = c_id c)) = true.
Proof.
  induction cycles as [|c0 rest IH]; [discriminate|]. simpl.
  destruct (c_isAlive c0) eqn:Halive; simpl.
  - destruct (checkTrailCollision p (c_trail c0) _) eqn:Hhit.
    + intros [= <-]. auto.
    + intros H. destruct (IH H) as (? & ? & ?). auto.
  - intros H. destruct (IH H) as (? & ? & ?). auto.
Qed.

Lemma trailLoop_None (p : GridPosition) (id : string)
    (cycles : list CycleState) :
  trailLoop p id cycles = None ->
  forall c, In c cycles -> c_isAlive c = true ->
    checkTrailCollision p (c_trail c) (bool_decide (id = c_id c)) = false.
Proof.
  induction cycles as [|c0 rest IH]; [intros _ c []|]. simpl.
  destruct (c_isAlive c0) eqn:Halive; simpl.
  - destruct (checkTrailCollision p (c_trail c0) _) eqn:Hhit; [discriminate|].
    intros H c [<- | Hin] Hc; [exact Hhit | exact (IH H c Hin Hc)].
  - intros H c [<- | Hin] Hc; [congruence | exact (IH H c Hin Hc)].
Qed.

Lemma cycleLoop_Some (p : GridPosition) (id : string)
    (cycles : list CycleState) (c : CycleState) :
  cycleLoop p id cycles = Some c ->
  In c cycles /\ c_isAlive c = true /\ c_id c <> id /\
  checkCycleCollision p (c_gridPosition c) = true.
Proof.
  induction cycles as [|c0 rest IH]; [discriminate|]. simpl.
  case_bool_decide as Hid; simpl.
  - intros H. destruct (IH H) as (? & ? & ? & ?). auto.
  - destruct (c_isAlive c0) eqn:Halive; simpl.
    + destruct (checkCycleCollision p (c_gridPosition c0)) eqn:Hhit.
      * intros [= <-]. auto.
      * intros H. destruct (IH H) as (? & ? & ? & ?). auto.
    + intros H. destruct (IH H) as (? & ? & ? & ?). auto.
Qed.

Lemma cycleLoop_None (p : GridPosition) (id : string)
    (cycles : list CycleState) :
  cycleLoop p id cycles = None ->
  forall c, In c cycles -> c_isAlive c = true -> c_id c <> id ->
    checkCycleCollision p (c_gridPosition c) = false.
Proof.
  induction cycles as [|c0 rest IH]; [intros _ c []|]. simpl.
  case_bool_decide as Hid; simpl.
  - intros H c [<- | Hin] Hc Hne; [congruence | exact (IH H c Hin Hc Hne)].
  - destruct (c_isAlive c0) eqn:Halive; simpl.
    + destruct (checkCycleCollision p (c_gridPosition c0)) eqn:Hhit;
        [discriminate|].
      intros H c [<- | Hin] Hc Hne; [exact Hhit | exact (IH H c Hin Hc Hne)].
    + intros H c [<- | Hin] Hc Hne; [congruence | exact (IH H c Hin Hc Hne)].
Qed.

(** X25: what each answer of [checkCollision] means.  [wall]: the point
    is outside the inset wall, and no cycle is named.  [trail]: the
    point is inside the wall and the named cycle is a living cycle of
    the list whose tested trail the point touches.  [cycle]: the point
    is inside the wall, touches no living cycle's tested trail, and the
    named cycle is a living cycle other than the querying one whose
    position is within two radii.  No collision: the point is inside
    the wall and touches no tested trail and no other body of a living
    cycle. *)
Theorem checkCollision_sound :
  forall (p : GridPosition) (id : string) (cycles : list CycleState),
    let result := checkCollision p id cycles in
    let trailClear :=
      forall c, In c cycles -> c_isAlive c = true ->
        checkTrailCollision p (c_trail c) (bool_decide (id = c_id c))
        = false in
    match res_type result with
    | Some wall =>
        collided result = true /\ res_cycleId result = None /\
        checkWallCollision p = true
    | Some trail =>
        collided result = true /\ checkWallCollision p = false /\
        exists c, res_cycleId result = Some (c_id c) /\ In c cycles /\
          c_isAlive c = true /\
          checkTrailCollision p (c_trail c) (bool_decide (id = c_id c))
          = true
    | Some cycle =>
        collided result = true /\ checkWallCollision p = false /\
        trailClear /\
        exists c, res_cycleId result = Some (c_id c) /\ In c cycles /\
          c_isAlive c = true /\ c_id c <> id /\
          checkCycleCollision p (c_gridPosition c) = true
    | None =>
        collided result = false /\ res_cycleId result = None /\
        checkWallCollision p = false /\ trailClear /\
        forall c, In c cycles -> c_isAlive c = true -> c_id c <> id ->
          checkCycleCollision p (c_gridPosition c) = false
    end.
Proof.
  intros p id cycles. cbv zeta. unfold checkCollision.
  destruct (checkWallCollision p) eqn:Hwall; [cbn; auto|].
  destruct (trailLoop p id cycles) as [c|] eqn:Htrail.
  - cbn. destruct (trailLoop_Some p id cycles c Htrail) as (Hin & Hc & Hhit).
    split; [reflexivity|]. split; [reflexivity|]. exists c. auto.
  - pose proof (trailLoop_None p id cycles Htrail) as Hclear.
    destruct (cycleLoop p id cycles) as [c|] eqn:Hcycle.
    + cbn.
      destruct (cycleLoop_Some p id cycles c Hcycle)
        as (Hin & Hc & Hne & Hhit).
      split; [reflexivity|]. split; [reflexivity|]. split; [exact Hclear|].
      exists c. auto.
    + cbn. pose proof (cycleLoop_None p id cycles Hcycle) as Hfar. auto.
Qed.

(** Over exact reals the box test misses no point within
    TRAIL_WIDTH / 2 + CYCLE_RADIUS of the segment. *)
Lemma pointIntersectsSegment_covers :
  forall (point : GridPosition) (segment : TrailSegment),
    distanceToSegment point segment <= TRAIL_WIDTH / 2 + CYCLE_RADIUS ->
    pointIntersectsSegment point segment = true.
Proof.
  intros [px pz] [[sx sz] [ex ez] dir].
  unfold distanceToSegment, pointIntersectsSegment. cbv zeta.
  cbn [pos_x pos_z seg_start seg_end].
  set (h := TRAIL_WIDTH / 2 + CYCLE_RADIUS).
  assert (Hh : 0 <= h) by (unfold h, TRAIL_WIDTH, CYCLE_RADIUS; lra).
  assert (Hbox : forall cx cz : R,
    Rmin sx ex <= cx <= Rmax sx ex -> Rmin sz ez <= cz <= Rmax sz ez ->
    sqrt ((px - cx) ^ 2 + (pz - cz) ^ 2) <= h ->
    bool_decide (px >= Rmin sx ex - h) && bool_decide (px <= Rmax sx ex + h)
    && bool_decide (pz >= Rmin sz ez - h)
    && bool_decide (pz <= Rmax sz ez + h) = true).
  { intros cx cz Hcx Hcz Hd.
    assert (Hsq : (px - cx) ^ 2 + (pz - cz) ^ 2 <= h * h).
    { rewrite <- (sqrt_sqrt ((px - cx) ^ 2 + (pz - cz) ^ 2))
        by (apply Rplus_le_le_0_compat; apply pow2_ge_0).
      pose proof (sqrt_pos ((px - cx) ^ 2 + (pz - cz) ^ 2)).
      apply Rmult_le_compat; assumption. }
    assert (Hx2 : 0 <= (pz - cz) ^ 2) by apply pow2_ge_0.
    assert (Hz2 : 0 <= (px - cx) ^ 2) by apply pow2_ge_0.
    assert (Hx : - h <= px - cx <= h).
    { assert ((px - cx) * (px - cx) <= h * h) by (simpl in *; lra).
      split; nra. }
    assert (Hz : - h <= pz - cz <= h).
    { assert ((pz - cz) * (pz - cz) <= h * h) by (simpl in *; lra).
      split; nra. }
    repeat (apply andb_true_intro; split); apply bool_decide_eq_true; lra. }
  destruct (decide ((ex - sx) * (ex - sx) + (ez - sz) * (ez - sz) = 0))
    as [Hlen | Hlen].
  - rewrite (bool_decide_eq_true_2 _ Hlen). apply Hbox.
    + unfold Rmin, Rmax. destruct (Rle_dec sx ex); lra.
    + unfold Rmin, Rmax. destruct (Rle_dec sz ez); lra.
  - rewrite (bool_decide_eq_false_2 _ Hlen).
    set (q := ((px - sx) * (ex - sx) + (pz - sz) * (ez - sz))
              / ((ex - sx) * (ex - sx) + (ez - sz) * (ez - sz))).
    assert (Ht : 0 <= Rmax 0 (Rmin 1 q) <= 1).
    { destruct (clamp_cases q) as [[? ->] | [[? ->] | [? ->]]]; lra. }
    generalize dependent (Rmax 0 (Rmin 1 q)). intros t Ht.
    apply Hbox.
    + unfold Rmin, Rmax. destruct (Rle_dec sx ex); nra.
    + unfold Rmin, Rmax. destruct (Rle_dec sz ez); nra.
Qed.

(** X26: the box test of [pointIntersectsSegment] misses no point that
    is within TRAIL_WIDTH / 2 + CYCLE_RADIUS - 1 / 1000 = 0.474 of the
    segment, where the distance is the one [distanceToSegment] computes.
    The statement is for positions of moderate size and leaves a
    thousandth below the half width of the box: at the half width
    itself the rounding of the box bounds in the source decides (4.3 +
    0.475 is 4.7749999999999995 there, so a point at x = 4.775 beside a
    segment that ends at x = 4.3 is missed). *)
Theorem pointIntersectsSegment_near :
  forall (point : GridPosition) (segment : TrailSegment),
    moderate point -> moderate (seg_start segment) ->
    moderate (seg_end segment) ->
    distanceToSegment point segment
    <= TRAIL_WIDTH / 2 + CYCLE_RADIUS - 1 / 1000 ->
    pointIntersectsSegment point segment = true.
Proof.
  intros point segment _ _ _ Hnear.
  apply pointIntersectsSegment_covers. lra.
Qed.

Lemma pointIntersectsSegment_near_witness :
  pointIntersectsSegment (mkPos 3 0) (mkSeg (mkPos 3 0) (mkPos 3 0) east)
  = true.
Proof.
  assert (Hmod : moderate (mkPos 3 0)).
  { unfold moderate, Rabs. simpl.
    destruct (Rcase_abs 3), (Rcase_abs 0); lra. }
  apply (pointIntersectsSegment_near (mkPos 3 0)
           (mkSeg (mkPos 3 0) (mkPos 3 0) east) Hmod Hmod Hmod).
  unfold distanceToSegment, TRAIL_WIDTH, CYCLE_RADIUS. cbn.
  rewrite bool_decide_eq_true_2 by lra.
  replace ((3 - 3) * ((3 - 3) * 1) + (0 - 0) * ((0 - 0) * 1)) with 0 by ring.
  rewrite sqrt_0. lra.
Defined.

End CollisionsMore.

(** ** The frame loop and the jump arc *)

Section FrameLoop.
Import GameLoop LightcycleModel.

Lemma tickLoop_spec (fuel : nat) :
  forall (timers : Timers) (ticks : nat),
    0 <= accumulator timers ->
    accumulator timers < INR fuel * PHYSICS_TIMESTEP ->
    exists k : nat,
      snd (tickLoop fuel timers ticks) = (ticks + k)%nat /\
      accumulator timers
      = accumulator (fst (tickLoop fuel timers ticks))
        + INR k * PHYSICS_TIMESTEP /\
      physicsTime (fst (tickLoop fuel timers ticks))
      = physicsTime timers + INR k * PHYSICS_TIMESTEP /\
      0 <= accumulator (fst (tickLoop fuel timers ticks)) < PHYSICS_TIMESTEP.
Proof.
  induction fuel as [|fuel IH]; intros timers ticks Hpos Hfuel.
  - simpl in Hfuel. lra.
  - cbn [tickLoop]. case_bool_decide as Hge.
    + destruct (IH (mkTimers (accumulator timers - PHYSICS_TIMESTEP)
                      (physicsTime timers + PHYSICS_TIMESTEP)) (S ticks))
        as (k & Hn & Hacc & Hphys & Hrest).
      * cbn [accumulator]. lra.
      * cbn [accumulator]. rewrite S_INR in Hfuel. lra.
      * cbn [accumulator physicsTime] in Hacc, Hphys.
        exists (S k). rewrite S_INR.
        split; [rewrite Hn; lia|]. split; [lra|]. split; [lra | exact Hrest].
    + exists 0%nat. cbn [fst snd INR].
      split; [lia|]. split; [lra|]. split; lra.
Qed.

Lemma frame_fuel (a : R) :
  0 <= a -> a < INR (Z.to_nat (up (a / PHYSICS_TIMESTEP))) * PHYSICS_TIMESTEP.
Proof.
  intros Ha.
  assert (Hstep : 0 < PHYSICS_TIMESTEP) by (unfold PHYSICS_TIMESTEP; lra).
  destruct (archimed (a / PHYSICS_TIMESTEP)) as [Hup _].
  assert (Hn : IZR (up (a / PHYSICS_TIMESTEP))
               <= INR (Z.to_nat (up (a / PHYSICS_TIMESTEP)))).
  { destruct (Z_lt_le_dec (up (a / PHYSICS_TIMESTEP)) 0) as [Hneg | Hnn].
    - apply IZR_lt in Hneg.
      pose proof (pos_INR (Z.to_nat (up (a / PHYSICS_TIMESTEP)))). lra.
    - rewrite INR_IZR_INZ, Z2Nat.id by assumption. lra. }
  assert (Hq : a = a / PHYSICS_TIMESTEP * PHYSICS_TIMESTEP) by (field; lra).
  rewrite Hq at 1. apply Rmult_lt_compat_r; lra.
Qed.

(** Over exact reals a frame runs at most 15 updates. *)
Lemma playingFrame_exact :
  forall (timers : Timers) (deltaTime : R),
    0 <= accumulator timers < PHYSICS_TIMESTEP ->
    0 <= deltaTime ->
    let after := playingFrame timers deltaTime in
    0 <= accumulator (fst after) < PHYSICS_TIMESTEP /\
    (snd after <= 15)%nat /\
    accumulator (fst after) + INR (snd after) * PHYSICS_TIMESTEP
    = accumulator timers + Rmin deltaTime MAX_DELTA /\
    physicsTime (fst after)
    = physicsTime timers + INR (snd after) * PHYSICS_TIMESTEP.
Proof.
  intros timers deltaTime Hacc Hdt. cbv zeta. unfold playingFrame. cbv zeta.
  set (dt := if bool_decide (deltaTime > MAX_DELTA) then MAX_DELTA
             else deltaTime).
  assert (Hmin : dt = Rmin deltaTime MAX_DELTA).
  { unfold dt, Rmin. case_bool_decide; destruct (Rle_dec _ _); lra. }
  assert (Hcap : 0 <= dt <= MAX_DELTA).
  { unfold dt. case_bool_decide; unfold MAX_DELTA in *; lra. }
  cbn [accumulator physicsTime].
  destruct (tickLoop_spec
              (Z.to_nat (up ((accumulator timers + dt) / PHYSICS_TIMESTEP)))
              (mkTimers (accumulator timers + dt) (physicsTime timers)) 0%nat)
    as (k & Hn & Hsum & Hphys & Hrest).
  - cbn [accumulator]. lra.
  - cbn [accumulator]. apply frame_fuel. lra.
  - cbn [accumulator physicsTime] in Hsum, Hphys. rewrite Hn.
    cbn [Nat.add]. split; [exact Hrest|]. split; [|split; lra].
    apply Nat.lt_succ_r, INR_lt.
    unfold PHYSICS_TIMESTEP, MAX_DELTA in *.
    replace (INR 16) with 16 by (simpl; lra). lra.
Qed.

(** X27: one frame of the fixed-step loop.  Starting from an accumulator
    of less than one step and a frame time that is not negative, the
    frame runs at most 16 physics updates, leaves less than one step in
    the accumulator, loses no time (what is left plus the steps run is
    the old accumulator plus the frame time capped at [MAX_DELTA]) and
    advances the physics clock by exactly the steps run.  (Over exact
    reals the bound is 15, [playingFrame_exact]; in the binary64
    arithmetic of the source a frame can leave an accumulator a rounding
    error below a full step, and the next frame of 250 ms then runs a
    sixteenth update.) *)
Theorem playingFrame_budget :
  forall (timers : Timers) (deltaTime : R),
    0 <= accumulator timers < PHYSICS_TIMESTEP ->
    0 <= deltaTime ->
    let after := playingFrame timers deltaTime in
    0 <= accumulator (fst after) < PHYSICS_TIMESTEP /\
    (snd after <= 16)%nat /\
    accumulator (fst after) + INR (snd after) * PHYSICS_TIMESTEP
    = accumulator timers + Rmin deltaTime MAX_DELTA /\
    physicsTime (fst after)
    = physicsTime timers + INR (snd after) * PHYSICS_TIMESTEP.
Proof.
  intros timers deltaTime Hacc Hdt.
  destruct (playingFrame_exact timers deltaTime Hacc Hdt)
    as (Hrest & Hticks & Hsum & Hphys).
  cbv zeta. split; [exact Hrest|]. split; [lia|]. split; assumption.
Qed.

Lemma playingFrame_budget_witness :
  let after := playingFrame (mkTimers 0 0) 20 in
  0 <= accumulator (fst after) < PHYSICS_TIMESTEP /\
  (snd after <= 16)%nat /\
  accumulator (fst after) + INR (snd after) * PHYSICS_TIMESTEP
  = accumulator (mkTimers 0 0) + Rmin 20 MAX_DELTA /\
  physicsTime (fst after)
  = physicsTime (mkTimers 0 0) + INR (snd after) * PHYSICS_TIMESTEP.
Proof.
  apply (playingFrame_budget (mkTimers 0 0) 20).
  - unfold PHYSICS_TIMESTEP. simpl. lra.
  - lra.
Defined.

Lemma jump_arc_form (elapsed : R) :
  4 * (elapsed / JUMP_DURATION) * (1 - elapsed / JUMP_DURATION) * JUMP_HEIGHT
  = 16 * (elapsed * (900 - elapsed)) / 810000.
Proof. unfold JUMP_DURATION, JUMP_HEIGHT. field. Qed.

Lemma calculateJumpY_arc_bounds :
  forall jumpStartTime currentTime : R,
    jumpStartTime <= currentTime ->
    let elapsed := currentTime - jumpStartTime in
    0 <= calculateJumpY jumpStartTime currentTime <= JUMP_HEIGHT /\
    (30 <= elapsed <= 870 ->
     calculateJumpY jumpStartTime currentTime > 0.5) /\
    (elapsed <= 29 \/ 871 <= elapsed ->
     calculateJumpY jumpStartTime currentTime < 0.5).
Proof.
  intros jumpStartTime currentTime Hle. cbv zeta.
  unfold calculateJumpY. cbv zeta.
  set (e := currentTime - jumpStartTime).
  assert (He : 0 <= e) by (unfold e; lra).
  case_bool_decide as Hdone.
  - unfold JUMP_HEIGHT, JUMP_DURATION in *.
    split; [lra|]. split; [intros ?; lra | intros _; lra].
  - rewrite jump_arc_form. unfold JUMP_HEIGHT, JUMP_DURATION in *.
    assert (Hlt : e < 900) by lra.
    split; [|split].
    + assert (0 <= e * (900 - e)) by (apply Rmult_le_pos; lra).
      assert (e * (900 - e) <= 202500).
      { assert (0 <= (e - 450) * (e - 450)) by apply Rle_0_sqr. lra. }
      lra.
    + intros [Hlo Hhi].
      assert (0 <= (e - 30) * (870 - e)) by (apply Rmult_le_pos; lra).
      lra.
    + intros [Hearly | Hlate].
      * assert (0 <= (29 - e) * (871 - e)) by (apply Rmult_le_pos; lra).
        lra.
      * assert (0 <= (e - 29) * (e - 871)) by (apply Rmult_le_pos; lra).
        lra.
Qed.


(** X28: the jump arc and the collision check.  From the start of the
    jump on, [calculateJumpY] stays between the ground and
    [JUMP_HEIGHT].  A jumping cycle is in the air (its collision check
    is skipped) from 30 ms to 870 ms after the start of its jump, and on
    the ground again in the first 29 ms, and from 871 ms on; a cycle
    that is not jumping is never in the air. *)
Theorem isInAir_window :
  forall (cycle : CycleState) (currentTime : R),
    c_jumpStartTime cycle <= currentTime ->
    0 <= calculateJumpY (c_jumpStartTime cycle) currentTime <= JUMP_HEIGHT /\
    (c_isJumping cycle = false -> isInAir cycle currentTime = false) /\
    (c_isJumping cycle = true ->
     30 <= currentTime - c_jumpStartTime cycle <= 870 ->
     isInAir cycle currentTime = true) /\
    (currentTime - c_jumpStartTime cycle <= 29
     \/ 871 <= currentTime - c_jumpStartTime cycle ->
     isInAir cycle currentTime = false).
Proof.
  intros cycle currentTime Hle.
  destruct (calculateJumpY_arc_bounds (c_jumpStartTime cycle) currentTime Hle)
    as (Hbounds & Hair & Hground).
  unfold isInAir. split; [exact Hbounds|].
  split; [intros ->; reflexivity|]. split.
  - intros -> Hwin. cbn [andb]. apply bool_decide_eq_true_2, Hair, Hwin.
  - intros Hout. apply andb_false_intro2, bool_decide_eq_false_2.
    specialize (Hground Hout). lra.
Qed.

Lemma isInAir_window_witness :
  0 <= calculateJumpY (c_jumpStartTime Samples.lonePlayer) 450
    <= JUMP_HEIGHT /\
  (c_isJumping Samples.lonePlayer = false ->
   isInAir Samples.lonePlayer 450 = false) /\
  (c_isJumping Samples.lonePlayer = true ->
   30 <= 450 - c_jumpStartTime Samples.lonePlayer <= 870 ->
   isInAir Samples.lonePlayer 450 = true) /\
  (450 - c_jumpStartTime Samples.lonePlayer <= 29
   \/ 871 <= 450 - c_jumpStartTime Samples.lonePlayer ->
   isInAir Samples.lonePlayer 450 = false).
Proof. apply (isInAir_window Samples.lonePlayer 450). simpl. lra. Defined.

End FrameLoop.

(** ** Keyboard input *)

Section Input.
Import InputManager.

Lemma findMapping_Some (code : string) (mapping : string * InputAction) :
  findMapping code = Some mapping ->
  In mapping KEY_MAPPINGS /\ fst mapping = code.
Proof.
  unfold findMapping. intros Hfind.
  apply List.find_some in Hfind as [Hin Heq].
  split; [exact Hin | exact (bool_decide_eq_true_1 _ Heq)].
Qed.

Lemma handleKeyDown_cases (st : InputState) (code : string) :
  handleKeyDown st code = (st, None) \/
  exists mapping : string * InputAction,
    enabled st = true /\ findMapping code = Some mapping /\
    (code ∉ pressedKeys st) /\
    handleKeyDown st code
    = (mkInput true ({[code]} ∪ pressedKeys st), Some (snd mapping)).
Proof.
  unfold handleKeyDown.
  destruct (enabled st) eqn:Hon; cbn [negb]; [|left; reflexivity].
  destruct (findMapping code) as [mapping|] eqn:Hfind; [|left; reflexivity].
  case_bool_decide as Hdown; [left; reflexivity|].
  right. exists mapping. auto.
Qed.

Lemma handleKeyDown_pressed (keys : gset string) (code : string) :
  code ∈ keys ->
  handleKeyDown (mkInput true keys) code = (mkInput true keys, None).
Proof.
  intros Hdown. unfold handleKeyDown. cbn [enabled negb pressedKeys].
  destruct (findMapping code); [|reflexivity].
  rewrite bool_decide_eq_true_2 by exact Hdown. reflexivity.
Qed.

(** X29: a held key acts once.  A key-down emits an action only when
    the manager is enabled, the key is a game key and it is not already
    down, and then marks it as down; a second key-down for the same code
    emits nothing and changes nothing; after a key-up the key emits its
    action again. *)
Theorem handleKeyDown_once :
  (forall (st : InputState) (code : string) (action : InputAction),
     snd (handleKeyDown st code) = Some action ->
     enabled st = true /\ isPressed st code = false /\
     In (code, action) KEY_MAPPINGS /\
     isPressed (fst (handleKeyDown st code)) code = true) /\
  (forall (st : InputState) (code : string),
     handleKeyDown (fst (handleKeyDown st code)) code
     = (fst (handleKeyDown st code), None)) /\
  (forall (st : InputState) (code : string),
     enabled st = true ->
     snd (handleKeyDown (handleKeyUp (fst (handleKeyDown st code)) code) code)
     = snd <$> findMapping code).
Proof.
  split; [|split].
  - intros st code action Hemit.
    destruct (handleKeyDown_cases st code)
      as [Hsame | (mapping & Hon & Hfind & Hup & Hdown)].
    + rewrite Hsame in Hemit. discriminate Hemit.
    + rewrite Hdown in Hemit |- *. cbn [fst snd] in Hemit |- *.
      injection Hemit as <-.
      destruct (findMapping_Some code mapping Hfind) as [Hin Hkey].
      unfold isPressed. cbn [pressedKeys].
      split; [exact Hon|].
      split; [apply bool_decide_eq_false_2, Hup|]. split.
      * destruct mapping as [key act]. cbn [fst snd] in *. subst key.
        exact Hin.
      * apply bool_decide_eq_true_2, elem_of_union_l, elem_of_singleton.
        reflexivity.
  - intros st code.
    destruct (handleKeyDown_cases st code)
      as [Hsame | (mapping & Hon & Hfind & Hup & Hdown)].
    + rewrite Hsame. cbn [fst]. exact Hsame.
    + rewrite Hdown. cbn [fst]. apply handleKeyDown_pressed.
      apply elem_of_union_l, elem_of_singleton. reflexivity.
  - intros st code Hon.
    assert (Hkeep : enabled (fst (handleKeyDown st code)) = true).
    { destruct (handleKeyDown_cases st code)
        as [Hsame | (mapping & _ & _ & _ & Hdown)].
      - rewrite Hsame. exact Hon.
      - rewrite Hdown. reflexivity. }
    unfold handleKeyDown at 1, handleKeyUp.
    cbn [enabled pressedKeys]. rewrite Hkeep. cbn [negb].
    destruct (findMapping code) as [mapping|]; [|reflexivity].
    rewrite bool_decide_eq_false_2; [reflexivity|].
    intros Hin. apply elem_of_difference in Hin as [_ Hin].
    apply Hin, elem_of_singleton. reflexivity.
Qed.

Lemma inputStep_invariant (st : InputState) (ev : InputEvent) :
  (enabled st = false -> pressedKeys st = ∅) ->
  (forall key, key ∈ pressedKeys st -> is_Some (findMapping key)) ->
  (enabled (fst (inputStep st ev)) = false ->
   pressedKeys (fst (inputStep st ev)) = ∅) /\
  (forall key, key ∈ pressedKeys (fst (inputStep st ev)) ->
     is_Some (findMapping key)).
Proof.
  intros Hoff Hgame.
  destruct ev as [code | code | | |]; cbn [inputStep fst].
  - destruct (enabled st) eqn:Hon; [|cbn [fst]; rewrite Hon; auto].
    destruct (handleKeyDown_cases st code)
      as [Hsame | (mapping & _ & Hfind & _ & Hdown)].
    + rewrite Hsame. cbn [fst]. rewrite Hon. auto.
    + rewrite Hdown. cbn [fst enabled pressedKeys]. split; [discriminate|].
      intros key Hkey. apply elem_of_union in Hkey as [Hkey | Hkey].
      * apply elem_of_singleton in Hkey. subst key. rewrite Hfind. eauto.
      * apply Hgame, Hkey.
  - destruct (enabled st) eqn:Hon; [|rewrite Hon; auto].
    unfold handleKeyUp. cbn [enabled pressedKeys]. rewrite Hon.
    split; [discriminate|]. intros key Hkey.
    apply elem_of_difference in Hkey as [Hkey _]. apply Hgame, Hkey.
  - destruct (enabled st) eqn:Hon; [|rewrite Hon; auto].
    unfold handleBlur. cbn [enabled pressedKeys].
    split; [reflexivity|]. intros key Hkey.
    apply elem_of_empty in Hkey. destruct Hkey.
  - unfold enable. destruct (enabled st) eqn:Hon; [rewrite Hon; auto|].
    cbn [enabled pressedKeys]. split; [discriminate | exact Hgame].
  - unfold disable. destruct (enabled st) eqn:Hon; cbn [negb].
    + cbn [enabled pressedKeys]. split; [reflexivity|].
      intros key Hkey. apply elem_of_empty in Hkey. destruct Hkey.
    + rewrite Hon. auto.
Qed.

(** X30: whatever key, blur, enable and disable events reach a new
    manager, the keys it holds as pressed are all game keys (keys of
    [KEY_MAPPINGS]), and while it is disabled it holds none. *)
Theorem inputRun_invariant :
  forall evs : list InputEvent,
    let st := inputRun initialInput evs in
    (enabled st = false -> pressedKeys st = ∅) /\
    (forall key, isPressed st key = true -> is_Some (findMapping key)).
Proof.
  intros evs. cbv zeta.
  assert (Hgen : forall st,
    (enabled st = false -> pressedKeys st = ∅) ->
    (forall key, key ∈ pressedKeys st -> is_Some (findMapping key)) ->
    (enabled (inputRun st evs) = false -> pressedKeys (inputRun st evs) = ∅) /\
    (forall key, key ∈ pressedKeys (inputRun st evs) ->
       is_Some (findMapping key))).
  { induction evs as [|ev evs IH]; intros st Hoff Hgame; [auto|].
    unfold inputRun. cbn [fold_left].
    destruct (inputStep_invariant st ev Hoff Hgame) as [Hoff' Hgame'].
    apply (IH _ Hoff' Hgame'). }
  destruct (Hgen initialInput) as [Hoff Hgame].
  - reflexivity.
  - intros key Hkey. cbn [initialInput pressedKeys] in Hkey.
    apply elem_of_empty in Hkey. destruct Hkey.
  - split; [exact Hoff|]. intros key Hkey. apply Hgame.
    unfold isPressed in Hkey. exact (bool_decide_eq_true_1 _ Hkey).
Qed.

End Input.

(** ** Where rounding decides

    The boundary cases that the statements above leave out, evaluated in
    binary64 as the source evaluates them. *)

Section Rounding.

(** [getLinePositions] for length 0.3 and step 0.1: the loop variable
    takes the values 0.1 and 0.2 only; the third, 0.1 + 0.1 + 0.1, is
    above 0.3. *)
Example lineDistances_three_tenths :
  length (Binary64.lineDistances 10 Binary64.threeTenths Binary64.tenth
            Binary64.tenth) = 2%nat.
Proof. vm_compute. reflexivity. Qed.

(** A frame of 50 ms from an empty accumulator runs two updates and
    leaves an accumulator just below a step; the frame of 250 ms after
    it runs sixteen.  Both loops end by their guard. *)
Example playingFrame_sixteen :
  snd Binary64.frameOf50 = 2%nat /\
  PrimFloat.ltb (fst Binary64.frameOf50) Binary64.PHYSICS_TIMESTEP = true /\
  snd Binary64.frameOf250 = 16%nat /\
  PrimFloat.ltb (fst Binary64.frameOf250) Binary64.PHYSICS_TIMESTEP = true.
Proof. vm_compute. repeat split; reflexivity. Qed.

(** The box test at the half width of the box: the point (4.775, 1)
    beside the segment from (0, 1) to (4.3, 1) is missed. *)
Example besideEnd_missed :
  Binary64.pointIntersectsSegment Binary64.besideEnd Binary64.shortSegment
  = false.
Proof. vm_compute. reflexivity. Qed.

End Rounding.
